(** * Mimir: block-storage querier and ruler ownership

    A shallow embedding of the store-gateway querier
    ([pkg/querier/blocks_store_queryable.go]) and of the ruler's rule-group
    ownership test ([pkg/ruler/ruler.go]), with the properties the
    specification states about them. *)

From Stdlib Require Import ZArith NArith Lia List Bool Ascii String.
From stdpp Require Import base tactics option list strings gmap.

Local Open Scope Z_scope.

(** ** Results of running Go code

    A modelled Go function either returns, panics at run time (for instance an
    integer division by zero or an index out of range), or the model's loop
    budget is exhausted.  The last case is shown unreachable wherever a
    theorem states that the code returns. *)

Inductive outcome (A : Type) : Type :=
| Ret (a : A)
| Panic
| NoFuel.

Arguments Ret {A} a.
Arguments Panic {A}.
Arguments NoFuel {A}.

Definition outcome_bind {A B : Type} (m : outcome A) (k : A → outcome B) : outcome B :=
  match m with
  | Ret a => k a
  | Panic => Panic
  | NoFuel => NoFuel
  end.

Notation "'let*' x ':=' m 'in' k" := (outcome_bind m (fun x => k))
  (at level 10, x name, m at level 100, k at level 200,
   format "'[v' 'let*'  x  ':='  m  'in' '/' k ']'").

(** ** Data model *)

(** A block identifier ([ulid.ULID], 128 bits), as a number. *)
Definition ULID : Type := N.

(** [bucketindex.Block], with the fields the querier reads. *)
Record Block : Type := mkBlock {
  ID : ULID;
  MinTime : Z;
  MaxTime : Z;
  CompactorShardID : string;
  UploadedAt : Z
}.

(** ** Shard filter *)

Module ShardFilter.

(** Go's [a % b] on [uint64]: a run-time panic when [b] is zero. *)
Definition go_rem (a b : N) : outcome N :=
  if (b =? 0)%N then Panic else Ret (a mod b)%N.

(** [canBlockWithCompactorShardIndexContainQueryShard]; the pair is
    [(result, divisibleShardCounts)].  The conjunctions of the source short-cut,
    so a remainder is only taken when the comparison before it holds. *)
Definition canBlockWithCompactorShardIndexContainQueryShard
    (queryShardIndex queryShardCount compactorShardIndex compactorShardCount : N)
    : outcome (bool * bool) :=
  let* c1 := (if (compactorShardCount <=? queryShardCount)%N
              then let* r := go_rem queryShardCount compactorShardCount in Ret (r =? 0)%N
              else Ret false) in
  if c1 then
    let* wantedCompactorShardIndex := go_rem queryShardIndex compactorShardCount in
    Ret ((compactorShardIndex =? wantedCompactorShardIndex)%N, true)
  else
    let* c2 := (if (queryShardCount <=? compactorShardCount)%N
                then let* r := go_rem compactorShardCount queryShardCount in Ret (r =? 0)%N
                else Ret false) in
    if c2 then
      let* wantedQueryShardIndex := go_rem compactorShardIndex queryShardCount in
      Ret ((queryShardIndex =? wantedQueryShardIndex)%N, true)
    else Ret (true, false).

Section Filter.

(** [sharding.ParseShardIDLabelValue], of another package, is a parameter:
    [Some (index, count)] on success and [None] on error. *)
Variable ParseShardIDLabelValue : string → option (N * N).

(** The loop of [filterBlocksByShard].  The slice [blocks] is edited in
    place: [append(blocks[:ix], blocks[ix+1:]...)] removes position [ix]. *)
Fixpoint filterLoop (fuel : nat) (queryShardIndex queryShardCount : N)
    (blocks : list Block) (ix : nat) (incompatibleBlocks : Z)
    : outcome (list Block * Z) :=
  match blocks !! ix with
  | None => Ret (blocks, incompatibleBlocks)
  | Some b =>
    match fuel with
    | O => NoFuel
    | S fuel' =>
      if String.eqb (CompactorShardID b) ""
      then filterLoop fuel' queryShardIndex queryShardCount blocks (S ix) incompatibleBlocks
      else
        match ParseShardIDLabelValue (CompactorShardID b) with
        | None =>
          filterLoop fuel' queryShardIndex queryShardCount blocks (S ix) incompatibleBlocks
        | Some (compactorShardIndex, compactorShardCount) =>
          let* can :=
            canBlockWithCompactorShardIndexContainQueryShard
              queryShardIndex queryShardCount compactorShardIndex compactorShardCount in
          let '(res, divisible) := can in
          let incompatibleBlocks :=
            if divisible then incompatibleBlocks else incompatibleBlocks + 1 in
          if res
          then filterLoop fuel' queryShardIndex queryShardCount blocks (S ix) incompatibleBlocks
          else filterLoop fuel' queryShardIndex queryShardCount
                 (take ix blocks ++ drop (S ix) blocks) ix incompatibleBlocks
        end
    end
  end.

Definition filterBlocksByShard (blocks : list Block)
    (queryShardIndex queryShardCount : N) : outcome (list Block * Z) :=
  filterLoop (length blocks) queryShardIndex queryShardCount blocks 0 0.

(** *** The rule as the specification words it *)

(** The compactor shard of a block: none when the identifier is empty or
    does not parse. *)
Definition compactorShard (b : Block) : option (N * N) :=
  if String.eqb (CompactorShardID b) "" then None
  else ParseShardIDLabelValue (CompactorShardID b).

(** Neither shard count divides the other. *)
Definition incompatibleCounts (qc cc : N) : bool :=
  negb (qc mod cc =? 0)%N && negb (cc mod qc =? 0)%N.

Definition keepRule (qi qc : N) (b : Block) : bool :=
  match compactorShard b with
  | None => true
  | Some (ci, cc) =>
      ((qc mod cc =? 0)%N && (qi mod cc =? ci)%N)
      || ((cc mod qc =? 0)%N && (ci mod qc =? qi)%N)
      || incompatibleCounts qc cc
  end.

Definition incompatibleBlock (qc : N) (b : Block) : bool :=
  match compactorShard b with
  | None => false
  | Some (_, cc) => incompatibleCounts qc cc
  end.

(** Every shard identifier that parses has an index below its count (so the
    count is at least one), as for the query's own [Shard]. *)
Definition wellFormedShard (b : Block) : bool :=
  match compactorShard b with
  | None => true
  | Some (ci, cc) => (ci <? cc)%N
  end.

Definition wellFormedShards (blocks : list Block) : bool :=
  forallb wellFormedShard blocks.

(** *** Proofs *)

Lemma go_rem_pos (a b : N) : (0 < b)%N → go_rem a b = Ret (a mod b)%N.
Proof.
  intros Hb. unfold go_rem.
  destruct (N.eqb_spec b 0) as [->|_]; [lia | reflexivity].
Qed.

(** With an index below the count on the compactor side and a positive query
    shard count, the test never divides by zero and computes the rule. *)
Lemma canBlock_rule (qi qc ci cc : N) :
  (1 ≤ qc)%N → (ci < cc)%N →
  canBlockWithCompactorShardIndexContainQueryShard qi qc ci cc
  = Ret (((qc mod cc =? 0)%N && (qi mod cc =? ci)%N)
         || ((cc mod qc =? 0)%N && (ci mod qc =? qi)%N)
         || incompatibleCounts qc cc,
         negb (incompatibleCounts qc cc)).
Proof.
  intros Hqc Hci.
  assert (Hcc : (0 < cc)%N) by lia.
  assert (Hqc' : (0 < qc)%N) by lia.
  unfold canBlockWithCompactorShardIndexContainQueryShard, incompatibleCounts.
  rewrite !go_rem_pos by assumption. cbn [outcome_bind].
  destruct (N.leb_spec cc qc) as [Hle|Hlt]; cbn [outcome_bind].
  - destruct (N.eqb_spec (qc mod cc) 0) as [Hd|Hd]; cbn [outcome_bind negb andb orb].
    + rewrite orb_false_r. f_equal. f_equal.
      rewrite (N.eqb_sym ci).
      destruct (N.eqb_spec (qi mod cc) ci) as [|Hne]; [reflexivity|].
      cbn [orb]. symmetry. apply andb_false_iff.
      destruct (N.eqb_spec (cc mod qc) 0) as [Hd'|]; [right|left; reflexivity].
      assert (qc = cc) as ->.
      { destruct (N.lt_ge_cases cc qc) as [Hlt|]; [|lia].
        rewrite N.mod_small in Hd' by assumption. lia. }
      apply N.eqb_neq. intros Heq. apply Hne.
      rewrite N.mod_small in Heq by assumption. subst qi.
      apply N.mod_small; assumption.
    + assert (Hlt : (cc < qc)%N).
      { destruct (N.eq_dec cc qc) as [->|]; [|lia].
        rewrite N.Div0.mod_same in Hd. congruence. }
      destruct (N.leb_spec qc cc); [lia|]. cbn [outcome_bind].
      rewrite (N.mod_small cc qc) by assumption.
      destruct (N.eqb_spec cc 0); [lia|]. reflexivity.
  - rewrite (N.mod_small qc cc) by assumption.
    destruct (N.eqb_spec qc 0); [lia|].
    destruct (N.leb_spec qc cc); [|lia]. cbn [outcome_bind negb andb orb].
    destruct (N.eqb_spec (cc mod qc) 0); cbn [outcome_bind negb andb orb].
    + rewrite orb_false_r, (N.eqb_sym qi). reflexivity.
    + reflexivity.
Qed.

Lemma wellFormedShard_lt (b : Block) (ci cc : N) :
  wellFormedShard b = true → compactorShard b = Some (ci, cc) → (ci < cc)%N.
Proof.
  unfold wellFormedShard. intros Hwf Hs. rewrite Hs in Hwf.
  apply N.ltb_lt. exact Hwf.
Qed.

(** The loop invariant: the slice is the blocks kept so far followed by the
    blocks not yet visited, and [ix] is the number of blocks kept. *)
Lemma filterLoop_filter (qi qc : N) (rest : list Block) :
  (1 ≤ qc)%N →
  ∀ (fuel : nat) (kept : list Block) (n : Z),
    (length rest ≤ fuel)%nat →
    wellFormedShards rest = true →
    filterLoop fuel qi qc (kept ++ rest) (length kept) n
    = Ret (kept ++ List.filter (keepRule qi qc) rest,
           n + Z.of_nat (length (List.filter (incompatibleBlock qc) rest))).
Proof.
  intros Hqc. induction rest as [|b rest IH]; intros fuel kept n Hfuel Hwf.
  - rewrite app_nil_r.
    destruct fuel; cbn [filterLoop];
      rewrite lookup_ge_None_2 by lia; cbn; rewrite app_nil_r, Z.add_0_r; reflexivity.
  - destruct fuel as [|fuel]; [cbn in Hfuel; lia|].
    cbn [length] in Hfuel.
    cbn [wellFormedShards forallb] in Hwf. apply andb_true_iff in Hwf as [Hb Hwf].
    assert (Hnext : ∀ m, filterLoop fuel qi qc (kept ++ b :: rest) (S (length kept)) m
              = Ret (kept ++ b :: List.filter (keepRule qi qc) rest,
                     m + Z.of_nat (length (List.filter (incompatibleBlock qc) rest)))).
    { intros m. specialize (IH fuel (kept ++ [b]) m).
      rewrite <- !app_assoc in IH. cbn [app] in IH.
      rewrite length_app in IH. cbn [length] in IH.
      replace (length kept + 1)%nat with (S (length kept)) in IH by lia.
      apply IH; [lia | exact Hwf]. }
    cbn [filterLoop]. rewrite list_lookup_middle by reflexivity.
    cbn [List.filter].
    pose proof (wellFormedShard_lt b) as Hlt.
    destruct (keepRule qi qc b) eqn:Hkb; destruct (incompatibleBlock qc b) eqn:Hib;
      unfold keepRule, incompatibleBlock in Hkb, Hib;
      unfold compactorShard in Hkb, Hib, Hlt;
      (destruct (String.eqb (CompactorShardID b) "");
       [ try discriminate; rewrite Hnext; reflexivity
       | destruct (ParseShardIDLabelValue (CompactorShardID b)) as [[ci cc]|];
         [ | try discriminate; rewrite Hnext; reflexivity ] ]);
      specialize (Hlt ci cc Hb eq_refl);
      rewrite canBlock_rule by assumption; cbn [outcome_bind];
      try (rewrite Hib in Hkb; rewrite orb_true_r in Hkb; discriminate);
      rewrite Hkb, Hib; cbn [negb].
    + rewrite Hnext. cbn [length]. f_equal. f_equal. lia.
    + rewrite Hnext. reflexivity.
    + assert (Hdrop : drop (S (length kept)) (kept ++ b :: rest) = rest).
      { change (b :: rest) with ([b] ++ rest). rewrite app_assoc.
        apply drop_app_length'. rewrite length_app. cbn. lia. }
      rewrite Hdrop, take_app_length.
      apply IH; [lia | exact Hwf].
Qed.

(** C1: for every list of candidate blocks and every query shard with a count
    of at least one, [filterBlocksByShard] returns exactly the input blocks
    that satisfy the keep rule, in input order, and the number of blocks whose
    parsed shard count and the query shard count do not divide each other.
    The rule keeps a block with no shard identifier, and a block whose
    identifier parses as [ci_of_cc] iff [qc mod cc = 0] and [qi mod cc = ci], or
    [cc mod qc = 0] and [ci mod qc = qi], or neither count divides the other.
    A shard that parses has its index below its count, as every shard of the
    data model; a block whose identifier does not parse is kept. *)
Theorem filterBlocksByShard_keep_rule (blocks : list Block) (qi qc : N) :
  (1 ≤ qc)%N →
  wellFormedShards blocks = true →
  filterBlocksByShard blocks qi qc
  = Ret (List.filter (keepRule qi qc) blocks,
         Z.of_nat (length (List.filter (incompatibleBlock qc) blocks))).
Proof.
  intros Hqc Hwf. unfold filterBlocksByShard.
  exact (filterLoop_filter qi qc blocks Hqc (length blocks) [] 0 (Nat.le_refl _) Hwf).
Qed.

Lemma keepRule_single_shard (b : Block) : keepRule 0 1 b = true.
Proof.
  unfold keepRule. destruct (compactorShard b) as [[ci cc]|]; [|reflexivity].
  rewrite !N.mod_1_r. cbn. rewrite orb_true_r. reflexivity.
Qed.

Lemma incompatibleBlock_single_shard (b : Block) : incompatibleBlock 1 b = false.
Proof.
  unfold incompatibleBlock, incompatibleCounts.
  destruct (compactorShard b) as [[ci cc]|]; [|reflexivity].
  rewrite N.mod_1_r. cbn. apply andb_false_r.
Qed.

Lemma filter_all_true {A : Type} (f : A → bool) (l : list A) :
  (∀ x, f x = true) → List.filter f l = l.
Proof.
  intros Hf. induction l as [|x l IH]; cbn; [reflexivity|].
  rewrite Hf, IH. reflexivity.
Qed.

Lemma filter_all_false {A : Type} (f : A → bool) (l : list A) :
  (∀ x, f x = false) → List.filter f l = [].
Proof.
  intros Hf. induction l as [|x l IH]; cbn; [reflexivity|].
  rewrite Hf. exact IH.
Qed.

(** C9: filtering with query shard index 0 of count 1 returns the list
    unchanged, every block kept and in order, and reports no incompatible
    block, the shards that parse having their index below their count. *)
Theorem filterBlocksByShard_single_shard_identity (blocks : list Block) :
  wellFormedShards blocks = true →
  filterBlocksByShard blocks 0 1 = Ret (blocks, 0).
Proof.
  intros Hwf. unfold filterBlocksByShard.
  pose proof (filterLoop_filter 0 1 blocks (N.le_refl 1) (length blocks) [] 0
                (Nat.le_refl _) Hwf) as Hloop.
  cbn [app length] in Hloop. rewrite Hloop.
  rewrite (filter_all_true _ _ keepRule_single_shard).
  rewrite (filter_all_false _ _ incompatibleBlock_single_shard).
  reflexivity.
Qed.

(** C10: a block whose shard identifier is a non-empty string that does not
    parse is kept, at its place among the kept blocks, and adds nothing to the
    returned count of incompatible blocks: that count is the number of blocks
    before and after it whose identifier parses with a count that neither
    divides nor is divided by the query shard count. *)
Theorem filterBlocksByShard_unparsable_kept
    (before after : list Block) (b : Block) (qi qc : N) :
  (1 ≤ qc)%N →
  wellFormedShards (before ++ after) = true →
  CompactorShardID b ≠ "" →
  ParseShardIDLabelValue (CompactorShardID b) = None →
  filterBlocksByShard (before ++ b :: after) qi qc
  = Ret (List.filter (keepRule qi qc) before ++ b :: List.filter (keepRule qi qc) after,
         Z.of_nat (length (List.filter (incompatibleBlock qc) before)
                   + length (List.filter (incompatibleBlock qc) after))).
Proof.
  intros Hqc Hwf Hne Hparse.
  assert (Hshard : compactorShard b = None).
  { unfold compactorShard. rewrite Hparse.
    destruct (String.eqb (CompactorShardID b) ""); reflexivity. }
  assert (Hwf' : wellFormedShards (before ++ b :: after) = true).
  { unfold wellFormedShards in *. rewrite forallb_app in *.
    apply andb_true_iff in Hwf as [H1 H2].
    cbn [forallb]. unfold wellFormedShard at 2. rewrite Hshard, H1, H2. reflexivity. }
  unfold filterBlocksByShard.
  pose proof (filterLoop_filter qi qc _ Hqc _ [] 0 (Nat.le_refl _) Hwf') as Hloop.
  cbn [app length] in Hloop. rewrite Hloop.
  rewrite !List.filter_app. cbn [List.filter].
  unfold keepRule at 2. unfold incompatibleBlock at 2. rewrite Hshard.
  rewrite length_app. reflexivity.
Qed.

End Filter.

(** *** A worked instance

    Four blocks split by the compactor in four, read with the identifier
    [i_of_n] taken as index [i] of count [n], and one block whose identifier
    is not of that form. *)

Definition sampleParse (s : string) : option (N * N) :=
  if String.eqb s "0_of_4" then Some (0, 4)%N
  else if String.eqb s "1_of_4" then Some (1, 4)%N
  else if String.eqb s "2_of_4" then Some (2, 4)%N
  else if String.eqb s "3_of_4" then Some (3, 4)%N
  else if String.eqb s "1_of_3" then Some (1, 3)%N
  else None.

Definition sampleBlock (id : N) (shard : string) : Block :=
  {| ID := id; MinTime := 0; MaxTime := 100; CompactorShardID := shard; UploadedAt := 0 |}.

Definition sampleBlocks : list Block :=
  [ sampleBlock 1 "0_of_4"; sampleBlock 2 "1_of_4"; sampleBlock 3 "2_of_4";
    sampleBlock 4 "3_of_4"; sampleBlock 5 ""; sampleBlock 6 "1_of_3" ].

Lemma filterBlocksByShard_keep_rule_witness :
  filterBlocksByShard sampleParse sampleBlocks 5 8
  = Ret ([ sampleBlock 2 "1_of_4"; sampleBlock 5 ""; sampleBlock 6 "1_of_3" ], 1).
Proof.
  apply (filterBlocksByShard_keep_rule sampleParse sampleBlocks 5 8); [lia | reflexivity].
Defined.

Lemma filterBlocksByShard_single_shard_identity_witness :
  filterBlocksByShard sampleParse sampleBlocks 0 1 = Ret (sampleBlocks, 0).
Proof.
  apply (filterBlocksByShard_single_shard_identity sampleParse sampleBlocks); reflexivity.
Defined.

Lemma filterBlocksByShard_unparsable_kept_witness :
  filterBlocksByShard sampleParse
    ([ sampleBlock 1 "0_of_4"; sampleBlock 6 "1_of_3" ]
       ++ sampleBlock 7 "seven" :: [ sampleBlock 2 "1_of_4" ]) 5 8
  = Ret ([ sampleBlock 6 "1_of_3"; sampleBlock 7 "seven"; sampleBlock 2 "1_of_4" ], 1).
Proof.
  apply (filterBlocksByShard_unparsable_kept sampleParse
           [ sampleBlock 1 "0_of_4"; sampleBlock 6 "1_of_3" ]
           [ sampleBlock 2 "1_of_4" ] (sampleBlock 7 "seven") 5 8);
    [lia | reflexivity | discriminate | reflexivity].
Defined.

(** *** More on the shard test and the filter *)

Lemma mod_mod_multiple (h b k : N) : ((h mod (b * k)) mod b = h mod b)%N.
Proof.
  rewrite N.Div0.mod_mul_r, (N.mul_comm b), N.Div0.mod_add.
  apply N.Div0.mod_mod.
Qed.

(** X1: the test never rules out a block that can hold a series of the query
    shard: if a series hash falls in query shard [qi] of [qc] and in compactor
    shard [ci] of [cc], the test answers that the block may contain it. *)
Theorem canBlock_sound (h qi qc ci cc : N) :
  (0 < qc)%N → (0 < cc)%N →
  (h mod qc = qi)%N → (h mod cc = ci)%N →
  ∃ divisible,
    canBlockWithCompactorShardIndexContainQueryShard qi qc ci cc = Ret (true, divisible).
Proof.
  intros Hqc Hcc Hqi Hci.
  unfold canBlockWithCompactorShardIndexContainQueryShard.
  rewrite !go_rem_pos by assumption. cbn [outcome_bind].
  assert (Hfirst : (qc mod cc = 0)%N → (ci =? qi mod cc)%N = true).
  { intros Hd. apply N.eqb_eq. subst qi ci.
    apply N.Div0.mod_divides in Hd. destruct Hd as [k ->].
    symmetry. apply mod_mod_multiple. }
  assert (Hsecond : (cc mod qc = 0)%N → (qi =? ci mod qc)%N = true).
  { intros Hd. apply N.eqb_eq. subst qi ci.
    apply N.Div0.mod_divides in Hd. destruct Hd as [k ->].
    symmetry. apply mod_mod_multiple. }
  destruct (cc <=? qc)%N; cbn [outcome_bind].
  - destruct (N.eqb_spec (qc mod cc) 0) as [Hd|Hd]; cbn [outcome_bind].
    { rewrite (Hfirst Hd). eauto. }
    destruct (qc <=? cc)%N; cbn [outcome_bind]; [|eauto].
    destruct (N.eqb_spec (cc mod qc) 0) as [Hd'|Hd']; cbn [outcome_bind]; [|eauto].
    rewrite (Hsecond Hd'). eauto.
  - destruct (qc <=? cc)%N; cbn [outcome_bind]; [|eauto].
    destruct (N.eqb_spec (cc mod qc) 0) as [Hd'|Hd']; cbn [outcome_bind]; [|eauto].
    rewrite (Hsecond Hd'). eauto.
Qed.

Lemma canBlock_sound_witness :
  ∃ divisible,
    canBlockWithCompactorShardIndexContainQueryShard 5 8 1 4 = Ret (true, divisible).
Proof.
  apply (canBlock_sound 13 5 8 1 4); (lia || reflexivity).
Defined.

(** X2: the test panics exactly when one of the two shard counts is zero (a
    remainder by zero); otherwise it returns. *)
Theorem canBlock_panics_iff_zero_count (qi qc ci cc : N) :
  canBlockWithCompactorShardIndexContainQueryShard qi qc ci cc = Panic
  ↔ (qc = 0 ∨ cc = 0)%N.
Proof.
  unfold canBlockWithCompactorShardIndexContainQueryShard, go_rem.
  destruct (N.eqb_spec cc 0) as [->|Hcc].
  - destruct (N.leb_spec 0 qc); [|lia]. cbn. split; [auto|reflexivity].
  - destruct (N.eqb_spec qc 0) as [->|Hqc].
    + destruct (N.leb_spec cc 0); [lia|]. destruct (N.leb_spec 0 cc); [|lia].
      cbn. split; [auto|reflexivity].
    + split; [|lia]. intros Hp. exfalso.
      destruct (cc <=? qc)%N; cbn [outcome_bind] in Hp;
        repeat match type of Hp with
               | context [if ?c then _ else _] => destruct c; cbn [outcome_bind] in Hp
               end; discriminate.
Qed.

(** A result that reports counts that do not divide each other keeps the
    block. *)
Lemma canBlock_incompatible_kept (qi qc ci cc : N) (res : bool) :
  canBlockWithCompactorShardIndexContainQueryShard qi qc ci cc = Ret (res, false) →
  res = true.
Proof.
  unfold canBlockWithCompactorShardIndexContainQueryShard, go_rem.
  intros H.
  repeat match type of H with
         | context [if ?c then _ else _] => destruct c; cbn [outcome_bind] in H
         end; congruence.
Qed.

Lemma canBlock_returns_or_panics (qi qc ci cc : N) :
  canBlockWithCompactorShardIndexContainQueryShard qi qc ci cc ≠ NoFuel.
Proof.
  unfold canBlockWithCompactorShardIndexContainQueryShard, go_rem.
  repeat match goal with
         | |- context [if ?c then _ else _] => destruct c; cbn [outcome_bind]
         end; discriminate.
Qed.

Section FilterAnyParser.

Variable ParseShardIDLabelValue : string → option (N * N).

(** The filter block by block: what the loop does with the blocks not yet
    visited, whatever the parser returns. *)
Fixpoint filterRest (qi qc : N) (rest : list Block) : outcome (list Block * Z) :=
  match rest with
  | [] => Ret ([], 0)
  | b :: rest' =>
      let keep :=
        let* r := filterRest qi qc rest' in Ret (b :: r.1, r.2) in
      if String.eqb (CompactorShardID b) "" then keep
      else
        match ParseShardIDLabelValue (CompactorShardID b) with
        | None => keep
        | Some (ci, cc) =>
            let* can := canBlockWithCompactorShardIndexContainQueryShard qi qc ci cc in
            let* r := filterRest qi qc rest' in
            Ret (if can.1 then b :: r.1 else r.1, (if can.2 then 0 else 1) + r.2)
        end
  end.

Lemma filterLoop_rest (qi qc : N) (rest : list Block) :
  ∀ (fuel : nat) (kept : list Block) (n : Z),
    (length rest ≤ fuel)%nat →
    filterLoop ParseShardIDLabelValue fuel qi qc (kept ++ rest) (length kept) n
    = let* r := filterRest qi qc rest in Ret (kept ++ r.1, n + r.2).
Proof.
  induction rest as [|b rest IH]; intros fuel kept n Hfuel.
  - rewrite app_nil_r.
    destruct fuel; cbn [filterLoop];
      rewrite lookup_ge_None_2 by lia; cbn; rewrite app_nil_r, Z.add_0_r; reflexivity.
  - destruct fuel as [|fuel]; [cbn in Hfuel; lia|]. cbn [length] in Hfuel.
    assert (Hnext : ∀ m, filterLoop ParseShardIDLabelValue fuel qi qc (kept ++ b :: rest)
                           (S (length kept)) m
              = let* r := filterRest qi qc rest in Ret (kept ++ b :: r.1, m + r.2)).
    { intros m. specialize (IH fuel (kept ++ [b]) m).
      rewrite <- !app_assoc in IH. cbn [app] in IH.
      rewrite length_app in IH. cbn [length] in IH.
      replace (length kept + 1)%nat with (S (length kept)) in IH by lia.
      rewrite IH by lia. destruct (filterRest qi qc rest) as [[k m']| |]; cbn;
        rewrite <- ?app_assoc; reflexivity. }
    assert (Hdrop : drop (S (length kept)) (kept ++ b :: rest) = rest).
    { change (b :: rest) with ([b] ++ rest). rewrite app_assoc.
      apply drop_app_length'. rewrite length_app. cbn. lia. }
    cbn [filterLoop filterRest]. rewrite list_lookup_middle by reflexivity.
    destruct (String.eqb (CompactorShardID b) "").
    { rewrite Hnext. destruct (filterRest qi qc rest) as [[k m']| |]; reflexivity. }
    destruct (ParseShardIDLabelValue (CompactorShardID b)) as [[ci cc]|].
    2:{ rewrite Hnext. destruct (filterRest qi qc rest) as [[k m']| |]; reflexivity. }
    destruct (canBlockWithCompactorShardIndexContainQueryShard qi qc ci cc)
      as [[res divisible]| |]; cbn [outcome_bind fst snd]; try reflexivity.
    destruct res.
    + rewrite Hnext. destruct (filterRest qi qc rest) as [[k m']| |]; cbn; [|reflexivity..].
      f_equal. f_equal. destruct divisible; lia.
    + rewrite Hdrop, take_app_length, IH by lia.
      destruct (filterRest qi qc rest) as [[k m']| |]; cbn; [|reflexivity..].
      f_equal. f_equal. destruct divisible; lia.
Qed.

Lemma filterBlocksByShard_rest (blocks : list Block) (qi qc : N) :
  filterBlocksByShard ParseShardIDLabelValue blocks qi qc = filterRest qi qc blocks.
Proof.
  unfold filterBlocksByShard.
  pose proof (filterLoop_rest qi qc blocks (length blocks) [] 0 (Nat.le_refl _)) as H.
  cbn [app length] in H. rewrite H.
  destruct (filterRest qi qc blocks) as [[k n]| |]; reflexivity.
Qed.

Lemma filterRest_app (qi qc : N) (a b : list Block) :
  filterRest qi qc (a ++ b)
  = let* ra := filterRest qi qc a in
    let* rb := filterRest qi qc b in
    Ret (ra.1 ++ rb.1, ra.2 + rb.2).
Proof.
  induction a as [|x a IH]; cbn [app filterRest].
  - cbn. destruct (filterRest qi qc b) as [[k n]| |]; reflexivity.
  - destruct (String.eqb (CompactorShardID x) "");
      [|destruct (ParseShardIDLabelValue (CompactorShardID x)) as [[ci cc]|];
        [destruct (canBlockWithCompactorShardIndexContainQueryShard qi qc ci cc)
           as [[res divisible]| |]; cbn [outcome_bind fst snd]; try reflexivity|]];
      rewrite IH;
      destruct (filterRest qi qc a) as [[ka na]| |]; cbn [outcome_bind fst snd];
        try reflexivity;
      destruct (filterRest qi qc b) as [[kb nb]| |]; cbn [outcome_bind fst snd];
        try reflexivity.
    + f_equal. f_equal; [destruct res; reflexivity | lia].
Qed.

(** X3: filtering a list in two parts gives the same as filtering it whole:
    the kept blocks are appended and the counts of incompatible blocks added,
    and a panic in either part is a panic of the whole. *)
Theorem filterBlocksByShard_app (a b : list Block) (qi qc : N) :
  filterBlocksByShard ParseShardIDLabelValue (a ++ b) qi qc
  = let* ra := filterBlocksByShard ParseShardIDLabelValue a qi qc in
    let* rb := filterBlocksByShard ParseShardIDLabelValue b qi qc in
    Ret (ra.1 ++ rb.1, ra.2 + rb.2).
Proof. rewrite !filterBlocksByShard_rest. apply filterRest_app. Qed.

Lemma filterRest_kept (qi qc : N) (rest : list Block) :
  filterRest qi qc rest ≠ NoFuel
  ∧ ∀ kept n, filterRest qi qc rest = Ret (kept, n) →
      kept `sublist_of` rest ∧ 0 ≤ n ≤ Z.of_nat (length kept).
Proof.
  induction rest as [|b rest [IHfuel IH]]; cbn [filterRest].
  { split; [discriminate|]. intros kept n [= <- <-]. split; [constructor | cbn; lia]. }
  assert (Hkeep : (let* r := filterRest qi qc rest in Ret (b :: r.1, r.2)) ≠ NoFuel
            ∧ ∀ kept n, (let* r := filterRest qi qc rest in Ret (b :: r.1, r.2))
                        = Ret (kept, n) →
                kept `sublist_of` b :: rest ∧ 0 ≤ n ≤ Z.of_nat (length kept)).
  { destruct (filterRest qi qc rest) as [[k m]| |]; cbn [outcome_bind fst snd].
    - split; [discriminate|]. intros kept n [= <- <-].
      destruct (IH k m eq_refl) as [Hsub Hn].
      split; [constructor; exact Hsub | cbn [length]; lia].
    - split; discriminate.
    - destruct IHfuel. reflexivity. }
  destruct (String.eqb (CompactorShardID b) ""); [exact Hkeep|].
  destruct (ParseShardIDLabelValue (CompactorShardID b)) as [[ci cc]|]; [|exact Hkeep].
  pose proof (canBlock_returns_or_panics qi qc ci cc) as Hcan.
  pose proof (canBlock_incompatible_kept qi qc ci cc) as Hinc.
  destruct (canBlockWithCompactorShardIndexContainQueryShard qi qc ci cc)
    as [[res divisible]| |]; cbn [outcome_bind fst snd];
    [|split; discriminate|destruct Hcan; reflexivity].
  destruct (filterRest qi qc rest) as [[k m]| |]; cbn [outcome_bind fst snd];
    [|split; discriminate|destruct IHfuel; reflexivity].
  split; [discriminate|]. intros kept n [= <- <-].
  destruct (IH k m eq_refl) as [Hsub Hn].
  destruct divisible.
  - destruct res; (split; [constructor; exact Hsub | cbn [length]; lia]).
  - rewrite (Hinc res eq_refl). split; [constructor; exact Hsub | cbn [length]; lia].
Qed.

(** X4: whatever the parser returns, the loop of the filter ends within as
    many turns as there are blocks; when it returns, the blocks kept are a
    subsequence of the blocks given, and the blocks counted as incompatible
    are among the kept ones: the count is between zero and the number
    kept. *)
Theorem filterBlocksByShard_subsequence (blocks : list Block) (qi qc : N) :
  filterBlocksByShard ParseShardIDLabelValue blocks qi qc ≠ NoFuel
  ∧ ∀ kept n,
      filterBlocksByShard ParseShardIDLabelValue blocks qi qc = Ret (kept, n) →
      kept `sublist_of` blocks
      ∧ (length kept ≤ length blocks)%nat
      ∧ 0 ≤ n ≤ Z.of_nat (length kept).
Proof.
  rewrite filterBlocksByShard_rest.
  destruct (filterRest_kept qi qc blocks) as [Hfuel Hkept].
  split; [exact Hfuel|]. intros kept n Hret.
  destruct (Hkept kept n Hret) as [Hsub Hn].
  split; [exact Hsub|]. split; [apply sublist_length, Hsub | exact Hn].
Qed.

Lemma wellFormedShards_filter (f : Block → bool) (blocks : list Block) :
  wellFormedShards ParseShardIDLabelValue blocks = true →
  wellFormedShards ParseShardIDLabelValue (List.filter f blocks) = true.
Proof.
  unfold wellFormedShards. induction blocks as [|b blocks IH]; [reflexivity|].
  cbn [forallb List.filter]. intros [Hb Hwf]%andb_true_iff.
  destruct (f b); cbn [forallb]; [rewrite Hb|]; auto.
Qed.

Lemma filter_filter_same {A : Type} (f : A → bool) (l : list A) :
  List.filter f (List.filter f l) = List.filter f l.
Proof.
  induction l as [|x l IH]; [reflexivity|]. cbn [List.filter].
  destruct (f x) eqn:Hx; [|exact IH]. cbn [List.filter]. rewrite Hx, IH. reflexivity.
Qed.

Lemma filter_incompatible_kept (qi qc : N) (blocks : list Block) :
  List.filter (incompatibleBlock ParseShardIDLabelValue qc)
    (List.filter (keepRule ParseShardIDLabelValue qi qc) blocks)
  = List.filter (incompatibleBlock ParseShardIDLabelValue qc) blocks.
Proof.
  induction blocks as [|b blocks IH]; [reflexivity|]. cbn [List.filter].
  destruct (keepRule ParseShardIDLabelValue qi qc b) eqn:Hk; cbn [List.filter];
    rewrite IH; [reflexivity|].
  unfold keepRule, incompatibleBlock in *.
  destruct (compactorShard ParseShardIDLabelValue b) as [[ci cc]|]; [|reflexivity].
  apply orb_false_iff in Hk as [_ ->]. reflexivity.
Qed.

(** X5: filtering what the filter returned changes nothing: the same blocks
    are kept and the same number is counted as incompatible. *)
Theorem filterBlocksByShard_idempotent (blocks kept : list Block) (qi qc : N) (n : Z) :
  (1 ≤ qc)%N →
  wellFormedShards ParseShardIDLabelValue blocks = true →
  filterBlocksByShard ParseShardIDLabelValue blocks qi qc = Ret (kept, n) →
  filterBlocksByShard ParseShardIDLabelValue kept qi qc = Ret (kept, n).
Proof.
  intros Hqc Hwf. unfold filterBlocksByShard.
  pose proof (filterLoop_filter ParseShardIDLabelValue qi qc blocks Hqc
                (length blocks) [] 0 (Nat.le_refl _) Hwf) as Hloop.
  cbn [app length] in Hloop. rewrite Hloop. intros [= <- <-].
  pose proof (filterLoop_filter ParseShardIDLabelValue qi qc
                (List.filter (keepRule ParseShardIDLabelValue qi qc) blocks) Hqc
                _ [] 0 (Nat.le_refl _) (wellFormedShards_filter _ _ Hwf)) as Hagain.
  cbn [app length] in Hagain. rewrite Hagain.
  rewrite filter_filter_same, filter_incompatible_kept. reflexivity.
Qed.

End FilterAnyParser.

Lemma filterBlocksByShard_idempotent_witness :
  filterBlocksByShard sampleParse
    [ sampleBlock 2 "1_of_4"; sampleBlock 5 ""; sampleBlock 6 "1_of_3" ] 5 8
  = Ret ([ sampleBlock 2 "1_of_4"; sampleBlock 5 ""; sampleBlock 6 "1_of_3" ], 1).
Proof.
  apply (filterBlocksByShard_idempotent sampleParse sampleBlocks _ 5 8 1);
    [lia | reflexivity | vm_compute; reflexivity].
Defined.
End ShardFilter.

(** ** Ruler: ownership of a rule group *)

Module Ruler.

(** [rulespb.RuleGroupDesc], with the fields the token is computed from. *)
Record RuleGroupDesc : Type := mkRuleGroupDesc {
  User : string;
  Namespace : string;
  Name : string
}.

(** [ring.InstanceDesc] and [ring.ReplicationSet]. *)
Record InstanceDesc : Type := mkInstanceDesc {
  Addr : string;
  InstanceID : string
}.

Record ReplicationSet : Type := mkReplicationSet {
  Instances : list InstanceDesc
}.

(** Errors: one returned by the ring, or one wrapped with a message by
    [errors.Wrap]. *)
Inductive error (E : Type) : Type :=
| Cause (e : E)
| Wrap (e : error E) (msg : string).

Arguments Cause {E} e.
Arguments Wrap {E} e msg.

(** The bytes of a Go string. *)
Definition bytesOf (s : string) : list Byte.byte := list_byte_of_string s.

(** *** 32-bit FNV-1a ([hash/fnv]) *)

Definition offset32 : Z := 2166136261.
Definition prime32 : Z := 16777619.

(** One byte: xor into the state, then multiply, on 32 bits. *)
Definition fnvStep (hash : Z) (c : Byte.byte) : Z :=
  (Z.lxor hash (Z.of_N (Byte.to_N c)) * prime32) mod 2 ^ 32.

(** [Write]: the state after hashing [data]. *)
Definition fnvWrite (hash : Z) (data : list Byte.byte) : Z :=
  fold_left fnvStep data hash.

(** The hash of a whole byte string. *)
Definition fnv32a (data : list Byte.byte) : Z := fnvWrite offset32 data.

Definition sep : list Byte.byte := bytesOf "/".

(** [tokenForGroup]: five writes into a fresh hasher, then [Sum32]. *)
Definition tokenForGroup (g : RuleGroupDesc) : Z :=
  let ringHasher := offset32 in
  let ringHasher := fnvWrite ringHasher (bytesOf (User g)) in
  let ringHasher := fnvWrite ringHasher sep in
  let ringHasher := fnvWrite ringHasher (bytesOf (Namespace g)) in
  let ringHasher := fnvWrite ringHasher sep in
  let ringHasher := fnvWrite ringHasher (bytesOf (Name g)) in
  ringHasher.

Section Ownership.

(** Errors of the ring, and the ring itself: [r.Get(hash, RingOp, nil, nil,
    nil)] as a function of the token. *)
Variable E : Type.
Variable Get : Z → E + ReplicationSet.

(** [instanceOwnsRuleGroup]: the pair [(owned, err)].  Indexing
    [rlrs.Instances[0]] panics on an empty replication set. *)
Definition instanceOwnsRuleGroup (g : RuleGroupDesc) (instanceAddr : string)
    : outcome (bool * option (error E)) :=
  let hash := tokenForGroup g in
  match Get hash with
  | inl err =>
      Ret (false, Some (Wrap (Cause err) "error reading ring to verify rule group ownership"))
  | inr rlrs =>
      match Instances rlrs !! 0%nat with
      | None => Panic
      | Some first => Ret (String.eqb (Addr first) instanceAddr, None)
      end
  end.

(** *** Proofs *)

Lemma fnvWrite_app (hash : Z) (a b : list Byte.byte) :
  fnvWrite hash (a ++ b) = fnvWrite (fnvWrite hash a) b.
Proof. unfold fnvWrite. apply fold_left_app. Qed.

Lemma bytesOf_append (s t : string) : bytesOf (s ++ t) = bytesOf s ++ bytesOf t.
Proof.
  unfold bytesOf, list_byte_of_string.
  induction s as [|c s IH]; cbn; [reflexivity|].
  rewrite <- IH. reflexivity.
Qed.

(** The token is the hash of the three names joined by a slash. *)
Lemma tokenForGroup_fnv32a (g : RuleGroupDesc) :
  tokenForGroup g
  = fnv32a (bytesOf (User g ++ "/" ++ Namespace g ++ "/" ++ Name g)).
Proof.
  unfold tokenForGroup, fnv32a, sep.
  rewrite !bytesOf_append, !fnvWrite_app. reflexivity.
Qed.

(** The hash is a 32-bit value. *)
Lemma fnv32a_range (data : list Byte.byte) : 0 ≤ fnv32a data < 2 ^ 32.
Proof.
  unfold fnv32a, fnvWrite. rewrite <- fold_left_rev_right.
  destruct (rev data) as [|c l]; cbn [fold_right].
  - unfold offset32. lia.
  - unfold fnvStep. apply Z.mod_pos_bound. lia.
Qed.

(** C7: a rule group is owned by a replica iff the first instance of the
    replication set that the ring returns for the token
    [fnv32a(tenant + "/" + namespace + "/" + name)] has this replica's
    address. *)
Theorem instanceOwnsRuleGroup_primary (g : RuleGroupDesc) (instanceAddr : string) :
  instanceOwnsRuleGroup g instanceAddr = Ret (true, None)
  ↔ ∃ (rlrs : ReplicationSet) (first : InstanceDesc),
      Get (fnv32a (bytesOf (User g ++ "/" ++ Namespace g ++ "/" ++ Name g))) = inr rlrs
      ∧ head (Instances rlrs) = Some first
      ∧ Addr first = instanceAddr.
Proof.
  unfold instanceOwnsRuleGroup. rewrite tokenForGroup_fnv32a.
  set (token := fnv32a _).
  split.
  - destruct (Get token) as [err|rlrs]; [discriminate|].
    destruct (Instances rlrs) as [|first rest] eqn:Hinst; cbn; [discriminate|].
    intros Hret. exists rlrs, first. rewrite Hinst.
    split; [reflexivity|]. split; [reflexivity|].
    apply String.eqb_eq. congruence.
  - intros (rlrs & first & Hget & Hhead & Haddr).
    rewrite Hget. destruct (Instances rlrs) as [|first' rest]; [discriminate|].
    cbn in Hhead. injection Hhead as ->. cbn.
    rewrite (proj2 (String.eqb_eq _ _) Haddr). reflexivity.
Qed.

End Ownership.

(** The token of a group, computed. *)
Example tokenForGroup_computed :
  tokenForGroup (mkRuleGroupDesc "tenant-1" "alerts" "cpu")
  = fnv32a (bytesOf "tenant-1/alerts/cpu")
  ∧ tokenForGroup (mkRuleGroupDesc "tenant-1" "alerts" "cpu") = 2356780982.
Proof. vm_compute. split; reflexivity. Qed.

(** The published test vectors of the hash. *)
Example fnv32a_empty : fnv32a (bytesOf "") = 0x811c9dc5.
Proof. reflexivity. Qed.

Example fnv32a_a : fnv32a (bytesOf "a") = 0xe40c292c.
Proof. vm_compute. reflexivity. Qed.

Example fnv32a_foobar : fnv32a (bytesOf "foobar") = 0xbf9cf968.
Proof. vm_compute. reflexivity. Qed.

(** *** Pruning the rule groups of a replica *)

Section Filtering.

Variable E : Type.
Variable Get : Z → E + ReplicationSet.

(** The loop of [filterRuleGroups] over the groups left, with the slice
    [result] built so far and the number of increments of the counter
    [ringCheckErrors].  The log lines are left out. *)
Fixpoint filterRuleGroupsLoop (ruleGroups : list RuleGroupDesc) (instanceAddr : string)
    (result : list RuleGroupDesc) (ringCheckErrors : nat)
    : outcome (list RuleGroupDesc * nat) :=
  match ruleGroups with
  | [] => Ret (result, ringCheckErrors)
  | g :: ruleGroups =>
      let* r := instanceOwnsRuleGroup E Get g instanceAddr in
      match r.2 with
      | Some err =>
          filterRuleGroupsLoop ruleGroups instanceAddr result (S ringCheckErrors)
      | None =>
          if r.1
          then filterRuleGroupsLoop ruleGroups instanceAddr (result ++ [g]) ringCheckErrors
          else filterRuleGroupsLoop ruleGroups instanceAddr result ringCheckErrors
      end
  end.

(** [filterRuleGroups]: the groups owned, and by how much the counter of
    failed ring checks has grown. *)
Definition filterRuleGroups (ruleGroups : list RuleGroupDesc) (instanceAddr : string)
    : outcome (list RuleGroupDesc * nat) :=
  filterRuleGroupsLoop ruleGroups instanceAddr [] 0%nat.

(** The ring answers the lookup of the group's token with an error. *)
Definition lookupFails (g : RuleGroupDesc) : bool :=
  match Get (tokenForGroup g) with inl _ => true | inr _ => false end.

(** The ring answers with a replication set without instances. *)
Definition lookupEmpty (g : RuleGroupDesc) : bool :=
  match Get (tokenForGroup g) with
  | inl _ => false
  | inr rlrs => match Instances rlrs with [] => true | _ => false end
  end.

(** The first instance the ring answers with has the address given. *)
Definition primaryAt (instanceAddr : string) (g : RuleGroupDesc) : bool :=
  match Get (tokenForGroup g) with
  | inl _ => false
  | inr rlrs =>
      match Instances rlrs with
      | [] => false
      | first :: _ => String.eqb (Addr first) instanceAddr
      end
  end.

Lemma filterRuleGroupsLoop_no_empty (ruleGroups : list RuleGroupDesc) (instanceAddr : string) :
  forallb (λ g, negb (lookupEmpty g)) ruleGroups = true →
  ∀ result n,
    filterRuleGroupsLoop ruleGroups instanceAddr result n
    = Ret (result ++ List.filter (primaryAt instanceAddr) ruleGroups,
           (n + length (List.filter lookupFails ruleGroups))%nat).
Proof.
  induction ruleGroups as [|g ruleGroups IH]; intros Hall result n.
  - cbn. rewrite app_nil_r, Nat.add_0_r. reflexivity.
  - cbn [forallb] in Hall. apply andb_true_iff in Hall as [Hg Hall].
    cbn [filterRuleGroupsLoop List.filter].
    unfold instanceOwnsRuleGroup, lookupEmpty, lookupFails, primaryAt in *.
    destruct (Get (tokenForGroup g)) as [err|rlrs]; cbn [outcome_bind fst snd].
    + rewrite IH by exact Hall. cbn [length]. f_equal. f_equal. lia.
    + destruct (Instances rlrs) as [|first rest]; [discriminate|]. cbn.
      destruct (String.eqb (Addr first) instanceAddr); rewrite IH by exact Hall;
        rewrite <- ?app_assoc; reflexivity.
Qed.

Lemma filterRuleGroupsLoop_panics (ruleGroups : list RuleGroupDesc) (instanceAddr : string) :
  ∀ result n,
    filterRuleGroupsLoop ruleGroups instanceAddr result n = Panic
    ↔ existsb lookupEmpty ruleGroups = true.
Proof.
  induction ruleGroups as [|g ruleGroups IH]; intros result n.
  - cbn. split; discriminate.
  - cbn [filterRuleGroupsLoop existsb].
    unfold instanceOwnsRuleGroup, lookupEmpty at 1.
    destruct (Get (tokenForGroup g)) as [err|rlrs]; cbn [outcome_bind fst snd orb].
    + apply IH.
    + destruct (Instances rlrs) as [|first rest]; cbn; [split; reflexivity|].
      destruct (String.eqb (Addr first) instanceAddr); apply IH.
Qed.

(** X6: when the ring answers no lookup with an empty replication set, the
    groups returned are exactly the groups whose first instance has the
    replica's address, in the order given; a group whose lookup failed is
    left out, and the counter of failed ring checks grows by one for each
    such group. *)
Theorem filterRuleGroups_owned (ruleGroups : list RuleGroupDesc) (instanceAddr : string) :
  forallb (λ g, negb (lookupEmpty g)) ruleGroups = true →
  filterRuleGroups ruleGroups instanceAddr
  = Ret (List.filter (primaryAt instanceAddr) ruleGroups,
         length (List.filter lookupFails ruleGroups)).
Proof.
  intros Hall. unfold filterRuleGroups.
  rewrite filterRuleGroupsLoop_no_empty by exact Hall. reflexivity.
Qed.

(** X7: pruning panics exactly when the ring answers the lookup of one of the
    groups with a replication set that has no instance; a lookup that fails
    never makes it panic. *)
Theorem filterRuleGroups_panics_iff (ruleGroups : list RuleGroupDesc) (instanceAddr : string) :
  filterRuleGroups ruleGroups instanceAddr = Panic
  ↔ ∃ g rlrs, In g ruleGroups ∧ Get (tokenForGroup g) = inr rlrs ∧ Instances rlrs = [].
Proof.
  unfold filterRuleGroups. rewrite filterRuleGroupsLoop_panics, existsb_exists.
  split.
  - intros (g & Hin & Hempty). unfold lookupEmpty in Hempty.
    destruct (Get (tokenForGroup g)) as [err|rlrs] eqn:Hget; [discriminate|].
    destruct (Instances rlrs) eqn:Hinst; [|discriminate]. eauto.
  - intros (g & rlrs & Hin & Hget & Hinst). exists g. split; [exact Hin|].
    unfold lookupEmpty. rewrite Hget, Hinst. reflexivity.
Qed.

(** X8: the token is computed from the three names joined by slashes only:
    two groups whose joined names are the same string have the same token,
    so the ring gives them the same owner, also when they differ in
    namespace and name. *)
Theorem instanceOwnsRuleGroup_joined_names (g g' : RuleGroupDesc) (instanceAddr : string) :
  (User g ++ "/" ++ Namespace g ++ "/" ++ Name g
   = User g' ++ "/" ++ Namespace g' ++ "/" ++ Name g')%string →
  tokenForGroup g = tokenForGroup g'
  ∧ instanceOwnsRuleGroup E Get g instanceAddr = instanceOwnsRuleGroup E Get g' instanceAddr.
Proof.
  intros Hjoined.
  assert (Htoken : tokenForGroup g = tokenForGroup g')
    by (rewrite !tokenForGroup_fnv32a, Hjoined; reflexivity).
  split; [exact Htoken|]. unfold instanceOwnsRuleGroup. rewrite Htoken. reflexivity.
Qed.

End Filtering.

(** A ring of two replicas: tokens below 2^31 belong to the first. *)
Definition demoRing (hash : Z) : unit + ReplicationSet :=
  if hash <? 2 ^ 31
  then inr (mkReplicationSet [mkInstanceDesc "ruler-1:9095" "ruler-1"])
  else inr (mkReplicationSet [mkInstanceDesc "ruler-2:9095" "ruler-2"]).

Definition demoGroups : list RuleGroupDesc :=
  [ mkRuleGroupDesc "tenant-1" "alerts" "cpu";
    mkRuleGroupDesc "tenant-1" "alerts" "disk";
    mkRuleGroupDesc "tenant-1" "records" "rates" ].

Lemma filterRuleGroups_owned_witness :
  filterRuleGroups unit demoRing demoGroups "ruler-2:9095"
  = Ret (List.filter (primaryAt unit demoRing "ruler-2:9095") demoGroups,
         length (List.filter (lookupFails unit demoRing) demoGroups)).
Proof. apply (filterRuleGroups_owned unit demoRing demoGroups); vm_compute; reflexivity. Defined.

Lemma instanceOwnsRuleGroup_joined_names_witness :
  mkRuleGroupDesc "tenant-1" "team/alerts" "cpu" ≠ mkRuleGroupDesc "tenant-1" "team" "alerts/cpu"
  ∧ tokenForGroup (mkRuleGroupDesc "tenant-1" "team/alerts" "cpu")
    = tokenForGroup (mkRuleGroupDesc "tenant-1" "team" "alerts/cpu")
  ∧ instanceOwnsRuleGroup unit demoRing (mkRuleGroupDesc "tenant-1" "team/alerts" "cpu")
      "ruler-1:9095"
    = instanceOwnsRuleGroup unit demoRing (mkRuleGroupDesc "tenant-1" "team" "alerts/cpu")
      "ruler-1:9095".
Proof.
  split; [discriminate|].
  apply (instanceOwnsRuleGroup_joined_names unit demoRing
           (mkRuleGroupDesc "tenant-1" "team/alerts" "cpu")
           (mkRuleGroupDesc "tenant-1" "team" "alerts/cpu")).
  reflexivity.
Defined.
(** *** Handing alerts to the notifier *)

Section Alerts.

(** [time.Time] with its [IsZero], label sets, and
    [strutil.TableLinkForExpression] of Prometheus. *)
Context {Time LabelSet : Type}.
Variable IsZero : Time → bool.
Variable TableLinkForExpression : string → string.

(** [promRules.Alert], with the fields read. *)
Record RuleAlert : Type := mkRuleAlert {
  Labels : LabelSet;
  Annotations : LabelSet;
  FiredAt : Time;
  ResolvedAt : Time;
  ValidUntil : Time
}.

(** [notifier.Alert]. *)
Record NotifierAlert : Type := mkNotifierAlert {
  NLabels : LabelSet;
  NAnnotations : LabelSet;
  StartsAt : Time;
  EndsAt : Time;
  GeneratorURL : string
}.

(** The body of the loop of [SendAlerts]: the notifier's alert made from one
    alert of the rule. *)
Definition convertAlert (externalURL expr : string) (alert : RuleAlert) : NotifierAlert :=
  let a := {| StartsAt := FiredAt alert;
              NLabels := Labels alert;
              NAnnotations := Annotations alert;
              GeneratorURL := externalURL ++ TableLinkForExpression expr;
              EndsAt := ValidUntil alert |} in
  if negb (IsZero (ResolvedAt alert))
  then {| StartsAt := StartsAt a; NLabels := NLabels a; NAnnotations := NAnnotations a;
          GeneratorURL := GeneratorURL a; EndsAt := ResolvedAt alert |}
  else a.

(** [SendAlerts]: the calls of [n.Send] made by the function returned, each
    with the alerts it is given. *)
Definition SendAlerts (externalURL expr : string) (alerts : list RuleAlert)
    : list (list NotifierAlert) :=
  let res := fold_left (λ res alert, res ++ [convertAlert externalURL expr alert]) alerts [] in
  if (0 <? length alerts)%nat then [res] else [].

Lemma SendAlerts_loop (externalURL expr : string) (alerts : list RuleAlert) :
  ∀ res,
    fold_left (λ res alert, res ++ [convertAlert externalURL expr alert]) alerts res
    = res ++ map (convertAlert externalURL expr) alerts.
Proof.
  induction alerts as [|alert alerts IH]; intros res; cbn.
  - rewrite app_nil_r. reflexivity.
  - rewrite IH, <- app_assoc. reflexivity.
Qed.

(** X9: the notifier is called at most once and never with an empty batch;
    when it is called, no alert has been filtered out: the batch has one
    alert for each alert given, in the same order, resolved or not, with the
    alert's labels, starting when the alert fired and ending when it was
    resolved, or, for an alert not resolved, at the time until which it is
    valid. *)
Theorem SendAlerts_forwards_every_alert (externalURL expr : string)
    (alerts : list RuleAlert) :
  (alerts = [] → SendAlerts externalURL expr alerts = [])
  ∧ (alerts ≠ [] →
     ∃ batch,
       SendAlerts externalURL expr alerts = [batch]
       ∧ length batch = length alerts
       ∧ ∀ i alert, alerts !! i = Some alert →
           ∃ a, batch !! i = Some a
                ∧ NLabels a = Labels alert
                ∧ StartsAt a = FiredAt alert
                ∧ EndsAt a = (if IsZero (ResolvedAt alert)
                              then ValidUntil alert else ResolvedAt alert)).
Proof.
  split; [intros ->; reflexivity|]. intros Hne.
  exists (map (convertAlert externalURL expr) alerts).
  unfold SendAlerts. rewrite SendAlerts_loop. cbn [app].
  destruct alerts as [|alert0 alerts]; [congruence|].
  split; [reflexivity|]. split; [apply length_map|].
  intros i alert Hi. exists (convertAlert externalURL expr alert).
  rewrite list_lookup_fmap, Hi. split; [reflexivity|].
  unfold convertAlert. destruct (IsZero (ResolvedAt alert)); cbn; auto.
Qed.

End Alerts.

(** Two alerts of one rule, times in seconds, zero for the zero time: the
    first is resolved, the second is firing. *)
Definition demoAlerts : list (@RuleAlert Z string) :=
  [ mkRuleAlert "cpu" "high" 100 160 400; mkRuleAlert "disk" "full" 120 0 420 ].

Lemma SendAlerts_forwards_every_alert_witness :
  ∃ batch,
    SendAlerts (Z.eqb 0) (λ expr, "/graph?g0.expr=" ++ expr)%string
      "http://ruler" "up" demoAlerts = [batch]
    ∧ length batch = 2%nat
    ∧ ∀ i alert, demoAlerts !! i = Some alert →
        ∃ a, batch !! i = Some a
             ∧ NLabels a = Labels alert
             ∧ StartsAt a = FiredAt alert
             ∧ EndsAt a = (if 0 =? ResolvedAt alert then ValidUntil alert else ResolvedAt alert).
Proof.
  apply (proj2 (SendAlerts_forwards_every_alert (Z.eqb 0)
                  (λ expr, "/graph?g0.expr=" ++ expr)%string "http://ruler" "up" demoAlerts)).
  discriminate.
Defined.
End Ruler.

(** ** Fan-out query coordinator *)

Module Querier.

(** The maximum number of times missing blocks are fetched from different
    store-gateways. *)
Definition maxFetchSeriesAttempts : Z := 3.

(** Modelled from the spec: [math.Min64] of [pkg/util/math] is missing from
    the source files covered; the specification reads
    [math.Min64(maxT, x)] as [min(maxT, x)]. *)
Definition Min64 (a b : Z) : Z := Z.min a b.

(** Modelled from the spec: [bucketindex.Blocks.GetULIDs] is missing from the
    source files covered; the specification reads it as [expected.IDs()],
    the identifiers of the blocks in order. *)
Definition GetULIDs (blocks : list Block) : list ULID := map ID blocks.

(** Errors a request ends with: one handed over unchanged from a
    collaborator, or the failed consistency check with the blocks that were
    not queried. *)
Inductive QueryError (Err : Type) : Type :=
| Upstream (e : Err)
| StoreConsistencyCheckFailed (remainingBlocks : list ULID).

Arguments Upstream {Err} e.
Arguments StoreConsistencyCheckFailed {Err} remainingBlocks.

(** What the coordinator does that its surroundings can see: calls to its
    collaborators, with what they were given and what they answered, and
    observations on its metrics. *)
Inductive Event (Err Client : Type) : Type :=
| EvGetBlocks (minT maxT : Z)
| EvGetClientsFor (attempt : Z) (blockIDs : list ULID)
    (exclude : gmap ULID (list string)) (res : Err + list (Client * list ULID))
| EvQueryFunc (attempt : Z) (clients : list (Client * list ULID)) (minT maxT : Z)
    (res : Err + list ULID)
| EvCheck (queriedBlocks missingBlocks : list ULID)
| EvStoresHit (n : Z)
| EvRefetches (n : Z)
| EvBlocksFound (n : Z)
| EvIncompatibleQueryShard (n : Z)
| EvBlocksQueried (n : Z).

Arguments EvGetBlocks {Err Client} minT maxT.
Arguments EvGetClientsFor {Err Client} attempt blockIDs exclude res.
Arguments EvQueryFunc {Err Client} attempt clients minT maxT res.
Arguments EvCheck {Err Client} queriedBlocks missingBlocks.
Arguments EvStoresHit {Err Client} n.
Arguments EvRefetches {Err Client} n.
Arguments EvBlocksFound {Err Client} n.
Arguments EvIncompatibleQueryShard {Err Client} n.
Arguments EvBlocksQueried {Err Client} n.

(** The variables of the retry loop. *)
Record LoopState : Type := mkLoopState {
  remainingBlocks : list ULID;
  attemptedBlocks : gmap ULID (list string);
  touchedStores : gset string;
  resQueriedBlocks : list ULID
}.

(** A finished call: the state its collaborators are left in, what it did, the
    map of attempted blocks as it stands at the return (empty when the call
    returns before the loop), and the error returned ([None] for [nil]). *)
Record Run (W Err Client : Type) : Type := mkRun {
  runWorld : W;
  runEvents : list (Event Err Client);
  runAttempted : gmap ULID (list string);
  runResult : outcome (option (QueryError Err))
}.

Arguments mkRun {W Err Client} runWorld runEvents runAttempted runResult.
Arguments runWorld {W Err Client} r.
Arguments runEvents {W Err Client} r.
Arguments runAttempted {W Err Client} r.
Arguments runResult {W Err Client} r.

Definition emit {W Err Client : Type} (ev : Event Err Client) (r : Run W Err Client)
    : Run W Err Client :=
  mkRun (runWorld r) (ev :: runEvents r) (runAttempted r) (runResult r).

(** [attemptedBlocks[blockID] = append(attemptedBlocks[blockID], addr)]; a key
    that is absent reads as the empty slice. *)
Definition appendAttempted (addr : string) (attempted : gmap ULID (list string))
    (blockID : ULID) : gmap ULID (list string) :=
  <[blockID := default [] (attempted !! blockID) ++ [addr]]> attempted.

(** *** Times

    Go's [int64], with the wrap-around of its arithmetic written out. *)

Definition min_int64 : Z := - 2 ^ 63.
Definition max_int64 : Z := 2 ^ 63 - 1.

Definition in_int64 (z : Z) : Prop := min_int64 ≤ z ≤ max_int64.

Definition wrap64 (z : Z) : Z := (z + 2 ^ 63) mod 2 ^ 64 - 2 ^ 63.

(** A duration in nanoseconds as a number of milliseconds, as the integer
    division [d/minimumTick] of [model.Time] computes it. *)
Definition durationMillis (d : Z) : Z := Z.quot d 1000000.

(** [model.Time.Add]: [t + Time(d/minimumTick)], on milliseconds. *)
Definition Time_Add (t d : Z) : Z := wrap64 (t + durationMillis d).

(** Modelled from the spec: [clampTime] of the querier package is missing
    from the source files covered; only its calls are there, with [before]
    set and the kind ["start"].  The specification gives the result of these
    calls as [minT = clamp(startTime, endTime - maxLen)], that is
    [max(minT, maxT - maxLen)]. *)
Definition clampTime (t limit clamp : Z) : Z := Z.max t clamp.

Section Coordinator.

(** The state of everything outside the call (ring, store-gateways, clock,
    the variables captured by [queryFunc]), the errors of the collaborators,
    the store-gateway clients and the deletion marks. *)
Context {W Err Client Marks : Type}.

Variable RemoteAddress : Client → string.

(** [time.Now()], in nanoseconds, and [util.TimeToMillis], of another
    package. *)
Variable Now : W → Z.
Variable TimeToMillis : Z → Z.

(** [q.finder.GetBlocks(ctx, q.userID, minT, maxT)]. *)
Variable GetBlocks : W → Z → Z → W * (Err + list Block * Marks).

(** [q.stores.GetClientsFor(q.userID, blockIDs, exclude)].  The map returned
    is given as the list of its entries, in the order a [range] over it
    visits them. *)
Variable GetClientsFor :
  W → list ULID → gmap ULID (list string) → W * (Err + list (Client * list ULID)).

(** [q.consistency.Check(knownBlocks, knownDeletionMarks, queriedBlocks)]. *)
Variable Check : W → list Block → Marks → list ULID → W * list ULID.

Variable ParseShardIDLabelValue : string → option (N * N).

(** [q.queryStoreAfter], a duration in nanoseconds. *)
Variable queryStoreAfter : Z.

(** The function handed in by the caller: it returns the blocks queried or an
    error, unless it panics or never returns. *)
Variable queryFunc :
  W → list (Client * list ULID) → Z → Z → W * outcome (Err + list ULID).

(** The update of the map of attempted blocks and of the set of touched
    stores after an attempt. *)
Definition recordClient (acc : gset string * gmap ULID (list string))
    (entry : Client * list ULID) : gset string * gmap ULID (list string) :=
  let '(client, blockIDs) := entry in
  ({[RemoteAddress client]} ∪ acc.1,
   fold_left (appendAttempted (RemoteAddress client)) blockIDs acc.2).

Definition recordAttempt (touched : gset string) (attempted : gmap ULID (list string))
    (clients : list (Client * list ULID)) : gset string * gmap ULID (list string) :=
  fold_left recordClient clients (touched, attempted).

(** The code after the loop. *)
Definition afterLoop (st : LoopState) (w : W) : Run W Err Client :=
  mkRun w [] (attemptedBlocks st)
    (Ret (Some (StoreConsistencyCheckFailed (remainingBlocks st)))).

(** The loop [for attempt := 1; attempt <= maxFetchSeriesAttempts; attempt++]. *)
Fixpoint attemptsLoop (fuel : nat) (knownBlocks : list Block) (knownDeletionMarks : Marks)
    (minT maxT : Z) (attempt : Z) (st : LoopState) (w : W) : Run W Err Client :=
  if attempt <=? maxFetchSeriesAttempts then
    match fuel with
    | O => mkRun w [] (attemptedBlocks st) NoFuel
    | S fuel' =>
      let '(w1, res) := GetClientsFor w (remainingBlocks st) (attemptedBlocks st) in
      emit (EvGetClientsFor attempt (remainingBlocks st) (attemptedBlocks st) res)
        match res with
        | inl err =>
            if 1 <? attempt then afterLoop st w1
            else mkRun w1 [] (attemptedBlocks st) (Ret (Some (Upstream err)))
        | inr clients =>
            let '(w2, qout) := queryFunc w1 clients minT maxT in
            match qout with
            | Panic => mkRun w2 [] (attemptedBlocks st) Panic
            | NoFuel => mkRun w2 [] (attemptedBlocks st) NoFuel
            | Ret qres =>
            emit (EvQueryFunc attempt clients minT maxT qres)
              match qres with
              | inl err => mkRun w2 [] (attemptedBlocks st) (Ret (Some (Upstream err)))
              | inr queriedBlocks =>
                  let resQueried := resQueriedBlocks st ++ queriedBlocks in
                  let '(touched, attempted) :=
                    recordAttempt (touchedStores st) (attemptedBlocks st) clients in
                  let '(w3, missingBlocks) :=
                    Check w2 knownBlocks knownDeletionMarks resQueried in
                  emit (EvCheck resQueried missingBlocks)
                    (if (length missingBlocks =? 0)%nat then
                       mkRun w3
                         [EvStoresHit (Z.of_nat (size touched)); EvRefetches (attempt - 1)]
                         attempted (Ret None)
                     else
                       attemptsLoop fuel' knownBlocks knownDeletionMarks minT maxT
                         (attempt + 1)
                         (mkLoopState missingBlocks attempted touched resQueried) w3)
              end
            end
        end
    end
  else afterLoop st w.

(** The part of [queryWithConsistencyCheck] from the call of the finder on. *)
Definition queryBlocks (minT maxT : Z) (shard : option (N * N)) (w : W)
    : Run W Err Client :=
  let '(w1, found) := GetBlocks w minT maxT in
  emit (EvGetBlocks minT maxT)
    match found with
    | inl err => mkRun w1 [] ∅ (Ret (Some (Upstream err)))
    | inr (knownBlocks, knownDeletionMarks) =>
        if (length knownBlocks =? 0)%nat then mkRun w1 [EvStoresHit 0] ∅ (Ret None)
        else
          emit (EvBlocksFound (Z.of_nat (length knownBlocks)))
            (let loop (knownBlocks : list Block) :=
               emit (EvBlocksQueried (Z.of_nat (length knownBlocks)))
                 (attemptsLoop (Z.to_nat maxFetchSeriesAttempts)
                    knownBlocks knownDeletionMarks minT maxT 1
                    (mkLoopState (GetULIDs knownBlocks) ∅ ∅ []) w1) in
             match shard with
             | Some (ShardIndex, ShardCount) =>
                 if (0 <? ShardCount)%N then
                   match ShardFilter.filterBlocksByShard ParseShardIDLabelValue
                           knownBlocks ShardIndex ShardCount with
                   | Ret (result, incompatibleBlocks) =>
                       emit (EvIncompatibleQueryShard incompatibleBlocks) (loop result)
                   | Panic => mkRun w1 [] ∅ Panic
                   | NoFuel => mkRun w1 [] ∅ NoFuel
                   end
                 else loop knownBlocks
             | None => loop knownBlocks
             end)
    end.

(** [queryWithConsistencyCheck].  The duration is positive where it is
    negated, so the negation does not wrap. *)
Definition queryWithConsistencyCheck (minT maxT : Z) (shard : option (N * N)) (w : W)
    : Run W Err Client :=
  if 0 <? queryStoreAfter then
    let now := Now w in
    let maxT := Min64 maxT (TimeToMillis (now + - queryStoreAfter)) in
    if maxT <? minT then mkRun w [EvStoresHit 0] ∅ (Ret None)
    else queryBlocks minT maxT shard w
  else queryBlocks minT maxT shard w.

(** *** Reading a list of events *)

Definition isGetClientsFor (ev : Event Err Client) : bool :=
  match ev with
  | EvGetClientsFor _ _ _ _ => true
  | _ => false
  end.

Definition isQueryFunc (ev : Event Err Client) : bool :=
  match ev with
  | EvQueryFunc _ _ _ _ _ => true
  | _ => false
  end.



(** *** The clamp of the maximum time *)

(** C4: with a positive [queryStoreAfter] the maximum time is replaced by the
    smaller of itself and now minus [queryStoreAfter] before the blocks are
    looked up; when the result is below the minimum time the call returns
    [nil] having done nothing but observe 0 on the stores-hit metric: the
    finder and the store-gateways are not called. *)
Theorem queryWithConsistencyCheck_queryStoreAfter
    (minT maxT : Z) (shard : option (N * N)) (w : W) :
  0 < queryStoreAfter →
  let clamped := Z.min maxT (TimeToMillis (Now w - queryStoreAfter)) in
  (clamped < minT →
     queryWithConsistencyCheck minT maxT shard w = mkRun w [EvStoresHit 0] ∅ (Ret None))
  ∧ (minT ≤ clamped →
     queryWithConsistencyCheck minT maxT shard w = queryBlocks minT clamped shard w
     ∧ head (runEvents (queryWithConsistencyCheck minT maxT shard w))
       = Some (EvGetBlocks minT clamped)).
Proof.
  intros Hqsa clamped. unfold queryWithConsistencyCheck.
  destruct (Z.ltb_spec 0 queryStoreAfter) as [_|]; [|lia].
  change (Min64 maxT (TimeToMillis (Now w + - queryStoreAfter))) with clamped.
  split; intros Hcmp.
  - destruct (Z.ltb_spec clamped minT); [reflexivity | lia].
  - destruct (Z.ltb_spec clamped minT); [lia|].
    split; [reflexivity|].
    unfold queryBlocks. destruct (GetBlocks w minT clamped) as [w1 found].
    reflexivity.
Qed.

(** *** The retry loop *)




















(** *** The map of attempted blocks *)

(** The map after an attempt, whatever the set of touched stores. *)
Definition recordBlocks (attempted : gmap ULID (list string))
    (clients : list (Client * list ULID)) : gmap ULID (list string) :=
  fold_left
    (fun m (entry : Client * list ULID) =>
       fold_left (appendAttempted (RemoteAddress entry.1)) entry.2 m)
    clients attempted.

(** The pairs of a block and the address of the store-gateway it is assigned
    to, one for each time the block is listed. *)
Definition assignmentPairs (clients : list (Client * list ULID)) : list (ULID * string) :=
  flat_map (fun entry : Client * list ULID =>
              map (fun blockID => (blockID, RemoteAddress entry.1)) entry.2)
           clients.

(** The addresses a block is assigned to. *)
Definition assignedTo (blockID : ULID) (clients : list (Client * list ULID)) : list string :=
  map snd (List.filter (fun p : ULID * string => (p.1 =? blockID)%N) (assignmentPairs clients)).

(** No pair of a block and an address is recorded twice. *)
Definition NoDupAttempted (attempted : gmap ULID (list string)) : Prop :=
  ∀ blockID, NoDup (default [] (attempted !! blockID)).

(** No block is assigned to an address that the exclusion map lists for it. *)
Definition respectsExclusion (exclude : gmap ULID (list string))
    (clients : list (Client * list ULID)) : Prop :=
  ∀ blockID addr,
    In (blockID, addr) (assignmentPairs clients) →
    ¬ In addr (default [] (exclude !! blockID)).

(** Each call of [GetClientsFor] is given the map as the attempts before it
    left it: the empty map at first, and after an attempt that was assigned
    [clients] the map with these assignments appended. *)
Fixpoint exclusionsChained (attempted : gmap ULID (list string))
    (events : list (Event Err Client)) : Prop :=
  match events with
  | [] => True
  | EvGetClientsFor _ _ exclude res :: rest =>
      exclude = attempted
      ∧ match res with
        | inr clients => exclusionsChained (recordBlocks attempted clients) rest
        | inl _ => exclusionsChained attempted rest
        end
  | _ :: rest => exclusionsChained attempted rest
  end.

Lemma recordAttempt_blocks (touched : gset string) (attempted : gmap ULID (list string))
    (clients : list (Client * list ULID)) :
  (recordAttempt touched attempted clients).2 = recordBlocks attempted clients.
Proof.
  unfold recordAttempt, recordBlocks.
  revert touched attempted.
  induction clients as [|[client blockIDs] clients IH]; intros touched attempted.
  - reflexivity.
  - cbn [fold_left recordClient fst snd]. apply IH.
Qed.

Lemma appendAttempted_lookup (addr : string) (attempted : gmap ULID (list string))
    (blockID id : ULID) :
  default [] (appendAttempted addr attempted blockID !! id)
  = default [] (attempted !! id) ++ (if (blockID =? id)%N then [addr] else []).
Proof.
  unfold appendAttempted.
  destruct (N.eqb_spec blockID id) as [->|Hne].
  - rewrite lookup_insert_eq. reflexivity.
  - rewrite lookup_insert_ne by exact Hne. rewrite app_nil_r. reflexivity.
Qed.

Lemma fold_appendAttempted_lookup (addr : string) (blockIDs : list ULID) :
  ∀ (attempted : gmap ULID (list string)) (id : ULID),
    default [] (fold_left (appendAttempted addr) blockIDs attempted !! id)
    = default [] (attempted !! id)
      ++ map snd (List.filter (fun p : ULID * string => (p.1 =? id)%N)
                    (map (fun blockID => (blockID, addr)) blockIDs)).
Proof.
  induction blockIDs as [|blockID blockIDs IH]; intros attempted id.
  - cbn. rewrite app_nil_r. reflexivity.
  - cbn [fold_left map List.filter fst]. rewrite IH, appendAttempted_lookup.
    rewrite <- app_assoc. f_equal.
    destruct (blockID =? id)%N; reflexivity.
Qed.

(** After an attempt a block has the addresses it had, followed by the
    addresses it was assigned to in the attempt. *)
Lemma recordBlocks_lookup (clients : list (Client * list ULID)) :
  ∀ (attempted : gmap ULID (list string)) (id : ULID),
    default [] (recordBlocks attempted clients !! id)
    = default [] (attempted !! id) ++ assignedTo id clients.
Proof.
  unfold recordBlocks, assignedTo, assignmentPairs.
  induction clients as [|[client blockIDs] clients IH]; intros attempted id.
  - cbn. rewrite app_nil_r. reflexivity.
  - cbn [fold_left flat_map fst snd].
    rewrite IH, fold_appendAttempted_lookup.
    rewrite List.filter_app, map_app, <- app_assoc. reflexivity.
Qed.

Lemma assignedTo_In (id : ULID) (addr : string) (clients : list (Client * list ULID)) :
  In addr (assignedTo id clients) ↔ In (id, addr) (assignmentPairs clients).
Proof.
  unfold assignedTo. rewrite in_map_iff. split.
  - intros ([id' addr'] & Hsnd & Hin). cbn in Hsnd. subst addr'.
    apply filter_In in Hin as [Hin Heq]. cbn in Heq.
    apply N.eqb_eq in Heq. subst id'. exact Hin.
  - intros Hin. exists (id, addr). split; [reflexivity|].
    apply filter_In. split; [exact Hin|]. cbn. apply N.eqb_refl.
Qed.

Lemma assignedTo_NoDup (id : ULID) (clients : list (Client * list ULID)) :
  NoDup (assignmentPairs clients) → NoDup (assignedTo id clients).
Proof.
  unfold assignedTo. intros Hnd.
  induction (assignmentPairs clients) as [|[id' addr] pairs IH]; cbn [List.filter];
    [constructor|].
  apply NoDup_cons in Hnd as [Hnotin Hnd].
  cbn [fst]. destruct (N.eqb_spec id' id) as [->|Hne]; [|exact (IH Hnd)].
  cbn [map snd]. apply NoDup_cons. split; [|exact (IH Hnd)].
  intros Hin. apply Hnotin.
  apply list_elem_of_In in Hin. apply list_elem_of_In.
  apply in_map_iff in Hin as ([id'' addr''] & Hsnd & Hin). cbn in Hsnd. subst addr''.
  apply filter_In in Hin as [Hin Heq]. cbn in Heq.
  apply N.eqb_eq in Heq. subst id''. exact Hin.
Qed.

Lemma recordBlocks_NoDup (attempted : gmap ULID (list string))
    (clients : list (Client * list ULID)) :
  NoDupAttempted attempted →
  respectsExclusion attempted clients →
  NoDup (assignmentPairs clients) →
  NoDupAttempted (recordBlocks attempted clients).
Proof.
  intros Hold Hexcl Hnd id. rewrite recordBlocks_lookup.
  apply NoDup_app. split; [apply Hold|]. split; [|apply assignedTo_NoDup, Hnd].
  intros addr Hin1 Hin2.
  apply list_elem_of_In in Hin1, Hin2.
  apply assignedTo_In in Hin2. exact (Hexcl id addr Hin2 Hin1).
Qed.

Lemma NoDupAttempted_empty : NoDupAttempted ∅.
Proof. intros id. rewrite lookup_empty. constructor. Qed.

(** What the theorem on the map needs of the collaborators, none of which
    is among the source files covered.  The store-gateway set never assigns a
    block to an address that the exclusion map lists for it, and assigns each
    block it is asked for once: asked for blocks that are all different, it
    lists no pair of a block and an address twice.  The finder lists each
    block once, and the blocks the consistency check reports missing are a
    set: it lists none twice when the known blocks are all different. *)
Definition selectorRespectsExclusion : Prop :=
  ∀ w blockIDs exclude w' clients,
    GetClientsFor w blockIDs exclude = (w', inr clients) →
    respectsExclusion exclude clients.

Definition selectorAssignsOnce : Prop :=
  ∀ w blockIDs exclude w' clients,
    GetClientsFor w blockIDs exclude = (w', inr clients) →
    NoDup blockIDs →
    NoDup (assignmentPairs clients).

Definition finderListsOnce : Prop :=
  ∀ w minT maxT w' blocks marks,
    GetBlocks w minT maxT = (w', inr (blocks, marks)) →
    NoDup (GetULIDs blocks).

Definition checkerListsOnce : Prop :=
  ∀ w known marks queried,
    NoDup (GetULIDs known) →
    NoDup (Check w known marks queried).2.

(** A store-gateway set whose answer holds the blocks it was asked for, each
    as often as it was asked for, assigns once. *)
Lemma assignsRequested_once :
  (∀ w blockIDs exclude w' clients,
     GetClientsFor w blockIDs exclude = (w', inr clients) →
     map fst (assignmentPairs clients) ≡ₚ blockIDs) →
  selectorAssignsOnce.
Proof.
  intros Hreq w blockIDs exclude w' clients Hget Hnd.
  apply (NoDup_fmap_1 fst). change (NoDup (map fst (assignmentPairs clients))).
  rewrite (Hreq _ _ _ _ _ Hget). exact Hnd.
Qed.

Definition AttemptedSpec (attempted : gmap ULID (list string)) (run : Run W Err Client)
    : Prop :=
  NoDupAttempted (runAttempted run)
  ∧ (∀ k ids excl res, In (EvGetClientsFor k ids excl res) (runEvents run) →
       NoDup ids ∧ NoDupAttempted excl)
  ∧ exclusionsChained attempted (runEvents run).

Lemma AttemptedSpec_emit (attempted : gmap ULID (list string)) (ev : Event Err Client)
    (run : Run W Err Client) :
  isGetClientsFor ev = false →
  AttemptedSpec attempted run → AttemptedSpec attempted (emit ev run).
Proof.
  unfold AttemptedSpec. intros Hev (Hfinal & Hexcl & Hchain).
  cbn [emit runAttempted runEvents].
  split; [exact Hfinal|]. split.
  - intros k ids excl res [->|Hin]; [discriminate | eauto].
  - destruct ev; try discriminate; exact Hchain.
Qed.

Lemma AttemptedSpec_stop (attempted : gmap ULID (list string)) (w : W)
    (result : outcome (option (QueryError Err))) :
  NoDupAttempted attempted → AttemptedSpec attempted (mkRun w [] attempted result).
Proof.
  intros Hnd. unfold AttemptedSpec. cbn [runAttempted runEvents].
  split; [exact Hnd|]. split; [intros ? ? ? ? []|exact I].
Qed.

Lemma AttemptedSpec_stop_at (attempted final : gmap ULID (list string)) (w : W)
    (result : outcome (option (QueryError Err))) :
  NoDupAttempted final → AttemptedSpec attempted (mkRun w [] final result).
Proof.
  intros Hnd. unfold AttemptedSpec. cbn [runAttempted runEvents].
  split; [exact Hnd|]. split; [intros ? ? ? ? []|exact I].
Qed.

Lemma attemptsLoop_attempted (known : list Block) (marks : Marks) (minT maxT : Z) :
  selectorRespectsExclusion → selectorAssignsOnce → checkerListsOnce →
  NoDup (GetULIDs known) →
  ∀ (fuel : nat) (attempt : Z) (st : LoopState) (w : W),
    NoDup (remainingBlocks st) →
    NoDupAttempted (attemptedBlocks st) →
    AttemptedSpec (attemptedBlocks st)
      (attemptsLoop fuel known marks minT maxT attempt st w).
Proof.
  intros Hexcl Honce Hcheck Hknown.
  induction fuel as [|fuel IH]; intros attempt st w Hrem Hnd; cbn [attemptsLoop];
    destruct (attempt <=? maxFetchSeriesAttempts);
    try (apply AttemptedSpec_stop; exact Hnd).
  destruct (GetClientsFor w (remainingBlocks st) (attemptedBlocks st))
    as [w1 [err|clients]] eqn:Hget.
  { unfold AttemptedSpec. cbn [emit runAttempted runEvents].
    destruct (1 <? attempt); cbn [afterLoop runAttempted runEvents];
      (split; [exact Hnd|]; split;
       [intros k ids excl res [Heq|[]]; injection Heq as _ <- <- _; split; assumption
       |cbn; auto]). }
  assert (Hnd' : NoDupAttempted (recordBlocks (attemptedBlocks st) clients)).
  { apply recordBlocks_NoDup;
      [exact Hnd | eapply Hexcl, Hget | eapply Honce; [exact Hget | exact Hrem]]. }
  assert (Hhead : ∀ run, AttemptedSpec (recordBlocks (attemptedBlocks st) clients) run →
            AttemptedSpec (attemptedBlocks st)
              (emit (EvGetClientsFor attempt (remainingBlocks st) (attemptedBlocks st)
                       (inr clients)) run)).
  { unfold AttemptedSpec. intros run (Hfinal & Hin & Hchain).
    cbn [emit runAttempted runEvents]. split; [exact Hfinal|]. split.
    - intros k ids excl res [Heq|Hin'];
        [injection Heq as _ <- <- _; split; assumption | eauto].
    - cbn [exclusionsChained]. split; [reflexivity | exact Hchain]. }
  destruct (queryFunc w1 clients minT maxT) as [w2 [[err|queried]| |]].
  3,4: apply Hhead, AttemptedSpec_stop_at; exact Hnd.
  { unfold AttemptedSpec. cbn [emit runAttempted runEvents].
    split; [exact Hnd|]. split.
    - intros k ids excl res [Heq|[Heq|[]]]; [|discriminate].
      injection Heq as _ <- <- _; split; assumption.
    - cbn. auto. }
  cbn zeta.
  pose proof (recordAttempt_blocks (touchedStores st) (attemptedBlocks st) clients) as Hrec.
  destruct (recordAttempt (touchedStores st) (attemptedBlocks st) clients)
    as [touched attempted]. cbn [snd] in Hrec. subst attempted.
  pose proof (Hcheck w2 known marks (resQueriedBlocks st ++ queried) Hknown) as Hmissing.
  destruct (Check w2 known marks (resQueriedBlocks st ++ queried)) as [w3 missing].
  cbn [snd] in Hmissing.
  apply Hhead.
  apply AttemptedSpec_emit; [reflexivity|]. apply AttemptedSpec_emit; [reflexivity|].
  destruct (length missing =? 0)%nat.
  - unfold AttemptedSpec. cbn [runAttempted runEvents].
    split; [exact Hnd'|]. split; [|cbn; exact I].
    intros k ids excl res [Heq|[Heq|[]]]; discriminate.
  - apply (IH (attempt + 1)
             (mkLoopState missing (recordBlocks (attemptedBlocks st) clients) touched
                (resQueriedBlocks st ++ queried)) w3).
    + exact Hmissing.
    + exact Hnd'.
Qed.

Lemma GetULIDs_sublist (kept blocks : list Block) :
  kept `sublist_of` blocks → NoDup (GetULIDs blocks) → NoDup (GetULIDs kept).
Proof.
  intros Hsub Hnd. unfold GetULIDs in *.
  eapply sublist_NoDup; [exact Hnd | apply (fmap_sublist ID), Hsub].
Qed.

Lemma queryBlocks_attempted (minT maxT : Z) (shard : option (N * N)) (w : W) :
  selectorRespectsExclusion → selectorAssignsOnce →
  finderListsOnce → checkerListsOnce →
  AttemptedSpec ∅ (queryBlocks minT maxT shard w).
Proof.
  intros Hexcl Honce Hfinder Hcheck. unfold queryBlocks.
  destruct (GetBlocks w minT maxT) as [w1 [err|[known marks]]] eqn:Hfound.
  { apply AttemptedSpec_emit; [reflexivity|].
    apply AttemptedSpec_stop, NoDupAttempted_empty. }
  pose proof (Hfinder _ _ _ _ _ _ Hfound) as Hknown.
  apply AttemptedSpec_emit; [reflexivity|].
  destruct (length known =? 0)%nat.
  { unfold AttemptedSpec. cbn [runAttempted runEvents].
    split; [apply NoDupAttempted_empty|]. split; [|cbn; exact I].
    intros k ids excl res [Heq|[]]; discriminate. }
  apply AttemptedSpec_emit; [reflexivity|].
  assert (Hloop : ∀ blocks,
    NoDup (GetULIDs blocks) →
    AttemptedSpec ∅
      (emit (EvBlocksQueried (Z.of_nat (length blocks)))
         (attemptsLoop (Z.to_nat maxFetchSeriesAttempts) blocks marks minT maxT 1
            (mkLoopState (GetULIDs blocks) ∅ ∅ []) w1))).
  { intros blocks Hblocks. apply AttemptedSpec_emit; [reflexivity|].
    apply (attemptsLoop_attempted blocks marks minT maxT Hexcl Honce Hcheck Hblocks _ 1
             (mkLoopState (GetULIDs blocks) ∅ ∅ []) w1).
    - exact Hblocks.
    - apply NoDupAttempted_empty. }
  destruct shard as [[ShardIndex ShardCount]|]; [|apply Hloop, Hknown].
  destruct (0 <? ShardCount)%N; [|apply Hloop, Hknown].
  pose proof (ShardFilter.filterRest_kept ParseShardIDLabelValue ShardIndex ShardCount
                known) as [_ Hkept].
  rewrite <- ShardFilter.filterBlocksByShard_rest in Hkept.
  destruct (ShardFilter.filterBlocksByShard _ _ _ _) as [[result incompatible]| |].
  - apply AttemptedSpec_emit; [reflexivity|]. apply Hloop.
    destruct (Hkept result incompatible eq_refl) as [Hsub _].
    exact (GetULIDs_sublist _ _ Hsub Hknown).
  - apply AttemptedSpec_stop, NoDupAttempted_empty.
  - apply AttemptedSpec_stop, NoDupAttempted_empty.
Qed.

(** C6: if [GetClientsFor] never assigns a block to an address that the
    exclusion map it is given lists for that block, then, with collaborators
    that list each block once (the finder its blocks, the consistency check
    the blocks missing, and [GetClientsFor] the blocks it is asked for), the
    map of attempted blocks never holds a pair of a block and an address
    twice, neither at the return nor when it is handed to [GetClientsFor],
    and no call of [GetClientsFor] is asked for a block twice; the map handed
    over is empty at first and, after an attempt, the map before it with the
    address of each client appended for each block the client was assigned,
    whatever the client answered. *)
Theorem attempted_pairs_recorded_once (minT maxT : Z) (shard : option (N * N)) (w : W) :
  selectorRespectsExclusion → selectorAssignsOnce →
  finderListsOnce → checkerListsOnce →
  let run := queryWithConsistencyCheck minT maxT shard w in
  NoDupAttempted (runAttempted run)
  ∧ (∀ k ids excl res, In (EvGetClientsFor k ids excl res) (runEvents run) →
       NoDup ids ∧ NoDupAttempted excl)
  ∧ exclusionsChained ∅ (runEvents run)
  ∧ (∀ attempted clients blockID,
       default [] (recordBlocks attempted clients !! blockID)
       = default [] (attempted !! blockID) ++ assignedTo blockID clients).
Proof.
  intros Hexcl Honce Hfinder Hcheck.
  cut (AttemptedSpec ∅ (queryWithConsistencyCheck minT maxT shard w)).
  { intros (Hfinal & Hin & Hchain). cbv zeta.
    split; [exact Hfinal|]. split; [exact Hin|]. split; [exact Hchain|].
    intros attempted clients blockID. apply recordBlocks_lookup. }
  unfold queryWithConsistencyCheck.
  destruct (0 <? queryStoreAfter); [|apply queryBlocks_attempted; assumption].
  cbn zeta. destruct (_ <? minT); [|apply queryBlocks_attempted; assumption].
  cbn [runAttempted runEvents].
  split; [apply NoDupAttempted_empty|]. split; [|cbn; exact I].
  intros k ids excl res [Heq|[]]; discriminate.
Qed.

(** *** From the hints to the next attempt *)





(** *** An error of [queryFunc] *)

(** An error returned by [queryFunc] ends the call at once: it is returned as
    it is and no attempt follows. *)
Definition QueryErrorSpec (events : list (Event Err Client))
    (result : outcome (option (QueryError Err))) : Prop :=
  ∀ k clients lo hi e,
    In (EvQueryFunc k clients lo hi (inl e)) events →
    result = Ret (Some (Upstream e))
    ∧ ∃ pre, events = pre ++ [EvQueryFunc k clients lo hi (inl e)].

Lemma QueryErrorSpec_emit (ev : Event Err Client) (events : list (Event Err Client))
    (result : outcome (option (QueryError Err))) :
  (∀ k clients lo hi e, ev ≠ EvQueryFunc k clients lo hi (inl e)) →
  QueryErrorSpec events result → QueryErrorSpec (ev :: events) result.
Proof.
  intros Hev Hspec k clients lo hi e [Heq|Hin]; [destruct (Hev _ _ _ _ _ Heq)|].
  destruct (Hspec _ _ _ _ _ Hin) as [Hres [pre ->]].
  split; [exact Hres|]. exists (ev :: pre). reflexivity.
Qed.

Lemma QueryErrorSpec_none (events : list (Event Err Client))
    (result : outcome (option (QueryError Err))) :
  (∀ ev, In ev events → isQueryFunc ev = false) → QueryErrorSpec events result.
Proof.
  intros Hnone k clients lo hi e Hin. specialize (Hnone _ Hin). discriminate.
Qed.

Lemma attemptsLoop_query_error (known : list Block) (marks : Marks) (minT maxT : Z)
    (fuel : nat) :
  ∀ (attempt : Z) (st : LoopState) (w : W),
    QueryErrorSpec (runEvents (attemptsLoop fuel known marks minT maxT attempt st w))
                   (runResult (attemptsLoop fuel known marks minT maxT attempt st w)).
Proof.
  induction fuel as [|fuel IH]; intros attempt st w; cbn [attemptsLoop];
    destruct (attempt <=? maxFetchSeriesAttempts);
    try (apply QueryErrorSpec_none; intros ev []).
  destruct (GetClientsFor w (remainingBlocks st) (attemptedBlocks st))
    as [w1 [err|clients]].
  { apply QueryErrorSpec_none. destruct (1 <? attempt); intros ev [<-|[]]; reflexivity. }
  cbn [emit runEvents runResult].
  apply QueryErrorSpec_emit; [discriminate|].
  destruct (queryFunc w1 clients minT maxT) as [w2 [[err|queried]| |]].
  3,4: apply QueryErrorSpec_none; intros ev [].
  { intros k cl lo hi e [Heq|[]]. injection Heq as <- <- <- <- <-.
    split; [reflexivity|]. exists []. reflexivity. }
  cbn zeta.
  destruct (recordAttempt (touchedStores st) (attemptedBlocks st) clients)
    as [touched attempted].
  destruct (Check w2 known marks (resQueriedBlocks st ++ queried)) as [w3 missing].
  cbn [emit runEvents runResult].
  apply QueryErrorSpec_emit; [discriminate|].
  apply QueryErrorSpec_emit; [discriminate|].
  destruct (length missing =? 0)%nat.
  - apply QueryErrorSpec_none. intros ev [<-|[<-|[]]]; reflexivity.
  - apply IH.
Qed.

Lemma queryWithConsistencyCheck_query_error (minT maxT : Z) (shard : option (N * N))
    (w : W) :
  QueryErrorSpec (runEvents (queryWithConsistencyCheck minT maxT shard w))
                 (runResult (queryWithConsistencyCheck minT maxT shard w)).
Proof.
  assert (Hblocks : ∀ hi,
    QueryErrorSpec (runEvents (queryBlocks minT hi shard w))
                   (runResult (queryBlocks minT hi shard w))).
  { intros hi. unfold queryBlocks.
    destruct (GetBlocks w minT hi) as [w1 [err|[known marks]]];
      cbn [emit runEvents runResult].
    { apply QueryErrorSpec_none. intros ev [<-|[]]. reflexivity. }
    apply QueryErrorSpec_emit; [discriminate|].
    destruct (length known =? 0)%nat; cbn [emit runEvents runResult].
    { apply QueryErrorSpec_none. intros ev [<-|[]]. reflexivity. }
    apply QueryErrorSpec_emit; [discriminate|].
    assert (Hloop : ∀ blocks,
      QueryErrorSpec
        (EvBlocksQueried (Z.of_nat (length blocks))
         :: runEvents (attemptsLoop (Z.to_nat maxFetchSeriesAttempts) blocks marks minT hi 1
                         (mkLoopState (GetULIDs blocks) ∅ ∅ []) w1))
        (runResult (attemptsLoop (Z.to_nat maxFetchSeriesAttempts) blocks marks minT hi 1
                      (mkLoopState (GetULIDs blocks) ∅ ∅ []) w1))).
    { intros blocks. apply QueryErrorSpec_emit; [discriminate|].
      apply attemptsLoop_query_error. }
    destruct shard as [[ShardIndex ShardCount]|]; [|apply Hloop].
    destruct (0 <? ShardCount)%N; [|apply Hloop].
    destruct (ShardFilter.filterBlocksByShard _ _ _ _) as [[result incompatible]| |];
      cbn [emit runEvents runResult].
    - apply QueryErrorSpec_emit; [discriminate|]. apply Hloop.
    - apply QueryErrorSpec_none. intros ev [].
    - apply QueryErrorSpec_none. intros ev []. }
  unfold queryWithConsistencyCheck.
  destruct (0 <? queryStoreAfter); [|apply Hblocks].
  cbn zeta. destruct (_ <? minT); [|apply Hblocks].
  apply QueryErrorSpec_none. intros ev [<-|[]]. reflexivity.
Qed.

(** *** Label queries *)

(** [q.limits.MaxLabelsQueryLength(q.userID)], a duration in nanoseconds. *)
Variable MaxLabelsQueryLength : Z.

(** The block that clamps the time range in [LabelNames] and in
    [LabelValues]. *)
Definition labelsMinT (minT maxT : Z) : Z :=
  let startTime := minT in
  let endTime := maxT in
  let maxQueryLength := MaxLabelsQueryLength in
  clampTime startTime maxQueryLength (Time_Add endTime (wrap64 (- maxQueryLength))).

(** [LabelNames] and [LabelValues], up to the merge of what [queryFunc]
    gathered: the two differ in the function they hand over, which stands
    here for either. *)
Definition LabelNames (minT maxT : Z) (w : W) : Run W Err Client :=
  let minT := labelsMinT minT maxT in
  queryWithConsistencyCheck minT maxT None w.

Definition LabelValues (minT maxT : Z) (w : W) : Run W Err Client :=
  let minT := labelsMinT minT maxT in
  queryWithConsistencyCheck minT maxT None w.

Lemma wrap64_in_range (z : Z) : in_int64 z → wrap64 z = z.
Proof.
  unfold in_int64, min_int64, max_int64, wrap64. intros Hz.
  rewrite Z.mod_small by lia. lia.
Qed.

Lemma wrap64_below (z : Z) : - 2 ^ 64 - 2 ^ 63 ≤ z < - 2 ^ 63 → wrap64 z = z + 2 ^ 64.
Proof.
  unfold wrap64. intros Hz.
  replace (z + 2 ^ 63) with (z + 2 ^ 63 + 2 ^ 64 + (-1) * 2 ^ 64) by lia.
  rewrite Z_mod_plus_full, Z.mod_small by lia. lia.
Qed.

Lemma durationMillis_bounds (d : Z) :
  0 ≤ d ≤ max_int64 → 0 ≤ durationMillis d ≤ max_int64.
Proof.
  unfold durationMillis, max_int64. intros Hd.
  rewrite Z.quot_div_nonneg by lia.
  split; [apply Z.div_pos; lia|].
  transitivity d; [|lia]. apply Z.div_le_upper_bound; lia.
Qed.

Lemma labelsMinT_eq (minT maxT : Z) :
  0 ≤ MaxLabelsQueryLength ≤ max_int64 →
  labelsMinT minT maxT
  = Z.max minT (wrap64 (maxT - durationMillis MaxLabelsQueryLength)).
Proof.
  intros HL. unfold labelsMinT, clampTime, Time_Add. cbn zeta.
  rewrite (wrap64_in_range (- MaxLabelsQueryLength))
    by (unfold in_int64, min_int64, max_int64 in *; lia).
  unfold durationMillis. rewrite Z.quot_opp_l by lia.
  reflexivity.
Qed.

Lemma attemptsLoop_no_GetBlocks (known : list Block) (marks : Marks) (minT maxT : Z)
    (fuel : nat) :
  ∀ (attempt : Z) (st : LoopState) (w : W) (a b : Z),
    ¬ In (EvGetBlocks a b) (runEvents (attemptsLoop fuel known marks minT maxT attempt st w)).
Proof.
  induction fuel as [|fuel IH]; intros attempt st w a b; cbn [attemptsLoop];
    destruct (attempt <=? maxFetchSeriesAttempts); try (cbn; tauto).
  destruct (GetClientsFor w (remainingBlocks st) (attemptedBlocks st))
    as [w1 [err|clients]].
  { destruct (1 <? attempt); cbn; intros [Heq|[]]; discriminate. }
  destruct (queryFunc w1 clients minT maxT) as [w2 [[err|queried]| |]].
  3,4: cbn; intros [Heq|[]]; discriminate.
  { cbn. intros [Heq|[Heq|[]]]; discriminate. }
  cbn zeta.
  destruct (recordAttempt (touchedStores st) (attemptedBlocks st) clients)
    as [touched attempted].
  destruct (Check w2 known marks (resQueriedBlocks st ++ queried)) as [w3 missing].
  destruct (length missing =? 0)%nat; cbn [emit runEvents].
  - cbn. intros [Heq|[Heq|[Heq|[Heq|[Heq|[]]]]]]; discriminate.
  - intros [Heq|[Heq|[Heq|Hin]]]; try discriminate. exact (IH _ _ _ _ _ Hin).
Qed.

(** The finder is called with the time range the call was given, the maximum
    time lowered when [queryStoreAfter] is set. *)
Lemma queryWithConsistencyCheck_GetBlocks (minT maxT : Z) (shard : option (N * N)) (w : W)
    (a b : Z) :
  In (EvGetBlocks a b) (runEvents (queryWithConsistencyCheck minT maxT shard w)) →
  a = minT ∧ b ≤ maxT ∧ (queryStoreAfter ≤ 0 → b = maxT).
Proof.
  assert (Hblocks : ∀ hi,
    In (EvGetBlocks a b) (runEvents (queryBlocks minT hi shard w)) → a = minT ∧ b = hi).
  { intros hi. unfold queryBlocks.
    destruct (GetBlocks w minT hi) as [w1 [err|[known marks]]]; cbn [emit runEvents].
    { intros [Heq|[]]. injection Heq as <- <-. auto. }
    intros [Heq|Hin]; [injection Heq as <- <-; auto|]. exfalso.
    destruct (length known =? 0)%nat; cbn [emit runEvents] in Hin.
    { destruct Hin as [Heq|[]]; discriminate. }
    destruct Hin as [Heq|Hin]; [discriminate|].
    assert (Hloop : ∀ blocks,
      ¬ In (EvGetBlocks a b)
          (runEvents (emit (EvBlocksQueried (Z.of_nat (length blocks)))
             (attemptsLoop (Z.to_nat maxFetchSeriesAttempts) blocks marks minT hi 1
                (mkLoopState (GetULIDs blocks) ∅ ∅ []) w1)))).
    { intros blocks [Heq|Hin']; [discriminate|].
      exact (attemptsLoop_no_GetBlocks _ _ _ _ _ _ _ _ _ _ Hin'). }
    destruct shard as [[ShardIndex ShardCount]|]; [|exact (Hloop _ Hin)].
    destruct (0 <? ShardCount)%N; [|exact (Hloop _ Hin)].
    destruct (ShardFilter.filterBlocksByShard _ _ _ _) as [[result incompatible]| |];
      cbn [emit runEvents] in Hin.
    - destruct Hin as [Heq|Hin]; [discriminate | exact (Hloop _ Hin)].
    - destruct Hin.
    - destruct Hin. }
  unfold queryWithConsistencyCheck.
  destruct (Z.ltb_spec 0 queryStoreAfter) as [Hqsa|Hqsa].
  - cbn zeta. destruct (_ <? minT).
    + cbn. intros [Heq|[]]. discriminate.
    + intros Hin. destruct (Hblocks _ Hin) as [-> ->].
      unfold Min64. split; [reflexivity|]. split; lia.
  - intros Hin. destruct (Hblocks _ Hin) as [-> ->]. split; [reflexivity|]. split; lia.
Qed.

(** C8: in [LabelNames] and in [LabelValues] the minimum time is raised to
    the maximum time minus the limit on the length of label queries before
    the finder is called, so that the finder is asked for a range that ends at
    the maximum time of the request (or before it, when [queryStoreAfter]
    lowers it) and is no wider than the limit. *)
Theorem label_queries_clamp_time_range (minT maxT : Z) (w : W) :
  in_int64 maxT → 0 ≤ MaxLabelsQueryLength ≤ max_int64 →
  let limit := durationMillis MaxLabelsQueryLength in
  let clamped := labelsMinT minT maxT in
  (min_int64 ≤ maxT - limit → clamped = Z.max minT (maxT - limit))
  ∧ minT ≤ clamped
  ∧ maxT - clamped ≤ limit
  ∧ LabelNames minT maxT w = queryWithConsistencyCheck clamped maxT None w
  ∧ LabelValues minT maxT w = queryWithConsistencyCheck clamped maxT None w
  ∧ (∀ a b, In (EvGetBlocks a b) (runEvents (LabelNames minT maxT w))
            ∨ In (EvGetBlocks a b) (runEvents (LabelValues minT maxT w)) →
       a = clamped ∧ b ≤ maxT ∧ b - a ≤ limit ∧ (queryStoreAfter ≤ 0 → b = maxT)).
Proof.
  intros HmaxT HL limit clamped.
  pose proof (durationMillis_bounds _ HL) as Hlimit. fold limit in Hlimit.
  assert (Heq : clamped = Z.max minT (wrap64 (maxT - limit))).
  { apply labelsMinT_eq. exact HL. }
  assert (Hwidth : maxT - clamped ≤ limit).
  { rewrite Heq. unfold in_int64, min_int64, max_int64 in *.
    destruct (Z.le_gt_cases (- 2 ^ 63) (maxT - limit)) as [Hin|Hout].
    - rewrite wrap64_in_range by (unfold in_int64, min_int64, max_int64; lia). lia.
    - rewrite wrap64_below by lia. lia. }
  split.
  { intros Hin. rewrite Heq, wrap64_in_range; [reflexivity|].
    unfold in_int64, min_int64, max_int64 in *. lia. }
  split; [rewrite Heq; lia|].
  split; [exact Hwidth|].
  split; [reflexivity|]. split; [reflexivity|].
  intros a b Hin.
  assert (Hin' : In (EvGetBlocks a b)
                   (runEvents (queryWithConsistencyCheck clamped maxT None w))).
  { destruct Hin as [Hin|Hin]; exact Hin. }
  destruct (queryWithConsistencyCheck_GetBlocks _ _ _ _ _ _ Hin') as (-> & Hb & Hqsa).
  split; [reflexivity|]. split; [exact Hb|]. split; [lia | exact Hqsa].
Qed.

(** *** More on the events of a call *)

(** The events a turn of the loop can leave. *)
Definition isAttemptEvent (ev : Event Err Client) : bool :=
  match ev with
  | EvGetClientsFor _ _ _ _ | EvQueryFunc _ _ _ _ _ | EvCheck _ _
  | EvStoresHit _ | EvRefetches _ => true
  | _ => false
  end.

(** The observations of the two metrics of a finished call. *)
Definition isMetric (ev : Event Err Client) : bool :=
  match ev with
  | EvStoresHit _ | EvRefetches _ => true
  | _ => false
  end.

(** A run with events in front of it. *)
Definition prepend (pre : list (Event Err Client)) (r : Run W Err Client)
    : Run W Err Client :=
  mkRun (runWorld r) (pre ++ runEvents r) (runAttempted r) (runResult r).

(** The loop as [queryBlocks] enters it. *)
Definition firstAttempt (blocks : list Block) (marks : Marks) (minT maxT : Z) (w : W)
    : Run W Err Client :=
  attemptsLoop (Z.to_nat maxFetchSeriesAttempts) blocks marks minT maxT 1
    (mkLoopState (GetULIDs blocks) ∅ ∅ []) w.

(** The ways through [queryBlocks]: the finder fails; it finds no block; the
    shard filter panics; or the loop is entered with the blocks found, or
    with those the shard filter kept. *)
Inductive QueryBlocksCase (minT maxT : Z) (w : W) (r : Run W Err Client) : Prop :=
| FinderFails (w1 : W) (err : Err) :
    GetBlocks w minT maxT = (w1, inl err) →
    r = mkRun w1 [EvGetBlocks minT maxT] ∅ (Ret (Some (Upstream err))) →
    QueryBlocksCase minT maxT w r
| NoBlocks (w1 : W) (marks : Marks) :
    GetBlocks w minT maxT = (w1, inr ([], marks)) →
    r = mkRun w1 [EvGetBlocks minT maxT; EvStoresHit 0] ∅ (Ret None) →
    QueryBlocksCase minT maxT w r
| FilterPanics (w1 : W) (known : list Block) (marks : Marks) :
    GetBlocks w minT maxT = (w1, inr (known, marks)) →
    r = mkRun w1 [EvGetBlocks minT maxT; EvBlocksFound (Z.of_nat (length known))] ∅ Panic →
    QueryBlocksCase minT maxT w r
| AllBlocks (w1 : W) (known : list Block) (marks : Marks) :
    GetBlocks w minT maxT = (w1, inr (known, marks)) →
    known ≠ [] →
    r = prepend [EvGetBlocks minT maxT; EvBlocksFound (Z.of_nat (length known));
                 EvBlocksQueried (Z.of_nat (length known))]
          (firstAttempt known marks minT maxT w1) →
    QueryBlocksCase minT maxT w r
| ShardBlocks (w1 : W) (known : list Block) (marks : Marks)
    (result : list Block) (incompatible : Z) :
    GetBlocks w minT maxT = (w1, inr (known, marks)) →
    known ≠ [] →
    result `sublist_of` known →
    0 ≤ incompatible ≤ Z.of_nat (length result) →
    r = prepend [EvGetBlocks minT maxT; EvBlocksFound (Z.of_nat (length known));
                 EvIncompatibleQueryShard incompatible;
                 EvBlocksQueried (Z.of_nat (length result))]
          (firstAttempt result marks minT maxT w1) →
    QueryBlocksCase minT maxT w r.

Lemma queryBlocks_case (minT maxT : Z) (shard : option (N * N)) (w : W) :
  QueryBlocksCase minT maxT w (queryBlocks minT maxT shard w).
Proof.
  unfold queryBlocks.
  destruct (GetBlocks w minT maxT) as [w1 [err|[known marks]]] eqn:Hfound.
  { eapply FinderFails; [exact Hfound | reflexivity]. }
  destruct known as [|b known]; [eapply NoBlocks; [exact Hfound | reflexivity]|].
  cbn [length Nat.eqb]. cbn zeta.
  assert (Hall : QueryBlocksCase minT maxT w
            (emit (EvGetBlocks minT maxT)
               (emit (EvBlocksFound (Z.of_nat (length (b :: known))))
                  (emit (EvBlocksQueried (Z.of_nat (length (b :: known))))
                     (attemptsLoop (Z.to_nat maxFetchSeriesAttempts) (b :: known) marks
                        minT maxT 1 (mkLoopState (GetULIDs (b :: known)) ∅ ∅ []) w1)))))
    by (eapply AllBlocks; [exact Hfound | discriminate | reflexivity]).
  destruct shard as [[ShardIndex ShardCount]|]; [|exact Hall].
  destruct (0 <? ShardCount)%N; [|exact Hall].
  pose proof (ShardFilter.filterRest_kept ParseShardIDLabelValue ShardIndex ShardCount
                (b :: known)) as [Hfuel Hkept].
  rewrite <- ShardFilter.filterBlocksByShard_rest in Hfuel, Hkept.
  destruct (ShardFilter.filterBlocksByShard _ _ _ _) as [[result incompatible]| |].
  - destruct (Hkept result incompatible eq_refl) as [Hsub Hinc].
    eapply ShardBlocks; [exact Hfound | discriminate | exact Hsub | exact Hinc | reflexivity].
  - eapply FilterPanics; [exact Hfound | reflexivity].
  - destruct Hfuel. reflexivity.
Qed.

(** A call returns at once, or is [queryBlocks] with the maximum time as it
    was lowered. *)
Lemma queryWithConsistencyCheck_case (minT maxT : Z) (shard : option (N * N)) (w : W) :
  queryWithConsistencyCheck minT maxT shard w = mkRun w [EvStoresHit 0] ∅ (Ret None)
  ∨ ∃ hi, hi ≤ maxT
          ∧ queryWithConsistencyCheck minT maxT shard w = queryBlocks minT hi shard w.
Proof.
  unfold queryWithConsistencyCheck.
  destruct (0 <? queryStoreAfter); [|right; exists maxT; split; [lia | reflexivity]].
  cbn zeta. destruct (_ <? minT); [left; reflexivity|].
  right. eexists. split; [|reflexivity]. unfold Min64. lia.
Qed.

Lemma attemptsLoop_events (known : list Block) (marks : Marks) (minT maxT : Z)
    (fuel : nat) :
  ∀ (attempt : Z) (st : LoopState) (w : W) (ev : Event Err Client),
    In ev (runEvents (attemptsLoop fuel known marks minT maxT attempt st w)) →
    isAttemptEvent ev = true.
Proof.
  induction fuel as [|fuel IH]; intros attempt st w ev; cbn [attemptsLoop];
    destruct (attempt <=? maxFetchSeriesAttempts);
    try (intros Hnil; exact (False_ind _ Hnil)).
  destruct (GetClientsFor w (remainingBlocks st) (attemptedBlocks st))
    as [w1 [err|clients]].
  { destruct (1 <? attempt); intros [<-|[]]; reflexivity. }
  cbn [emit runEvents]. intros [<-|Hin]; [reflexivity|]. revert Hin.
  destruct (queryFunc w1 clients minT maxT) as [w2 [[err|queried]| |]];
    cbn [emit runEvents]; try (intros Hnil; exact (False_ind _ Hnil)).
  { intros [<-|[]]. reflexivity. }
  cbn zeta.
  destruct (recordAttempt (touchedStores st) (attemptedBlocks st) clients)
    as [touched attempted].
  destruct (Check w2 known marks (resQueriedBlocks st ++ queried)) as [w3 missing].
  cbn [emit runEvents]. intros [<-|[<-|Hin]]; try reflexivity. revert Hin.
  destruct (length missing =? 0)%nat.
  - intros [<-|[<-|[]]]; reflexivity.
  - apply IH.
Qed.

(** **** The time range and the clients of an attempt *)

Lemma attemptsLoop_query_range (known : list Block) (marks : Marks) (minT maxT : Z)
    (fuel : nat) :
  ∀ (attempt : Z) (st : LoopState) (w : W) k cl lo hi res,
    In (EvQueryFunc k cl lo hi res)
       (runEvents (attemptsLoop fuel known marks minT maxT attempt st w)) →
    lo = minT ∧ hi = maxT
    ∧ ∃ ids excl,
        In (EvGetClientsFor k ids excl (inr cl))
           (runEvents (attemptsLoop fuel known marks minT maxT attempt st w)).
Proof.
  induction fuel as [|fuel IH]; intros attempt st w k cl lo hi res; cbn [attemptsLoop];
    destruct (attempt <=? maxFetchSeriesAttempts);
    try (intros Hnil; exact (False_ind _ Hnil)).
  destruct (GetClientsFor w (remainingBlocks st) (attemptedBlocks st))
    as [w1 [err|clients]].
  { destruct (1 <? attempt); intros [Heq|[]]; discriminate. }
  cbn [emit runEvents]. intros [Heq|Hin]; [discriminate|]. revert Hin.
  destruct (queryFunc w1 clients minT maxT) as [w2 [[err|queried]| |]];
    cbn [emit runEvents]; try (intros Hnil; exact (False_ind _ Hnil)).
  { intros [Heq|[]]. injection Heq as <- <- <- <- <-.
    split; [reflexivity|]. split; [reflexivity|].
    eexists _, _. left. reflexivity. }
  cbn zeta.
  destruct (recordAttempt (touchedStores st) (attemptedBlocks st) clients)
    as [touched attempted].
  destruct (Check w2 known marks (resQueriedBlocks st ++ queried)) as [w3 missing].
  cbn [emit runEvents]. intros [Heq|[Heq|Hin]]; [|discriminate|].
  { injection Heq as <- <- <- <- <-.
    split; [reflexivity|]. split; [reflexivity|].
    eexists _, _. left. reflexivity. }
  revert Hin. destruct (length missing =? 0)%nat.
  - intros [Heq|[Heq|[]]]; discriminate.
  - intros Hin. destruct (IH _ _ _ _ _ _ _ _ Hin) as (-> & -> & ids & excl & Hgcf).
    split; [reflexivity|]. split; [reflexivity|].
    exists ids, excl. right. right. right. exact Hgcf.
Qed.

Lemma queryBlocks_query_range (minT hi0 : Z) (shard : option (N * N)) (w : W)
    k cl lo hi res :
  In (EvQueryFunc k cl lo hi res) (runEvents (queryBlocks minT hi0 shard w)) →
  lo = minT ∧ hi = hi0
  ∧ In (EvGetBlocks lo hi) (runEvents (queryBlocks minT hi0 shard w))
  ∧ ∃ ids excl,
      In (EvGetClientsFor k ids excl (inr cl)) (runEvents (queryBlocks minT hi0 shard w)).
Proof.
  destruct (queryBlocks_case minT hi0 shard w)
    as [w1 err _ ->|w1 marks _ ->|w1 known marks _ ->
        |w1 known marks _ _ ->|w1 known marks result inc _ _ _ _ ->];
    cbn [prepend runEvents app].
  - intros [Heq|[]]; discriminate.
  - intros [Heq|[Heq|[]]]; discriminate.
  - intros [Heq|[Heq|[]]]; discriminate.
  - intros [Heq|[Heq|[Heq|Hin]]]; try discriminate.
    destruct (attemptsLoop_query_range _ _ _ _ _ _ _ _ _ _ _ _ _ Hin)
      as (-> & -> & ids & excl & Hgcf).
    split; [reflexivity|]. split; [reflexivity|]. split; [left; reflexivity|].
    exists ids, excl. do 3 right. exact Hgcf.
  - intros [Heq|[Heq|[Heq|[Heq|Hin]]]]; try discriminate.
    destruct (attemptsLoop_query_range _ _ _ _ _ _ _ _ _ _ _ _ _ Hin)
      as (-> & -> & ids & excl & Hgcf).
    split; [reflexivity|]. split; [reflexivity|]. split; [left; reflexivity|].
    exists ids, excl. do 4 right. exact Hgcf.
Qed.

(** X10: every attempt hands [queryFunc] the clients that the call of
    [GetClientsFor] of the same attempt returned, with the time range the
    finder was asked for: the minimum time given and the maximum time as it
    was lowered. *)
Theorem attempts_use_finder_range (minT maxT : Z) (shard : option (N * N)) (w : W)
    k cl lo hi res :
  let run := queryWithConsistencyCheck minT maxT shard w in
  In (EvQueryFunc k cl lo hi res) (runEvents run) →
  lo = minT ∧ hi ≤ maxT
  ∧ In (EvGetBlocks lo hi) (runEvents run)
  ∧ ∃ ids excl, In (EvGetClientsFor k ids excl (inr cl)) (runEvents run).
Proof.
  cbv zeta.
  destruct (queryWithConsistencyCheck_case minT maxT shard w) as [->|(hi0 & Hhi & ->)].
  - intros [Heq|[]]; discriminate.
  - intros Hin. destruct (queryBlocks_query_range _ _ _ _ _ _ _ _ _ Hin)
      as (-> & -> & Hgb & Hgcf).
    split; [reflexivity|]. split; [exact Hhi|]. split; assumption.
Qed.

(** **** Blocks found and blocks queried *)

Lemma firstAttempt_events (blocks : list Block) (marks : Marks) (minT maxT : Z) (w : W)
    (ev : Event Err Client) :
  In ev (runEvents (firstAttempt blocks marks minT maxT w)) → isAttemptEvent ev = true.
Proof. apply attemptsLoop_events. Qed.

(** X11: the blocks queried are never more than the blocks the finder found,
    and the blocks counted as incompatible with the query shard are among
    the blocks queried; no store-gateway is asked before the finder has
    found a block. *)
Theorem blocks_queried_within_found (minT maxT : Z) (shard : option (N * N)) (w : W) :
  let events := runEvents (queryWithConsistencyCheck minT maxT shard w) in
  (∀ queried, In (EvBlocksQueried queried) events →
     ∃ found, In (EvBlocksFound found) events ∧ 0 ≤ queried ≤ found)
  ∧ (∀ incompatible, In (EvIncompatibleQueryShard incompatible) events →
       ∃ queried, In (EvBlocksQueried queried) events ∧ 0 ≤ incompatible ≤ queried)
  ∧ (∀ k ids excl res, In (EvGetClientsFor k ids excl res) events →
       ∃ found, In (EvBlocksFound found) events ∧ 0 < found).
Proof.
  cbv zeta.
  destruct (queryWithConsistencyCheck_case minT maxT shard w) as [->|(hi & _ & ->)].
  { cbn [runEvents]. repeat split; intros; repeat destruct H as [H|H]; try discriminate;
      destruct H. }
  destruct (queryBlocks_case minT hi shard w)
    as [w1 err _ ->|w1 marks _ ->|w1 known marks _ ->
        |w1 known marks _ Hne ->|w1 known marks result inc _ Hne Hsub Hinc ->];
    cbn [prepend runEvents app].
  1-3: repeat split; intros; repeat destruct H as [H|H]; try discriminate; destruct H.
  - assert (Hpos : 0 < Z.of_nat (length known)) by (destruct known; [congruence | cbn; lia]).
    split; [|split].
    + intros queried [Heq|[Heq|[Heq|Hin]]]; try discriminate.
      * injection Heq as <-. eexists. split; [right; left; reflexivity | lia].
      * apply firstAttempt_events in Hin. discriminate.
    + intros incompatible [Heq|[Heq|[Heq|Hin]]]; try discriminate.
      apply firstAttempt_events in Hin. discriminate.
    + intros k ids excl res _. eexists. split; [right; left; reflexivity | exact Hpos].
  - assert (Hpos : 0 < Z.of_nat (length known)) by (destruct known; [congruence | cbn; lia]).
    pose proof (sublist_length _ _ Hsub) as Hlen.
    split; [|split].
    + intros queried [Heq|[Heq|[Heq|[Heq|Hin]]]]; try discriminate.
      * injection Heq as <-. eexists. split; [right; left; reflexivity | lia].
      * apply firstAttempt_events in Hin. discriminate.
    + intros incompatible [Heq|[Heq|[Heq|[Heq|Hin]]]]; try discriminate.
      * injection Heq as <-. eexists. split; [do 3 right; left; reflexivity | lia].
      * apply firstAttempt_events in Hin. discriminate.
    + intros k ids excl res _. eexists. split; [right; left; reflexivity | exact Hpos].
Qed.

(** **** An error of [queryFunc] *)

(** X12: an error returned by [queryFunc] ends the call at once: the call
    returns that error as it is, nothing is done after it, so the attempt is
    not repeated and no metric of a finished call is observed. *)
Theorem queryFunc_error_ends_call (minT maxT : Z) (shard : option (N * N)) (w : W)
    k clients lo hi e :
  let run := queryWithConsistencyCheck minT maxT shard w in
  In (EvQueryFunc k clients lo hi (inl e)) (runEvents run) →
  runResult run = Ret (Some (Upstream e))
  ∧ last (runEvents run) = Some (EvQueryFunc k clients lo hi (inl e)).
Proof.
  cbv zeta. intros Hin.
  destruct (queryWithConsistencyCheck_query_error minT maxT shard w _ _ _ _ _ Hin)
    as [Hres [pre Hpre]].
  split; [exact Hres|]. rewrite Hpre. apply last_snoc.
Qed.

(** **** How a call comes to return [nil] *)

(** What a run that returns [nil] from the loop ends with, and what a run
    that does not return [nil] never observes. *)
Definition FinishSpec (attempt : Z) (r : Run W Err Client) : Prop :=
  (runResult r = Ret None →
   ∃ pre queried stores,
     runEvents r
     = pre ++ [EvCheck queried []; EvStoresHit stores;
               EvRefetches (attempt + Z.of_nat (length (List.filter isQueryFunc (runEvents r))) - 2)]
     ∧ (∀ ev, In ev pre → isMetric ev = false))
  ∧ (runResult r ≠ Ret None → ∀ ev, In ev (runEvents r) → isMetric ev = false).

Lemma attemptsLoop_finish (known : list Block) (marks : Marks) (minT maxT : Z)
    (fuel : nat) :
  ∀ (attempt : Z) (st : LoopState) (w : W),
    FinishSpec attempt (attemptsLoop fuel known marks minT maxT attempt st w).
Proof.
  assert (Hfail : ∀ attempt (r : Run W Err Client),
    runResult r ≠ Ret None →
    (∀ ev, In ev (runEvents r) → isMetric ev = false) →
    FinishSpec attempt r).
  { intros attempt r Hres Hev. split; [intros Hnil; destruct (Hres Hnil) | intros _; exact Hev]. }
  induction fuel as [|fuel IH]; intros attempt st w; cbn [attemptsLoop];
    destruct (attempt <=? maxFetchSeriesAttempts);
    try (apply Hfail; [discriminate | intros ev []]).
  destruct (GetClientsFor w (remainingBlocks st) (attemptedBlocks st))
    as [w1 [err|clients]].
  { destruct (1 <? attempt); (apply Hfail; [discriminate | intros ev [<-|[]]; reflexivity]). }
  destruct (queryFunc w1 clients minT maxT) as [w2 [[err|queried]| |]].
  1,3,4: apply Hfail; [discriminate|];
    cbn [emit runEvents]; intros ev Hin; repeat destruct Hin as [<-|Hin];
    try reflexivity; destruct Hin.
  cbn zeta.
  destruct (recordAttempt (touchedStores st) (attemptedBlocks st) clients)
    as [touched attempted].
  destruct (Check w2 known marks (resQueriedBlocks st ++ queried)) as [w3 missing].
  destruct (length missing =? 0)%nat eqn:Hmissing.
  - apply Nat.eqb_eq, length_zero_iff_nil in Hmissing. subst missing.
    split; [|intros Hres; destruct Hres; reflexivity]. intros _.
    cbn [emit runEvents runResult List.filter isQueryFunc length].
    eexists [_; _], _, _. split.
    + cbn [app]. replace (attempt + Z.of_nat 1 - 2) with (attempt - 1) by lia.
      reflexivity.
    + intros ev [<-|[<-|[]]]; reflexivity.
  - destruct (IH (attempt + 1) (mkLoopState missing attempted touched
                                  (resQueriedBlocks st ++ queried)) w3) as [Hnil Hother].
    split.
    + intros Hres. cbn [emit runEvents runResult] in *.
      destruct (Hnil Hres) as (pre & q & stores & Hev & Hpre).
      exists (EvGetClientsFor attempt (remainingBlocks st) (attemptedBlocks st) (inr clients)
              :: EvQueryFunc attempt clients minT maxT (inr queried)
              :: EvCheck (resQueriedBlocks st ++ queried) missing :: pre), q, stores.
      split.
      * cbn [List.filter isQueryFunc length app].
        set (n := length (List.filter isQueryFunc _)) in *.
        replace (attempt + Z.of_nat (S n) - 2) with (attempt + 1 + Z.of_nat n - 2) by lia.
        rewrite Hev. reflexivity.
      * intros ev [<-|[<-|[<-|Hin]]]; try reflexivity. apply Hpre, Hin.
    + intros Hres ev. cbn [emit runEvents runResult] in *.
      intros [<-|[<-|[<-|Hin]]]; try reflexivity. apply (Hother Hres), Hin.
Qed.

Lemma filter_isQueryFunc_prepend (pre events : list (Event Err Client)) :
  (∀ ev, In ev pre → isQueryFunc ev = false) →
  List.filter isQueryFunc (pre ++ events) = List.filter isQueryFunc events.
Proof.
  intros Hpre. rewrite List.filter_app.
  replace (List.filter isQueryFunc pre) with (@nil (Event Err Client)); [reflexivity|].
  symmetry. induction pre as [|ev pre IH]; [reflexivity|]. cbn [List.filter].
  rewrite (Hpre ev) by (left; reflexivity). apply IH. intros ev' Hin. apply Hpre. right. exact Hin.
Qed.

(** X13: a call returns [nil] only without having asked a store-gateway,
    observing 0 stores hit as its last act, or after a consistency check
    that found no block missing, observing then the stores hit and, as the
    refetches, the number of calls of [queryFunc] less one, and no metric
    before; a call that does not return [nil] observes neither metric. *)
Theorem nil_only_after_clean_check (minT maxT : Z) (shard : option (N * N)) (w : W) :
  let run := queryWithConsistencyCheck minT maxT shard w in
  (runResult run = Ret None →
     (last (runEvents run) = Some (EvStoresHit 0)
      ∧ ∀ ev, In ev (runEvents run) → isGetClientsFor ev = false)
     ∨ ∃ pre queried stores,
         runEvents run
         = pre ++ [EvCheck queried []; EvStoresHit stores;
                   EvRefetches
                     (Z.of_nat (length (List.filter isQueryFunc (runEvents run))) - 1)]
         ∧ ∀ ev, In ev pre → isMetric ev = false)
  ∧ (runResult run ≠ Ret None → ∀ ev, In ev (runEvents run) → isMetric ev = false).
Proof.
  cbv zeta.
  destruct (queryWithConsistencyCheck_case minT maxT shard w) as [->|(hi & _ & ->)].
  { split; [|intros Hres; destruct Hres; reflexivity].
    intros _. left. split; [reflexivity|]. intros ev [<-|[]]. reflexivity. }
  assert (Hloop : ∀ (pre : list (Event Err Client)) blocks marks w1,
    (∀ ev, In ev pre → isAttemptEvent ev = false) →
    let r := prepend pre (firstAttempt blocks marks minT hi w1) in
    (runResult r = Ret None →
       ∃ pre' queried stores,
         runEvents r
         = pre' ++ [EvCheck queried []; EvStoresHit stores;
                    EvRefetches (Z.of_nat (length (List.filter isQueryFunc (runEvents r))) - 1)]
         ∧ ∀ ev, In ev pre' → isMetric ev = false)
    ∧ (runResult r ≠ Ret None → ∀ ev, In ev (runEvents r) → isMetric ev = false)).
  { intros pre blocks marks w1 Hpre r.
    destruct (attemptsLoop_finish blocks marks minT hi (Z.to_nat maxFetchSeriesAttempts) 1
                (mkLoopState (GetULIDs blocks) ∅ ∅ []) w1) as [Hnil Hother].
    fold (firstAttempt blocks marks minT hi w1) in Hnil, Hother.
    assert (Hmetric : ∀ ev, In ev pre → isMetric ev = false).
    { intros ev Hin. specialize (Hpre ev Hin). destruct ev; try reflexivity; discriminate. }
    assert (Hquery : ∀ ev, In ev pre → isQueryFunc ev = false).
    { intros ev Hin. specialize (Hpre ev Hin). destruct ev; try reflexivity; discriminate. }
    unfold r. cbn [prepend runEvents runResult]. split.
    - intros Hres. destruct (Hnil Hres) as (pre' & q & stores & Hev & Hpre').
      exists (pre ++ pre'), q, stores. split.
      + rewrite (filter_isQueryFunc_prepend pre _ Hquery), <- app_assoc. f_equal.
        set (n := length (List.filter isQueryFunc _)) in *.
        replace (1 + Z.of_nat n - 2) with (Z.of_nat n - 1) in Hev by lia.
        exact Hev.
      + intros ev [Hin|Hin]%in_app_iff; [apply Hmetric, Hin | apply Hpre', Hin].
    - intros Hres ev [Hin|Hin]%in_app_iff; [apply Hmetric, Hin | apply (Hother Hres), Hin]. }
  destruct (queryBlocks_case minT hi shard w)
    as [w1 err _ ->|w1 marks _ ->|w1 known marks _ ->
        |w1 known marks _ Hne ->|w1 known marks result inc _ Hne Hsub Hinc ->].
  - split; [discriminate|]. intros _ ev [<-|[]]. reflexivity.
  - split; [|intros Hres; destruct Hres; reflexivity].
    intros _. left. split; [reflexivity|]. intros ev [<-|[<-|[]]]; reflexivity.
  - split; [discriminate|]. intros _ ev [<-|[<-|[]]]; reflexivity.
  - destruct (Hloop [EvGetBlocks minT hi; EvBlocksFound (Z.of_nat (length known));
                     EvBlocksQueried (Z.of_nat (length known))] known marks w1)
      as [Hnil Hother].
    { intros ev [<-|[<-|[<-|[]]]]; reflexivity. }
    split; [intros Hres; right; exact (Hnil Hres) | exact Hother].
  - destruct (Hloop [EvGetBlocks minT hi; EvBlocksFound (Z.of_nat (length known));
                     EvIncompatibleQueryShard inc;
                     EvBlocksQueried (Z.of_nat (length result))] result marks w1)
      as [Hnil Hother].
    { intros ev [<-|[<-|[<-|[<-|[]]]]]; reflexivity. }
    split; [intros Hres; right; exact (Hnil Hres) | exact Hother].
Qed.


(** **** The first attempt *)

Lemma attemptsLoop_requests (known : list Block) (marks : Marks) (minT maxT : Z)
    (fuel : nat) :
  ∀ (attempt : Z) (st : LoopState) (w : W) k ids excl res,
    In (EvGetClientsFor k ids excl res)
       (runEvents (attemptsLoop fuel known marks minT maxT attempt st w)) →
    attempt ≤ k ≤ maxFetchSeriesAttempts
    ∧ (k = attempt → ids = remainingBlocks st ∧ excl = attemptedBlocks st).
Proof.
  induction fuel as [|fuel IH]; intros attempt st w k ids excl res; cbn [attemptsLoop];
    destruct (Z.leb_spec attempt maxFetchSeriesAttempts);
    try (intros Hnil; exact (False_ind _ Hnil)).
  destruct (GetClientsFor w (remainingBlocks st) (attemptedBlocks st))
    as [w1 [err|clients]].
  { destruct (1 <? attempt); intros [Heq|[]]; injection Heq as <- <- <- <-;
      (split; [lia | auto]). }
  cbn [emit runEvents]. intros [Heq|Hin]; [injection Heq as <- <- <- <-; split; [lia | auto]|].
  revert Hin.
  destruct (queryFunc w1 clients minT maxT) as [w2 [[err|queried]| |]];
    cbn [emit runEvents]; try (intros Hnil; exact (False_ind _ Hnil)).
  { intros [Heq|[]]. discriminate. }
  cbn zeta.
  destruct (recordAttempt (touchedStores st) (attemptedBlocks st) clients)
    as [touched attempted].
  destruct (Check w2 known marks (resQueriedBlocks st ++ queried)) as [w3 missing].
  cbn [emit runEvents]. intros [Heq|[Heq|Hin]]; try discriminate. revert Hin.
  destruct (length missing =? 0)%nat.
  - intros [Heq|[Heq|[]]]; discriminate.
  - intros Hin. destruct (IH _ _ _ _ _ _ _ Hin) as [Hk _]. split; lia.
Qed.

(** X14: the attempts are numbered from one to three, and the first asks
    [GetClientsFor] for as many blocks as were counted as queried, which are
    all the blocks found or all those the shard filter kept, with nothing to
    exclude. *)
Theorem first_attempt_asks_for_all_blocks (minT maxT : Z) (shard : option (N * N)) (w : W)
    k ids excl res :
  let events := runEvents (queryWithConsistencyCheck minT maxT shard w) in
  In (EvGetClientsFor k ids excl res) events →
  1 ≤ k ≤ 3
  ∧ (k = 1 → excl = ∅ ∧ In (EvBlocksQueried (Z.of_nat (length ids))) events).
Proof.
  cbv zeta.
  destruct (queryWithConsistencyCheck_case minT maxT shard w) as [->|(hi & _ & ->)].
  { intros [Heq|[]]. discriminate. }
  assert (Hfirst : ∀ blocks marks w1,
    In (EvGetClientsFor k ids excl res) (runEvents (firstAttempt blocks marks minT hi w1)) →
    1 ≤ k ≤ 3 ∧ (k = 1 → excl = ∅ ∧ length ids = length blocks)).
  { intros blocks marks w1 Hin.
    destruct (attemptsLoop_requests _ _ _ _ _ _ _ _ _ _ _ _ Hin) as [Hk Hone].
    split; [exact Hk|]. intros ->. destruct (Hone eq_refl) as [-> ->].
    split; [reflexivity|]. cbn [remainingBlocks]. unfold GetULIDs. apply length_map. }
  destruct (queryBlocks_case minT hi shard w)
    as [w1 err _ ->|w1 marks _ ->|w1 known marks _ ->
        |w1 known marks _ _ ->|w1 known marks result inc _ _ _ _ ->];
    cbn [prepend runEvents app].
  - intros [Heq|[]]; discriminate.
  - intros [Heq|[Heq|[]]]; discriminate.
  - intros [Heq|[Heq|[]]]; discriminate.
  - intros [Heq|[Heq|[Heq|Hin]]]; try discriminate.
    destruct (Hfirst _ _ _ Hin) as [Hk Hone]. split; [exact Hk|].
    intros Hk1. destruct (Hone Hk1) as [-> ->]. split; [reflexivity|].
    do 2 right. left. reflexivity.
  - intros [Heq|[Heq|[Heq|[Heq|Hin]]]]; try discriminate.
    destruct (Hfirst _ _ _ Hin) as [Hk Hone]. split; [exact Hk|].
    intros Hk1. destruct (Hone Hk1) as [-> ->]. split; [reflexivity|].
    do 3 right. left. reflexivity.
Qed.

(** **** From one attempt to the next *)





(** **** What the collaborators preserve *)

Section WorldInvariant.

(** A property of the state outside the call that every collaborator
    preserves. *)
Variable P : W → Prop.
Hypothesis P_GetBlocks : ∀ w minT maxT, P w → P (GetBlocks w minT maxT).1.
Hypothesis P_GetClientsFor : ∀ w ids excl, P w → P (GetClientsFor w ids excl).1.
Hypothesis P_Check : ∀ w known marks queried, P w → P (Check w known marks queried).1.
Hypothesis P_queryFunc : ∀ w clients minT maxT, P w → P (queryFunc w clients minT maxT).1.

Lemma attemptsLoop_preserves (known : list Block) (marks : Marks) (minT maxT : Z)
    (fuel : nat) :
  ∀ (attempt : Z) (st : LoopState) (w : W),
    P w → P (runWorld (attemptsLoop fuel known marks minT maxT attempt st w)).
Proof.
  induction fuel as [|fuel IH]; intros attempt st w Hw; cbn [attemptsLoop];
    destruct (attempt <=? maxFetchSeriesAttempts); try exact Hw.
  pose proof (P_GetClientsFor w (remainingBlocks st) (attemptedBlocks st) Hw) as Hw1.
  destruct (GetClientsFor w (remainingBlocks st) (attemptedBlocks st))
    as [w1 [err|clients]]; cbn [fst] in Hw1.
  { destruct (1 <? attempt); exact Hw1. }
  pose proof (P_queryFunc w1 clients minT maxT Hw1) as Hw2.
  destruct (queryFunc w1 clients minT maxT) as [w2 [[err|queried]| |]];
    cbn [fst] in Hw2; try exact Hw2.
  cbn zeta.
  destruct (recordAttempt (touchedStores st) (attemptedBlocks st) clients)
    as [touched attempted].
  pose proof (P_Check w2 known marks (resQueriedBlocks st ++ queried) Hw2) as Hw3.
  destruct (Check w2 known marks (resQueriedBlocks st ++ queried)) as [w3 missing].
  cbn [fst] in Hw3. cbn [emit runWorld].
  destruct (length missing =? 0)%nat; [exact Hw3 | apply IH, Hw3].
Qed.

Lemma queryWithConsistencyCheck_preserves (minT maxT : Z) (shard : option (N * N)) (w : W) :
  P w → P (runWorld (queryWithConsistencyCheck minT maxT shard w)).
Proof.
  intros Hw.
  destruct (queryWithConsistencyCheck_case minT maxT shard w) as [->|(hi & _ & ->)];
    [exact Hw|].
  pose proof (P_GetBlocks w minT hi Hw) as Hw1.
  destruct (queryBlocks_case minT hi shard w)
    as [w1 err Hfound ->|w1 marks Hfound ->|w1 known marks Hfound ->
        |w1 known marks Hfound _ ->|w1 known marks result inc Hfound _ _ _ ->];
    rewrite Hfound in Hw1; cbn [fst] in Hw1; cbn [prepend runWorld];
    try exact Hw1; apply attemptsLoop_preserves, Hw1.
Qed.

End WorldInvariant.
End Coordinator.


(** *** Worked instances

    Two blocks, store-gateways named by their address, a finder that always
    finds the two blocks, a consistency check that reports the known blocks
    no store-gateway reported, and store-gateways that only ever report the
    first block. *)

Definition demoBlocks : list Block :=
  [ ShardFilter.sampleBlock 1 ""; ShardFilter.sampleBlock 2 "" ].

Definition demoNow (w : unit) : Z := 1000000000000.

Definition demoTimeToMillis (t : Z) : Z := t / 1000000.

Definition demoGetBlocks (w : unit) (minT maxT : Z)
    : unit * (string + list Block * unit) :=
  (w, inr (demoBlocks, tt)).

Definition demoCheck (w : unit) (known : list Block) (marks : unit) (queried : list ULID)
    : unit * list ULID :=
  (w, List.filter (fun id => negb (existsb (N.eqb id) queried)) (GetULIDs known)).

Definition demoQuery (w : unit) (clients : list (string * list ULID)) (minT maxT : Z)
    : unit * outcome (string + list ULID) :=
  (w, Ret (inr [1%N])).

(** A selector with one store-gateway: it takes every block asked for, once;
    when a block was attempted before, nothing is left. *)
Definition oneGateway (w : unit) (blockIDs : list ULID) (exclude : gmap ULID (list string))
    : unit * (string + list (string * list ULID)) :=
  if decide (exclude = ∅) then (w, inr [("gw-1", [1%N; 2%N])])
  else (w, inl "no store-gateway instance left").


Definition demoCall
    (selector : unit → list ULID → gmap ULID (list string)
                → unit * (string + list (string * list ULID)))
    (queryStoreAfter minT maxT : Z) : Run unit string string :=
  queryWithConsistencyCheck (fun addr : string => addr) demoNow demoTimeToMillis
    demoGetBlocks selector demoCheck ShardFilter.sampleParse queryStoreAfter demoQuery
    minT maxT None tt.

(** Two store-gateways: the first is asked first and only ever reports the
    first block; the second takes what the first was already tried for. *)
Definition twoGateways (w : unit) (blockIDs : list ULID)
    (exclude : gmap ULID (list string))
    : unit * (string + list (string * list ULID)) :=
  let tried (addr : string) :=
    existsb (fun id => existsb (String.eqb addr) (default [] (exclude !! id))) blockIDs in
  if negb (tried "gw-1") then (w, inr [("gw-1", blockIDs)])
  else if negb (tried "gw-2") then (w, inr [("gw-2", blockIDs)])
  else (w, inl "no store-gateway instance left").

Definition firstBlockOnly (w : unit) (clients : list (string * list ULID)) (minT maxT : Z)
    : unit * outcome (string + list ULID) :=
  (w, Ret (inr (flat_map
                  (fun entry : string * list ULID =>
                     if String.eqb entry.1 "gw-1"
                     then List.filter (N.eqb 1) entry.2
                     else entry.2)
                  clients))).

(** A block missing after the first attempt is found on the second
    store-gateway: one refetch, two stores hit. *)
Example single_retry_recovery :
  let r := queryWithConsistencyCheck (fun addr : string => addr) demoNow demoTimeToMillis
             demoGetBlocks twoGateways demoCheck ShardFilter.sampleParse 0 firstBlockOnly
             0 100 None tt in
  runResult r = Ret None
  ∧ List.filter isGetClientsFor (runEvents r)
    = [ EvGetClientsFor 1 [1%N; 2%N] ∅ (inr [("gw-1", [1%N; 2%N])]);
        EvGetClientsFor 2 [2%N]
          (recordBlocks (fun addr : string => addr) ∅ [("gw-1", [1%N; 2%N])])
          (inr [("gw-2", [2%N])]) ]
  ∧ last (runEvents r) = Some (EvRefetches 1)
  ∧ In (EvStoresHit 2) (runEvents r).
Proof. vm_compute. repeat split; try reflexivity. auto 20. Qed.

(** A selector that keeps to its one store-gateway, whatever was tried. *)
Definition sameGateway (w : unit) (blockIDs : list ULID)
    (exclude : gmap ULID (list string))
    : unit * (string + list (string * list ULID)) :=
  (w, inr [("gw-1", blockIDs)]).

(** The second block is never reported: three attempts, then the failed
    consistency check naming it. *)
Example attempts_exhausted :
  let r := demoCall sameGateway 0 0 100 in
  runResult r = Ret (Some (StoreConsistencyCheckFailed [2%N]))
  ∧ length (List.filter isGetClientsFor (runEvents r)) = 3%nat
  ∧ runAttempted r !! 2%N = Some ["gw-1"; "gw-1"; "gw-1"].
Proof. vm_compute. repeat split; reflexivity. Qed.

Lemma queryWithConsistencyCheck_queryStoreAfter_witness :
  demoCall oneGateway 3600000000000 0 100
  = mkRun tt [EvStoresHit 0] ∅ (Ret None).
Proof.
  apply (queryWithConsistencyCheck_queryStoreAfter (fun addr : string => addr)
           demoNow demoTimeToMillis demoGetBlocks oneGateway demoCheck
           ShardFilter.sampleParse 3600000000000 demoQuery 0 100 None tt).
  - lia.
  - vm_compute. reflexivity.
Defined.


(** The two store-gateways keep to the contracts of the selector: the one
    they choose was tried for none of the blocks asked for, and it is given
    the blocks asked for. *)
Lemma twoGateways_respects_exclusion :
  selectorRespectsExclusion (fun addr : string => addr) twoGateways.
Proof.
  assert (Hfresh : ∀ (addr : string) blockIDs (exclude : gmap ULID (list string)),
    existsb (fun id => existsb (String.eqb addr) (default [] (exclude !! id))) blockIDs
    = false →
    respectsExclusion (fun addr : string => addr) exclude [(addr, blockIDs)]).
  { intros addr blockIDs exclude Htried blockID addr' Hin Hexcl.
    unfold assignmentPairs in Hin. cbn [flat_map fst snd] in Hin.
    rewrite app_nil_r in Hin. apply in_map_iff in Hin as (id & [= <- <-] & Hid).
    assert (Hyes : existsb (fun id => existsb (String.eqb addr)
                                        (default [] (exclude !! id))) blockIDs = true).
    { apply existsb_exists. exists id. split; [exact Hid|].
      apply existsb_exists. exists addr. split; [exact Hexcl | apply String.eqb_refl]. }
    congruence. }
  intros w blockIDs exclude w' clients. unfold twoGateways. cbn zeta.
  destruct (existsb _ blockIDs) eqn:Hfirst; cbn [negb].
  - destruct (existsb (fun id => existsb (String.eqb "gw-2") _) blockIDs) eqn:Hsecond;
      cbn [negb]; [discriminate|].
    intros [= _ <-]. apply Hfresh, Hsecond.
  - intros [= _ <-]. apply Hfresh, Hfirst.
Qed.

Lemma twoGateways_assigns_once :
  selectorAssignsOnce (fun addr : string => addr) twoGateways.
Proof.
  apply assignsRequested_once.
  assert (Hsame : ∀ (addr : string) (blockIDs : list ULID),
    map fst (assignmentPairs (fun addr : string => addr) [(addr, blockIDs)]) = blockIDs).
  { intros addr blockIDs. unfold assignmentPairs. cbn [flat_map fst snd].
    rewrite app_nil_r, map_map. cbn [fst]. apply map_id. }
  intros w blockIDs exclude w' clients. unfold twoGateways. cbn zeta.
  destruct (negb _); [intros [= _ <-]; rewrite Hsame; reflexivity|].
  destruct (negb _); [intros [= _ <-]; rewrite Hsame; reflexivity | discriminate].
Qed.

Lemma demoGetBlocks_lists_once : finderListsOnce demoGetBlocks.
Proof.
  intros w minT maxT w' blocks marks [= _ <- _]. cbn.
  apply NoDup_cons_2; [|apply NoDup_singleton].
  intros Hin. apply list_elem_of_In in Hin. destruct Hin as [Heq|[]]. discriminate.
Qed.

Lemma demoCheck_lists_once : checkerListsOnce demoCheck.
Proof.
  intros w known marks queried Hknown. cbn [demoCheck snd].
  apply NoDup_ListNoDup, List.NoDup_filter, NoDup_ListNoDup, Hknown.
Qed.

(** The second block is tried on the first store-gateway, found missing, and
    tried again on the second: two attempts are recorded for it, at two
    addresses. *)
Lemma attempted_pairs_recorded_once_witness :
  let r := queryWithConsistencyCheck (fun addr : string => addr) demoNow demoTimeToMillis
             demoGetBlocks twoGateways demoCheck ShardFilter.sampleParse 0 firstBlockOnly
             0 100 None tt in
  NoDupAttempted (runAttempted r)
  ∧ runAttempted r !! 1%N = Some ["gw-1"]
  ∧ runAttempted r !! 2%N = Some ["gw-1"; "gw-2"].
Proof.
  split.
  - apply (attempted_pairs_recorded_once (fun addr : string => addr)
             demoNow demoTimeToMillis demoGetBlocks twoGateways demoCheck
             ShardFilter.sampleParse 0 firstBlockOnly 0 100 None tt
             twoGateways_respects_exclusion twoGateways_assigns_once
             demoGetBlocks_lists_once demoCheck_lists_once).
  - vm_compute. split; reflexivity.
Defined.

Lemma label_queries_clamp_time_range_witness :
  labelsMinT 3600000000000 0 10000000 = 6400000
  ∧ 10000000 - labelsMinT 3600000000000 0 10000000 ≤ durationMillis 3600000000000.
Proof.
  pose proof (label_queries_clamp_time_range (fun addr : string => addr)
                demoNow demoTimeToMillis demoGetBlocks oneGateway demoCheck
                ShardFilter.sampleParse 0 demoQuery 3600000000000 0 10000000 tt) as H.
  cbv zeta in H.
  destruct H as (Heq & _ & Hwidth & _).
  - unfold in_int64, min_int64, max_int64. lia.
  - unfold max_int64. lia.
  - split; [|exact Hwidth]. rewrite Heq; [reflexivity|].
    vm_compute. discriminate.
Defined.


(** A [queryFunc] that fails. *)
Definition failingQuery (w : unit) (clients : list (string * list ULID)) (minT maxT : Z)
    : unit * outcome (string + list ULID) :=
  (w, Ret (inl "store-gateway timeout")).

Lemma attempts_use_finder_range_witness :
  In (EvGetBlocks 0 100) (runEvents (demoCall oneGateway 0 0 100)).
Proof.
  apply (attempts_use_finder_range (fun addr : string => addr)
           demoNow demoTimeToMillis demoGetBlocks oneGateway demoCheck
           ShardFilter.sampleParse 0 demoQuery 0 100 None tt
           1 [("gw-1", [1%N; 2%N])] 0 100 (inr [1%N])).
  vm_compute. auto 20.
Defined.

Lemma blocks_queried_within_found_witness :
  ∃ found, In (EvBlocksFound found) (runEvents (demoCall oneGateway 0 0 100))
           ∧ 0 ≤ 2 ≤ found.
Proof.
  apply (blocks_queried_within_found (fun addr : string => addr)
           demoNow demoTimeToMillis demoGetBlocks oneGateway demoCheck
           ShardFilter.sampleParse 0 demoQuery 0 100 None tt).
  vm_compute. auto 20.
Defined.

Lemma queryFunc_error_ends_call_witness :
  runResult (queryWithConsistencyCheck (fun addr : string => addr) demoNow
               demoTimeToMillis demoGetBlocks oneGateway demoCheck
               ShardFilter.sampleParse 0 failingQuery 0 100 None tt)
  = Ret (Some (Upstream "store-gateway timeout")).
Proof.
  apply (queryFunc_error_ends_call (fun addr : string => addr)
           demoNow demoTimeToMillis demoGetBlocks oneGateway demoCheck
           ShardFilter.sampleParse 0 failingQuery 0 100 None tt
           1 [("gw-1", [1%N; 2%N])] 0 100).
  vm_compute. auto 20.
Defined.

Lemma nil_only_after_clean_check_witness :
  let r := queryWithConsistencyCheck (fun addr : string => addr) demoNow demoTimeToMillis
             demoGetBlocks twoGateways demoCheck ShardFilter.sampleParse 0 firstBlockOnly
             0 100 None tt in
  (last (runEvents r) = Some (EvStoresHit 0)
   ∧ ∀ ev, In ev (runEvents r) → isGetClientsFor ev = false)
  ∨ ∃ pre queried stores,
      runEvents r
      = pre ++ [EvCheck queried []; EvStoresHit stores;
                EvRefetches (Z.of_nat (length (List.filter isQueryFunc (runEvents r))) - 1)]
      ∧ ∀ ev, In ev pre → isMetric ev = false.
Proof.
  apply (nil_only_after_clean_check (fun addr : string => addr)
           demoNow demoTimeToMillis demoGetBlocks twoGateways demoCheck
           ShardFilter.sampleParse 0 firstBlockOnly 0 100 None tt).
  vm_compute. reflexivity.
Defined.

Lemma first_attempt_asks_for_all_blocks_witness :
  In (EvBlocksQueried 2) (runEvents (demoCall oneGateway 0 0 100)).
Proof.
  apply (first_attempt_asks_for_all_blocks (fun addr : string => addr)
           demoNow demoTimeToMillis demoGetBlocks oneGateway demoCheck
           ShardFilter.sampleParse 0 demoQuery 0 100 None tt
           1 [1%N; 2%N] ∅ (inr [("gw-1", [1%N; 2%N])])).
  - vm_compute. auto 20.
  - reflexivity.
Defined.
End Querier.

(** ** The Series path: streams from the store-gateways *)

Module SeriesPath.

(** Go's [int32]. *)
Definition wrap32 (z : Z) : Z := (z + 2 ^ 31) mod 2 ^ 32 - 2 ^ 31.

(** [storepb.Series]: the labels, and the chunks given by their sizes in
    bytes. *)
Record Series : Type := mkSeries {
  Labels : list (string * string);
  Chunks : list Z
}.

(** [countChunksAndBytes]. *)
Definition countChunksAndBytes (series : list Series) : Z * Z :=
  fold_left
    (fun (acc : Z * Z) (s : Series) =>
       (acc.1 + Z.of_nat (length (Chunks s)),
        fold_left (fun bytes c => bytes + c) (Chunks s) acc.2))
    series (0, 0).

(** What a task of [fetchSeriesFromStores] returns as its error: a limit
    error, an error wrapped with a message, the error of the group's context,
    or an error of a collaborator. *)
Inductive LimitMessage : Type :=
| MaxChunksPerQueryLimit (matchers : string) (limit : Z)
| LimiterMessage (msg : string).

Inductive TaskError (E : Type) : Type :=
| External (e : E)
| LimitError (msg : LimitMessage)
| Wrapf (cause : TaskError E) (msg : string).

Arguments External {E} e.
Arguments LimitError {E} msg.
Arguments Wrapf {E} cause msg.

Section Fetch.

Context {E Client : Type}.

Variable RemoteAddress : Client → string.

(** [context.Canceled], the error of the group's context once a task has
    failed. *)
Variable Canceled : E.

(** A frame of a stream.  A hints frame is given by what unmarshalling it
    yields: an error, or for each queried block what [ulid.Parse] makes of
    its identifier. *)
Inductive Frame : Type :=
| FrameSeries (s : Series)
| FrameWarning (w : string)
| FrameHints (h : E + list (E + ULID)).

(** What [stream.Recv()] returns. *)
Inductive Received : Type :=
| RecvEOF
| RecvError (e : E)
| RecvFrame (f : Frame).

(** What the query limiter of the request answers while a series frame is
    handled: for each of its three checks the message of the error, if
    any. *)
Record Verdicts : Type := mkVerdicts {
  addSeries : option string;
  addChunkBytes : option string;
  addChunks : option string
}.

(** The variables of one task. *)
Record Local : Type := mkLocal {
  mySeries : list Series;
  myWarnings : list string;
  myQueriedBlocks : list ULID
}.

(** Where a task stands: not yet started, at the head of its loop, waiting in
    [stream.Recv()], or returned. *)
Inductive Task : Type :=
| Created
| AtLoopHead (l : Local)
| Receiving (l : Local)
| Returned (err : option (TaskError E)).

(** What the tasks share: the counter of chunks, the error group and its
    context, and the results under the mutex. *)
Record Shared : Type := mkShared {
  tasks : list Task;
  numChunks : Z;
  groupErr : option (TaskError E);
  ctxErr : option E;
  seriesSets : list (list Series);
  warnings : list string;
  queriedBlocks : list ULID
}.

(** One atomic step of an execution: the context of the caller ends; a task
    creates its request and opens its stream; a task tests the context of the
    group; a task receives from its stream and handles what it received.  The
    tasks run concurrently and meet only at the atomic counter of chunks, at
    the error group and under the mutex, so an execution is an interleaving
    of such steps, each taken at the point where it touches what is shared;
    the query limiter, which the tasks also share, is given by its answers.
    The step of a task that is not at that point does nothing.  The request
    statistics and the logs are left out. *)
Inductive Step : Type :=
| StepParentDone (e : E)
| StepOpen (i : nat) (marshal : option E) (open : option E)
| StepCheck (i : nat)
| StepRecv (i : nat) (r : Received) (v : Verdicts).

(** [convertBlockHintsToULIDs]. *)
Fixpoint convertBlockHintsToULIDs (hints : list (E + ULID)) : E + list ULID :=
  match hints with
  | [] => inr []
  | inl err :: _ => inl err
  | inr blockID :: rest =>
      match convertBlockHintsToULIDs rest with
      | inl err => inl err
      | inr res => inr (blockID :: res)
      end
  end.

(** A task moves on. *)
Definition continue (i : nat) (t : Task) (s : Shared) : Shared :=
  mkShared (<[i := t]> (tasks s)) (numChunks s) (groupErr s) (ctxErr s)
    (seriesSets s) (warnings s) (queriedBlocks s).

(** A task returns: the first error returned in the group is kept and
    cancels the context of the group. *)
Definition finish (i : nat) (err : option (TaskError E)) (s : Shared) : Shared :=
  match err with
  | None => continue i (Returned None) s
  | Some e =>
      mkShared (<[i := Returned (Some e)]> (tasks s)) (numChunks s)
        (match groupErr s with Some first => Some first | None => Some e end)
        (match groupErr s, ctxErr s with
         | None, None => Some Canceled
         | _, c => c
         end)
        (seriesSets s) (warnings s) (queriedBlocks s)
  end.

(** The end of a stream: the task stores what it gathered. *)
Definition store (i : nat) (l : Local) (s : Shared) : Shared :=
  mkShared (<[i := Returned None]> (tasks s)) (numChunks s) (groupErr s) (ctxErr s)
    (seriesSets s ++ [mySeries l])
    (warnings s ++ myWarnings l)
    (queriedBlocks s ++ myQueriedBlocks l).

Section Attempt.

(** An attempt: the clients with the blocks assigned to them, the matchers as
    the limit message prints them, and the two limits on chunks. *)
Variable clients : list (Client * list ULID).
Variable matchers : string.
Variable maxChunksLimit : Z.
Variable leftChunksLimit : Z.

(** A series frame. *)
Definition handleSeries (i : nat) (l : Local) (sr : Series) (v : Verdicts) (s : Shared)
    : Shared :=
  let l := mkLocal (mySeries l ++ [sr]) (myWarnings l) (myQueriedBlocks l) in
  match addSeries v with
  | Some limitErr => finish i (Some (LimitError (LimiterMessage limitErr))) s
  | None =>
      let '(chunksCount, chunksSize) := countChunksAndBytes [sr] in
      let actual :=
        if 0 <? maxChunksLimit then wrap32 (numChunks s + wrap32 chunksCount)
        else numChunks s in
      let s := mkShared (tasks s) actual (groupErr s) (ctxErr s)
                 (seriesSets s) (warnings s) (queriedBlocks s) in
      if (0 <? maxChunksLimit) && (wrap32 leftChunksLimit <? actual) then
        finish i (Some (LimitError (MaxChunksPerQueryLimit matchers maxChunksLimit))) s
      else
        match addChunkBytes v with
        | Some chunkBytesLimitErr =>
            finish i (Some (LimitError (LimiterMessage chunkBytesLimitErr))) s
        | None =>
            match addChunks v with
            | Some chunkLimitErr =>
                finish i (Some (LimitError (LimiterMessage chunkLimitErr))) s
            | None => continue i (AtLoopHead l) s
            end
        end
  end.

(** A frame. *)
Definition handleFrame (i : nat) (l : Local) (f : Frame) (v : Verdicts) (s : Shared)
    : Shared :=
  match f with
  | FrameSeries sr => handleSeries i l sr v s
  | FrameWarning w =>
      if String.eqb w "" then continue i (AtLoopHead l) s
      else continue i
             (AtLoopHead (mkLocal (mySeries l) (myWarnings l ++ [w]) (myQueriedBlocks l))) s
  | FrameHints (inl err) =>
      let addr := default "" (RemoteAddress <$> (fst <$> clients !! i)) in
      finish i
        (Some (Wrapf (External err) ("failed to unmarshal series hints from " ++ addr))) s
  | FrameHints (inr hints) =>
      match convertBlockHintsToULIDs hints with
      | inl err =>
          finish i
            (Some (Wrapf (External err)
                     "failed to parse queried block IDs from received hints")) s
      | inr ids =>
          continue i
            (AtLoopHead (mkLocal (mySeries l) (myWarnings l) (myQueriedBlocks l ++ ids))) s
      end
  end.

Definition step (s : Shared) (st : Step) : Shared :=
  match st with
  | StepParentDone e =>
      mkShared (tasks s) (numChunks s) (groupErr s)
        (match ctxErr s with Some c => Some c | None => Some e end)
        (seriesSets s) (warnings s) (queriedBlocks s)
  | StepOpen i marshal open =>
      match tasks s !! i with
      | Some Created =>
          match marshal with
          | Some err =>
              finish i
                (Some (Wrapf (Wrapf (External err) "failed to marshal series request hints")
                         "failed to create series request")) s
          | None =>
              match open with
              | Some err => finish i None s
              | None => continue i (AtLoopHead (mkLocal [] [] [])) s
              end
          end
      | _ => s
      end
  | StepCheck i =>
      match tasks s !! i with
      | Some (AtLoopHead l) =>
          match ctxErr s with
          | Some err => finish i (Some (External err)) s
          | None => continue i (Receiving l) s
          end
      | _ => s
      end
  | StepRecv i r v =>
      match tasks s !! i with
      | Some (Receiving l) =>
          match r with
          | RecvEOF => store i l s
          | RecvError err => finish i None s
          | RecvFrame f => handleFrame i l f v s
          end
      | _ => s
      end
  end.

Definition run (s : Shared) (schedule : list Step) : Shared :=
  fold_left step schedule s.

(** One task for each client, none started. *)
Definition start : Shared :=
  mkShared (map (fun _ => Created) clients) 0 None None [] [] [].

Definition isReturned (t : Task) : bool :=
  match t with
  | Returned _ => true
  | _ => false
  end.

(** What [fetchSeriesFromStores] returns once every task has returned: the
    first error of the group, or the series sets, the queried blocks, the
    warnings and the number of chunks.  A schedule that leaves a task
    unfinished is not a whole execution. *)
Definition fetchSeriesFromStores (schedule : list Step)
    : outcome (TaskError E + list (list Series) * list ULID * list string * Z) :=
  let s := run start schedule in
  if forallb isReturned (tasks s) then
    match groupErr s with
    | Some err => Ret (inl err)
    | None => Ret (inr (seriesSets s, queriedBlocks s, warnings s, numChunks s))
    end
  else NoFuel.

(** *** What reaches the shared results *)

(** What a step stores under the mutex: the variables of the task whose
    stream ends. *)
Definition stored (s : Shared) (st : Step) : option (nat * Local) :=
  match st with
  | StepRecv i RecvEOF _ =>
      match tasks s !! i with
      | Some (Receiving l) => Some (i, l)
      | _ => None
      end
  | _ => None
  end.

(** The tasks that store their results in the course of a schedule, with what
    they store, in order. *)
Fixpoint storedBy (s : Shared) (schedule : list Step) : list (nat * Local) :=
  match schedule with
  | [] => []
  | st :: rest =>
      match stored s st with
      | Some entry => entry :: storedBy (step s st) rest
      | None => storedBy (step s st) rest
      end
  end.

(** The three results under the mutex. *)
Definition results (s : Shared) : list (list Series) * list string * list ULID :=
  (seriesSets s, warnings s, queriedBlocks s).

Definition addResults (r : list (list Series) * list string * list ULID) (l : Local)
    : list (list Series) * list string * list ULID :=
  (r.1.1 ++ [mySeries l], r.1.2 ++ myWarnings l, r.2 ++ myQueriedBlocks l).

Lemma results_continue (i : nat) (t : Task) (s : Shared) :
  results (continue i t s) = results s.
Proof. reflexivity. Qed.

Lemma results_finish (i : nat) (err : option (TaskError E)) (s : Shared) :
  results (finish i err s) = results s.
Proof. destruct err; reflexivity. Qed.

Lemma results_handleSeries (i : nat) (l : Local) (sr : Series) (v : Verdicts) (s : Shared) :
  results (handleSeries i l sr v s) = results s.
Proof.
  unfold handleSeries.
  destruct (addSeries v); [apply results_finish|].
  destruct (countChunksAndBytes [sr]) as [chunksCount chunksSize].
  cbn zeta.
  destruct (_ && _); [rewrite results_finish; reflexivity|].
  destruct (addChunkBytes v); [rewrite results_finish; reflexivity|].
  destruct (addChunks v); [rewrite results_finish; reflexivity | reflexivity].
Qed.

Lemma results_handleFrame (i : nat) (l : Local) (f : Frame) (v : Verdicts) (s : Shared) :
  results (handleFrame i l f v s) = results s.
Proof.
  destruct f as [sr|w|[err|hints]]; cbn [handleFrame].
  - apply results_handleSeries.
  - destruct (String.eqb w ""); apply results_continue.
  - apply results_finish.
  - destruct (convertBlockHintsToULIDs hints); [apply results_finish | apply results_continue].
Qed.

(** A step changes the shared results only when it stores the variables of a
    task whose stream ended. *)
Lemma results_step (s : Shared) (st : Step) :
  results (step s st)
  = match stored s st with
    | Some (_, l) => addResults (results s) l
    | None => results s
    end.
Proof.
  destruct st as [e|i marshal open|i|i r v]; cbn [step stored].
  - reflexivity.
  - destruct (tasks s !! i) as [[| | |]|]; try reflexivity.
    destruct marshal; [apply results_finish|].
    destruct open; [apply results_finish | apply results_continue].
  - destruct (tasks s !! i) as [[| | |]|]; try reflexivity.
    destruct (ctxErr s); [apply results_finish | apply results_continue].
  - destruct (tasks s !! i) as [[|l|l|]|]; try (destruct r; reflexivity).
    destruct r as [|err|f]; [reflexivity | apply results_finish | apply results_handleFrame].
Qed.

Lemma results_run (schedule : list Step) :
  ∀ s, results (run s schedule)
       = fold_left addResults (map snd (storedBy s schedule)) (results s).
Proof.
  unfold run. induction schedule as [|st schedule IH]; intros s; [reflexivity|].
  cbn [fold_left storedBy]. rewrite IH, results_step.
  destruct (stored s st) as [[i l]|]; reflexivity.
Qed.

(** *** A task that has returned *)

Lemma tasks_continue (i j : nat) (t : Task) (s : Shared) :
  tasks (continue i t s) !! j
  = if decide (i = j) then (fun _ => t) <$> tasks s !! j else tasks s !! j.
Proof.
  cbn [continue tasks]. destruct (decide (i = j)) as [->|Hne].
  - destruct (tasks s !! j) eqn:Hj; cbn.
    + apply list_lookup_insert_eq. eapply lookup_lt_Some, Hj.
    + rewrite list_insert_ge; [exact Hj|].
      eapply lookup_ge_None, Hj.
  - apply list_lookup_insert_ne. exact Hne.
Qed.

Lemma tasks_finish (i j : nat) (err : option (TaskError E)) (s : Shared) :
  tasks (finish i err s) !! j
  = if decide (i = j) then (fun _ => Returned err) <$> tasks s !! j else tasks s !! j.
Proof.
  destruct err as [e|]; [|apply tasks_continue].
  exact (tasks_continue i j (Returned (Some e)) s).
Qed.

Lemma tasks_store (i j : nat) (l : Local) (s : Shared) :
  tasks (store i l s) !! j
  = if decide (i = j) then (fun _ => Returned None) <$> tasks s !! j else tasks s !! j.
Proof. exact (tasks_continue i j (Returned None) s). Qed.

(** The step of a task leaves the other tasks where they are. *)
Definition taskOf (st : Step) : option nat :=
  match st with
  | StepParentDone _ => None
  | StepOpen i _ _ | StepCheck i | StepRecv i _ _ => Some i
  end.

Lemma tasks_handleSeries (i j : nat) (l : Local) (sr : Series) (v : Verdicts) (s : Shared) :
  i ≠ j → tasks (handleSeries i l sr v s) !! j = tasks s !! j.
Proof.
  intros Hne. unfold handleSeries.
  destruct (addSeries v).
  { rewrite tasks_finish. destruct (decide (i = j)); [contradiction | reflexivity]. }
  destruct (countChunksAndBytes [sr]) as [chunksCount chunksSize]. cbn zeta.
  destruct (_ && _); [|destruct (addChunkBytes v); [|destruct (addChunks v)]];
    rewrite ?tasks_finish, ?tasks_continue;
    destruct (decide (i = j)); (contradiction || reflexivity).
Qed.

Lemma tasks_step_other (s : Shared) (st : Step) (j : nat) :
  taskOf st ≠ Some j → tasks (step s st) !! j = tasks s !! j.
Proof.
  intros Hother.
  destruct st as [e|i marshal open|i|i r v]; cbn [step taskOf] in *;
    [reflexivity| | |];
    (assert (Hne : i ≠ j) by congruence);
    destruct (tasks s !! i) as [[|l|l|]|]; try reflexivity.
  - destruct marshal; [|destruct open];
      rewrite ?tasks_finish, ?tasks_continue;
      destruct (decide (i = j)); (contradiction || reflexivity).
  - destruct (ctxErr s); rewrite ?tasks_finish, ?tasks_continue;
      destruct (decide (i = j)); (contradiction || reflexivity).
  - destruct r as [|err|[sr|w|[err|hints]]]; cbn [handleFrame].
    + rewrite tasks_store. destruct (decide (i = j)); (contradiction || reflexivity).
    + rewrite tasks_finish. destruct (decide (i = j)); (contradiction || reflexivity).
    + apply tasks_handleSeries, Hne.
    + destruct (String.eqb w ""); rewrite tasks_continue;
        destruct (decide (i = j)); (contradiction || reflexivity).
    + rewrite tasks_finish. destruct (decide (i = j)); (contradiction || reflexivity).
    + destruct (convertBlockHintsToULIDs hints);
        rewrite ?tasks_finish, ?tasks_continue;
        destruct (decide (i = j)); (contradiction || reflexivity).
Qed.

(** A task that has returned stays so, and its steps change nothing. *)
Lemma step_returned (s : Shared) (st : Step) (i : nat) (err : option (TaskError E)) :
  tasks s !! i = Some (Returned err) → taskOf st = Some i → step s st = s.
Proof.
  intros Hi Hst.
  destruct st as [e|j marshal open|j|j r v]; cbn [taskOf] in Hst; try discriminate;
    injection Hst as ->; cbn [step]; rewrite Hi; reflexivity.
Qed.

Lemma returned_step (s : Shared) (st : Step) (i : nat) (err : option (TaskError E)) :
  tasks s !! i = Some (Returned err) → tasks (step s st) !! i = Some (Returned err).
Proof.
  intros Hi. destruct (decide (taskOf st = Some i)) as [Hst|Hst].
  - rewrite (step_returned s st i err Hi Hst). exact Hi.
  - rewrite tasks_step_other by exact Hst. exact Hi.
Qed.


Lemma returned_never_stores (schedule : list Step) (i : nat) (err : option (TaskError E)) :
  ∀ s, tasks s !! i = Some (Returned err) →
       ¬ In i (map fst (storedBy s schedule)).
Proof.
  induction schedule as [|st schedule IH]; intros s Hi; [cbn; tauto|].
  cbn [storedBy].
  assert (Hnext := IH _ (returned_step s st i err Hi)).
  destruct (stored s st) as [[j l]|] eqn:Hst; [|exact Hnext].
  cbn [map fst In]. intros [->|Hin]; [|exact (Hnext Hin)].
  destruct st as [e|k marshal open|k|k r v]; cbn [stored] in Hst; try discriminate.
  destruct r; try discriminate.
  destruct (tasks s !! k) as [[| |l'|]|] eqn:Hk; try discriminate.
  injection Hst as -> _. congruence.
Qed.

(** A task that stores its results returns with that step. *)
Lemma stored_returns (s : Shared) (st : Step) (i : nat) (l : Local) :
  stored s st = Some (i, l) → tasks (step s st) !! i = Some (Returned None).
Proof.
  destruct st as [e|k marshal open|k|k r v]; cbn [stored]; try discriminate.
  destruct r; try discriminate.
  destruct (tasks s !! k) as [[| |l'|]|] eqn:Hk; try discriminate.
  intros [= -> ->]. cbn [step]. rewrite Hk, tasks_store.
  destruct (decide (i = i)); [|contradiction]. rewrite Hk. reflexivity.
Qed.



(** *** The first error of the group *)

Lemma groupErr_finish (i : nat) (err : option (TaskError E)) (s : Shared)
    (first : TaskError E) :
  groupErr s = Some first → groupErr (finish i err s) = Some first.
Proof. intros Hg. destruct err; cbn; rewrite ?Hg; reflexivity. Qed.

Lemma groupErr_finish_first (i : nat) (e : TaskError E) (s : Shared) :
  groupErr s = None → groupErr (finish i (Some e) s) = Some e.
Proof. intros Hg. cbn. rewrite Hg. reflexivity. Qed.

Lemma groupErr_handleSeries (i : nat) (l : Local) (sr : Series) (v : Verdicts)
    (s : Shared) (first : TaskError E) :
  groupErr s = Some first → groupErr (handleSeries i l sr v s) = Some first.
Proof.
  intros Hg. unfold handleSeries.
  destruct (addSeries v); [apply groupErr_finish, Hg|].
  destruct (countChunksAndBytes [sr]) as [chunksCount chunksSize]. cbn zeta.
  destruct (_ && _); [|destruct (addChunkBytes v); [|destruct (addChunks v)]];
    try (apply groupErr_finish); exact Hg.
Qed.

(** Once a task has returned an error, the error of the group stays. *)
Lemma groupErr_step (s : Shared) (st : Step) (first : TaskError E) :
  groupErr s = Some first → groupErr (step s st) = Some first.
Proof.
  intros Hg.
  destruct st as [e|i marshal open|i|i r v]; cbn [step]; [exact Hg| | |];
    destruct (tasks s !! i) as [[|l|l|]|]; try exact Hg.
  - destruct marshal; [|destruct open]; try (apply groupErr_finish); exact Hg.
  - destruct (ctxErr s); [apply groupErr_finish|]; exact Hg.
  - destruct r as [|err|[sr|w|[err|hints]]]; cbn [handleFrame store groupErr].
    + exact Hg.
    + apply groupErr_finish, Hg.
    + apply groupErr_handleSeries, Hg.
    + destruct (String.eqb w ""); exact Hg.
    + apply groupErr_finish, Hg.
    + destruct (convertBlockHintsToULIDs hints); [apply groupErr_finish|]; exact Hg.
Qed.

Lemma groupErr_run (schedule : list Step) (first : TaskError E) :
  ∀ s, groupErr s = Some first → groupErr (run s schedule) = Some first.
Proof.
  unfold run. induction schedule as [|st schedule IH]; intros s Hg; [exact Hg|].
  cbn [fold_left]. apply IH, groupErr_step, Hg.
Qed.

(** An attempt in which a task has returned an error returns the first such
    error, whatever happens afterwards. *)
Lemma fetchSeriesFromStores_first_error (pre post : list Step) (first : TaskError E) :
  groupErr (run start pre) = Some first →
  fetchSeriesFromStores (pre ++ post) = Ret (inl first)
  ∨ fetchSeriesFromStores (pre ++ post) = NoFuel.
Proof.
  intros Hg. unfold fetchSeriesFromStores. cbn zeta.
  assert (Hrun : run start (pre ++ post) = run (run start pre) post)
    by (unfold run; apply fold_left_app).
  rewrite Hrun, (groupErr_run post first _ Hg).
  destruct (forallb isReturned _); auto.
Qed.

(** *** The limit on chunks, where it fits 32 bits *)

Lemma wrap32_in_range (z : Z) : - 2 ^ 31 ≤ z < 2 ^ 31 → wrap32 z = z.
Proof. unfold wrap32. intros Hz. rewrite Z.mod_small by lia. lia. Qed.

(** With counts and limits within [int32], a series that takes the number of
    chunks of the attempt above the chunks left fails the task with the limit
    error, and one that does not is passed on to the other checks. *)
Lemma handleSeries_chunks_limit (i : nat) (l : Local) (sr : Series) (v : Verdicts)
    (s : Shared) :
  0 < maxChunksLimit →
  addSeries v = None →
  0 ≤ numChunks s →
  numChunks s + Z.of_nat (length (Chunks sr)) < 2 ^ 31 →
  - 2 ^ 31 ≤ leftChunksLimit < 2 ^ 31 →
  let actual := numChunks s + Z.of_nat (length (Chunks sr)) in
  let s' := mkShared (tasks s) actual (groupErr s) (ctxErr s)
              (seriesSets s) (warnings s) (queriedBlocks s) in
  (leftChunksLimit < actual →
     handleSeries i l sr v s
     = finish i (Some (LimitError (MaxChunksPerQueryLimit matchers maxChunksLimit))) s')
  ∧ (actual ≤ leftChunksLimit →
     numChunks (handleSeries i l sr v s) = actual
     ∧ ∀ limit, tasks (handleSeries i l sr v s) !! i
                ≠ Some (Returned (Some (LimitError (MaxChunksPerQueryLimit matchers limit))))).
Proof.
  intros Hmax Hadd Hn Hsum Hleft actual s'.
  unfold handleSeries. rewrite Hadd. cbn [countChunksAndBytes fold_left fst snd].
  destruct (Z.ltb_spec 0 maxChunksLimit) as [_|]; [|lia].
  rewrite Z.add_0_l.
  rewrite (wrap32_in_range (Z.of_nat (length (Chunks sr)))) by lia.
  rewrite (wrap32_in_range (numChunks s + _)) by lia.
  rewrite (wrap32_in_range leftChunksLimit) by lia.
  fold actual. cbn [andb]. split; intros Hcmp.
  - destruct (Z.ltb_spec leftChunksLimit actual); [reflexivity | lia].
  - destruct (Z.ltb_spec leftChunksLimit actual); [lia|].
    destruct (addChunkBytes v); [|destruct (addChunks v)];
      (split; [reflexivity|]); intros limit;
      rewrite ?tasks_finish, ?tasks_continue;
      destruct (decide (i = i)); try contradiction;
      cbn [tasks]; destruct (tasks s !! i); cbn; congruence.
Qed.

(** A limit of zero switches the check off: the counter stays as it is. *)
Lemma handleSeries_limit_disabled (i : nat) (l : Local) (sr : Series) (v : Verdicts)
    (s : Shared) :
  maxChunksLimit ≤ 0 →
  numChunks (handleSeries i l sr v s) = numChunks s
  ∧ ∀ limit, tasks s !! i ≠ Some (Returned (Some (LimitError (MaxChunksPerQueryLimit matchers limit)))) →
      tasks (handleSeries i l sr v s) !! i
      ≠ Some (Returned (Some (LimitError (MaxChunksPerQueryLimit matchers limit)))).
Proof.
  intros Hmax. unfold handleSeries.
  destruct (Z.ltb_spec 0 maxChunksLimit) as [|_]; [lia|].
  destruct (addSeries v).
  { split; [reflexivity|]. intros limit Hi. rewrite tasks_finish.
    destruct (decide (i = i)); [|contradiction].
    destruct (tasks s !! i); cbn; congruence. }
  cbn [countChunksAndBytes fold_left fst snd andb].
  destruct (addChunkBytes v); [|destruct (addChunks v)];
    (split; [reflexivity|]); intros limit Hi;
    rewrite ?tasks_finish, ?tasks_continue;
    destruct (decide (i = i)); try contradiction;
    cbn [tasks]; destruct (tasks s !! i); cbn; congruence.
Qed.

(** *** A stream that fails *)






Lemma run_app (pre post : list Step) (s : Shared) :
  run s (pre ++ post) = run (run s pre) post.
Proof. unfold run. apply fold_left_app. Qed.

Lemma fetchSeriesFromStores_results (schedule : list Step)
    (sets : list (list Series)) (queried : list ULID) (warns : list string) (n : Z) :
  fetchSeriesFromStores schedule = Ret (inr (sets, queried, warns, n)) →
  (sets, warns, queried)
  = fold_left addResults (map snd (storedBy start schedule)) ([], [], []).
Proof.
  unfold fetchSeriesFromStores. cbn zeta.
  destruct (forallb isReturned (tasks (run start schedule))); [|discriminate].
  destruct (groupErr (run start schedule)); [discriminate|].
  intros [= <- <- <- <-].
  exact (results_run schedule start).
Qed.

(** *** Hints, counts, and what an attempt can return *)

(** X15: the identifiers of the hints are returned, in order, exactly when
    every one of them parses; otherwise the error returned is that of the
    first identifier that does not parse, whatever follows it. *)
Theorem convertBlockHintsToULIDs_first_error (hints : list (E + ULID)) :
  (∀ ids, convertBlockHintsToULIDs hints = inr ids ↔ hints = map inr ids)
  ∧ (∀ err, convertBlockHintsToULIDs hints = inl err
            ↔ ∃ ids rest, hints = map inr ids ++ inl err :: rest).
Proof.
  induction hints as [|[e|blockID] hints [IHids IHerr]]; cbn [convertBlockHintsToULIDs].
  - split.
    + intros ids. split; [intros [= <-]; reflexivity|].
      destruct ids; [reflexivity | discriminate].
    + intros err. split; [discriminate|]. intros ([|id ids] & rest & Heq); discriminate.
  - split.
    + intros ids. split; [discriminate|]. destruct ids; discriminate.
    + intros err. split.
      * intros [= ->]. exists [], hints. reflexivity.
      * intros ([|id ids] & rest & Heq); [|discriminate].
        cbn in Heq. congruence.
  - split.
    + intros ids. destruct (convertBlockHintsToULIDs hints) as [e|res].
      * split; [discriminate|]. destruct ids as [|id ids]; [discriminate|].
        cbn [map]. intros [= _ Hrest]. apply IHids in Hrest. discriminate.
      * split.
        -- intros [= <-]. cbn [map]. f_equal. apply IHids. reflexivity.
        -- destruct ids as [|id ids]; [discriminate|]. cbn [map].
           intros [= -> Hrest]. apply IHids in Hrest. congruence.
    + intros err. destruct (convertBlockHintsToULIDs hints) as [e|res].
      * split.
        -- intros [= ->]. destruct (proj1 (IHerr err) eq_refl) as (ids & rest & ->).
           exists (blockID :: ids), rest. reflexivity.
        -- intros ([|id ids] & rest & Heq); [discriminate|].
           cbn in Heq. injection Heq as _ Hrest. f_equal.
           assert (He : inl e = inl err :> E + list ULID)
             by (apply IHerr; eauto).
           congruence.
      * split; [discriminate|].
        intros ([|id ids] & rest & Heq); [discriminate|]. cbn in Heq.
        injection Heq as _ Hrest.
        assert (He : inr res = inl err :> E + list ULID) by (apply IHerr; eauto).
        discriminate.
Qed.

Lemma sizes_fold (chunks : list Z) :
  ∀ bytes, fold_left (fun bytes c => bytes + c) chunks bytes
           = bytes + fold_left (fun bytes c => bytes + c) chunks 0.
Proof.
  induction chunks as [|c chunks IH]; intros bytes; cbn [fold_left]; [lia|].
  rewrite (IH (bytes + c)), (IH (0 + c)). lia.
Qed.

Lemma countChunksAndBytes_fold (series : list Series) :
  ∀ acc : Z * Z,
    fold_left
      (fun (acc : Z * Z) (s : Series) =>
         (acc.1 + Z.of_nat (length (Chunks s)),
          fold_left (fun bytes c => bytes + c) (Chunks s) acc.2))
      series acc
    = (acc.1 + (countChunksAndBytes series).1, acc.2 + (countChunksAndBytes series).2).
Proof.
  unfold countChunksAndBytes.
  induction series as [|s series IH]; intros [chunks bytes]; cbn [fold_left fst snd].
  - f_equal; lia.
  - rewrite (IH (chunks + _, _)), (IH (0 + _, _)). cbn [fst snd].
    rewrite (sizes_fold (Chunks s) bytes). f_equal; lia.
Qed.

(** X16: the chunks and bytes of two lists of series put together are the sums
    of the chunks and of the bytes of each, and the number of chunks is the
    number of chunks of all the series. *)
Theorem countChunksAndBytes_app (a b : list Series) :
  countChunksAndBytes (a ++ b)
  = ((countChunksAndBytes a).1 + (countChunksAndBytes b).1,
     (countChunksAndBytes a).2 + (countChunksAndBytes b).2)
  ∧ (countChunksAndBytes a).1 = Z.of_nat (length (concat (map Chunks a))).
Proof.
  split.
  - unfold countChunksAndBytes at 1. rewrite fold_left_app.
    fold (countChunksAndBytes a). apply countChunksAndBytes_fold.
  - induction a as [|s a IH]; [reflexivity|].
    unfold countChunksAndBytes. cbn [fold_left map concat fst snd].
    rewrite countChunksAndBytes_fold. cbn [fst]. rewrite IH, length_app. lia.
Qed.

(** The number of chunks of a list of series. *)
Definition chunksOf (series : list Series) : Z := (countChunksAndBytes series).1.

Lemma chunksOf_app (a b : list Series) : chunksOf (a ++ b) = chunksOf a + chunksOf b.
Proof.
  unfold chunksOf, countChunksAndBytes at 1. rewrite fold_left_app.
  fold (countChunksAndBytes a). rewrite countChunksAndBytes_fold. reflexivity.
Qed.

Lemma chunksOf_one (sr : Series) : chunksOf [sr] = Z.of_nat (length (Chunks sr)).
Proof. reflexivity. Qed.

Lemma chunksOf_nonneg (series : list Series) : 0 ≤ chunksOf series.
Proof.
  induction series as [|s series IH]; [reflexivity|].
  change (s :: series) with ([s] ++ series). rewrite chunksOf_app, chunksOf_one. lia.
Qed.

(** **** Each task stores once *)

Lemma length_continue (i : nat) (t : Task) (s : Shared) :
  length (tasks (continue i t s)) = length (tasks s).
Proof. apply length_insert. Qed.

Lemma length_finish (i : nat) (err : option (TaskError E)) (s : Shared) :
  length (tasks (finish i err s)) = length (tasks s).
Proof. destruct err; apply length_insert. Qed.

Lemma stored_lt (s : Shared) (st : Step) (i : nat) (l : Local) :
  stored s st = Some (i, l) → (i < length (tasks s))%nat.
Proof.
  destruct st as [e|k marshal open|k|k r v]; cbn [stored]; try discriminate.
  destruct r; try discriminate.
  destruct (tasks s !! k) as [[| |l'|]|] eqn:Hk; try discriminate.
  intros [= <- _]. eapply lookup_lt_Some, Hk.
Qed.

Lemma length_handleSeries (i : nat) (l : Local) (sr : Series) (v : Verdicts) (s : Shared) :
  length (tasks (handleSeries i l sr v s)) = length (tasks s).
Proof.
  unfold handleSeries.
  destruct (addSeries v); [apply length_finish|].
  destruct (countChunksAndBytes [sr]) as [chunksCount chunksSize]. cbn zeta.
  destruct (_ && _); [|destruct (addChunkBytes v); [|destruct (addChunks v)]];
    rewrite ?length_finish, ?length_continue; reflexivity.
Qed.

Lemma length_step (s : Shared) (st : Step) :
  length (tasks (step s st)) = length (tasks s).
Proof.
  destruct st as [e|i marshal open|i|i r v]; cbn [step]; [reflexivity| | |];
    destruct (tasks s !! i) as [[|l|l|]|]; try reflexivity.
  - destruct marshal; [|destruct open];
      rewrite ?length_finish, ?length_continue; reflexivity.
  - destruct (ctxErr s); rewrite ?length_finish, ?length_continue; reflexivity.
  - destruct r as [|err|[sr|w|[err|hints]]]; cbn [handleFrame].
    + apply length_insert.
    + apply length_finish.
    + apply length_handleSeries.
    + destruct (String.eqb w ""); apply length_continue.
    + apply length_finish.
    + destruct (convertBlockHintsToULIDs hints);
        rewrite ?length_finish, ?length_continue; reflexivity.
Qed.

Lemma storedBy_lt (schedule : list Step) :
  ∀ s i, In i (map fst (storedBy s schedule)) → (i < length (tasks s))%nat.
Proof.
  induction schedule as [|st schedule IH]; intros s i; [cbn; tauto|].
  cbn [storedBy].
  destruct (stored s st) as [[j l]|] eqn:Hst; cbn [map fst In].
  - intros [<-|Hin]; [eapply stored_lt, Hst|].
    rewrite <- (length_step s st). apply IH, Hin.
  - intros Hin. rewrite <- (length_step s st). apply IH, Hin.
Qed.

Lemma storedBy_NoDup (schedule : list Step) :
  ∀ s, NoDup (map fst (storedBy s schedule)).
Proof.
  induction schedule as [|st schedule IH]; intros s; [constructor|].
  cbn [storedBy].
  destruct (stored s st) as [[j l]|] eqn:Hst; [|apply IH].
  cbn [map fst]. apply NoDup_cons_2; [|apply IH].
  rewrite list_elem_of_In.
  apply (returned_never_stores schedule j None), (stored_returns s st j l Hst).
Qed.

Lemma length_addResults (ls : list Local) :
  ∀ r, length (fold_left addResults ls r).1.1 = (length r.1.1 + length ls)%nat.
Proof.
  induction ls as [|l ls IH]; intros r; cbn [fold_left length]; [lia|].
  rewrite IH. cbn [addResults fst]. rewrite length_app. cbn [length]. lia.
Qed.

(** X17: no task stores its results twice, so an attempt that succeeds returns
    one series set for each task that reached the end of its stream, and
    never more series sets than there are clients. *)
Theorem fetchSeriesFromStores_one_set_per_task (schedule : list Step)
    (sets : list (list Series)) (queried : list ULID) (warns : list string) (n : Z) :
  fetchSeriesFromStores schedule = Ret (inr (sets, queried, warns, n)) →
  NoDup (map fst (storedBy start schedule))
  ∧ length sets = length (storedBy start schedule)
  ∧ (length sets ≤ length clients)%nat.
Proof.
  intros Hret. pose proof (storedBy_NoDup schedule start) as Hnd.
  assert (Hlen : length sets = length (storedBy start schedule)).
  { apply fetchSeriesFromStores_results in Hret.
    pose proof (length_addResults (map snd (storedBy start schedule)) ([], [], [])) as Hl.
    rewrite <- Hret in Hl. cbn [fst length] in Hl. rewrite length_map in Hl. exact Hl. }
  split; [exact Hnd|]. split; [exact Hlen|].
  rewrite Hlen.
  replace (length (storedBy start schedule))
    with (length (map fst (storedBy start schedule))) by apply length_map.
  replace (length clients) with (length (seq 0 (length clients))) by apply length_seq.
  apply submseteq_length, NoDup_submseteq; [exact Hnd|].
  intros i Hi. apply list_elem_of_In, storedBy_lt in Hi.
  cbn [start tasks] in Hi. rewrite length_map in Hi.
  apply list_elem_of_In, in_seq. lia.
Qed.

(** **** The counter of chunks over an attempt *)

Lemma finish_error_groupErr (i : nat) (e : TaskError E) (s : Shared) :
  groupErr (finish i (Some e) s) ≠ None.
Proof. cbn. destruct (groupErr s); discriminate. Qed.

Lemma groupErr_step_None (s : Shared) (st : Step) :
  groupErr (step s st) = None → groupErr s = None.
Proof.
  intros Hg'. destruct (groupErr s) as [first|] eqn:Hg; [|reflexivity].
  rewrite (groupErr_step s st first Hg) in Hg'. discriminate.
Qed.

Lemma numChunks_finish (i : nat) (err : option (TaskError E)) (s : Shared) :
  numChunks (finish i err s) = numChunks s.
Proof. destruct err; reflexivity. Qed.

(** The message of the limit on chunks is not among the errors of a task
    while the limit is switched off. *)
Definition isChunksLimit (err : option (TaskError E)) : bool :=
  match err with
  | Some (LimitError (MaxChunksPerQueryLimit _ _)) => true
  | _ => false
  end.

Lemma isChunksLimit_finish (i : nat) (err : option (TaskError E)) (s : Shared) :
  isChunksLimit err = false →
  isChunksLimit (groupErr s) = false →
  isChunksLimit (groupErr (finish i err s)) = false.
Proof.
  intros Herr Hg. destruct err as [e|]; [|exact Hg].
  cbn [finish groupErr]. destruct (groupErr s); [exact Hg | exact Herr].
Qed.

Lemma limit_disabled_step (s : Shared) (st : Step) :
  maxChunksLimit ≤ 0 →
  numChunks (step s st) = numChunks s
  ∧ (isChunksLimit (groupErr s) = false → isChunksLimit (groupErr (step s st)) = false).
Proof.
  intros Hmax.
  destruct st as [e|i marshal open|i|i r v]; cbn [step]; [auto| | |];
    destruct (tasks s !! i) as [[|l|l|]|]; auto.
  - destruct marshal; [|destruct open]; rewrite ?numChunks_finish;
      (split; [reflexivity|]); try (apply isChunksLimit_finish; reflexivity); auto.
  - destruct (ctxErr s); rewrite ?numChunks_finish;
      (split; [reflexivity|]); try (apply isChunksLimit_finish; reflexivity); auto.
  - destruct r as [|err|[sr|w|[err|hints]]]; cbn [handleFrame store numChunks groupErr];
      rewrite ?numChunks_finish; auto.
    + unfold handleSeries. destruct (Z.ltb_spec 0 maxChunksLimit) as [|_]; [lia|].
      destruct (addSeries v);
        [split; [apply numChunks_finish | apply isChunksLimit_finish; reflexivity]|].
      cbn [countChunksAndBytes fold_left fst snd andb].
      destruct (addChunkBytes v); [|destruct (addChunks v)];
        rewrite ?numChunks_finish; (split; [reflexivity|]);
        try (intros Hg; apply isChunksLimit_finish; [reflexivity | exact Hg]); auto.
    + destruct (String.eqb w ""); auto.
    + split; [reflexivity|]. apply isChunksLimit_finish; reflexivity.
    + destruct (convertBlockHintsToULIDs hints); rewrite ?numChunks_finish;
        (split; [reflexivity|]); try (apply isChunksLimit_finish; reflexivity); auto.
Qed.

Lemma limit_disabled_run (schedule : list Step) :
  maxChunksLimit ≤ 0 →
  ∀ s, numChunks (run s schedule) = numChunks s
       ∧ (isChunksLimit (groupErr s) = false →
          isChunksLimit (groupErr (run s schedule)) = false).
Proof.
  intros Hmax. unfold run.
  induction schedule as [|st schedule IH]; intros s; [auto|].
  cbn [fold_left]. destruct (IH (step s st)) as [Hn Hg].
  destruct (limit_disabled_step s st Hmax) as [Hn1 Hg1].
  split; [congruence | auto].
Qed.

(** X18: with the limit on chunks switched off (zero or less), no execution of
    an attempt ends with the error of that limit, and an attempt that
    succeeds returns zero as its number of chunks, whatever the streams
    carried. *)
Theorem fetchSeriesFromStores_limit_disabled (schedule : list Step) :
  maxChunksLimit ≤ 0 →
  (∀ m limit, fetchSeriesFromStores schedule
              ≠ Ret (inl (LimitError (MaxChunksPerQueryLimit m limit))))
  ∧ (∀ sets queried warns n,
       fetchSeriesFromStores schedule = Ret (inr (sets, queried, warns, n)) → n = 0).
Proof.
  intros Hmax. destruct (limit_disabled_run schedule Hmax start) as [Hn Hg].
  specialize (Hg eq_refl). unfold fetchSeriesFromStores. cbn zeta.
  destruct (forallb isReturned _); [|split; intros; discriminate].
  destruct (groupErr (run start schedule)) as [err|].
  - split; [|intros; discriminate]. intros m limit [= ->]. discriminate.
  - split; [intros; discriminate|]. intros sets queried warns n [= _ _ _ <-]. exact Hn.
Qed.

(** Every series frame of a schedule has few enough chunks for the counter
    not to wrap around while it is within [bound]. *)
Definition smallFrame (bound : Z) (st : Step) : bool :=
  match st with
  | StepRecv _ (RecvFrame (FrameSeries sr)) _ =>
      Z.of_nat (length (Chunks sr)) + bound <? 2 ^ 31
  | _ => true
  end.

Definition smallFrames (bound : Z) (schedule : list Step) : bool :=
  forallb (smallFrame bound) schedule.

(** The chunks of the series a task holds and has not stored. *)
Definition pending (t : Task) : Z :=
  match t with
  | AtLoopHead l | Receiving l => chunksOf (mySeries l)
  | _ => 0
  end.

Definition pendingAll (ts : list Task) : Z :=
  fold_right (fun t acc => pending t + acc) 0 ts.

Lemma pending_nonneg (t : Task) : 0 ≤ pending t.
Proof. destruct t; cbn; try apply chunksOf_nonneg; lia. Qed.

Lemma pendingAll_insert (ts : list Task) :
  ∀ (i : nat) (t t' : Task),
    ts !! i = Some t →
    pendingAll (<[i := t']> ts) = pendingAll ts - pending t + pending t'.
Proof.
  induction ts as [|t0 ts IH]; intros [|i] t t' Hi; try discriminate.
  - injection Hi as ->. cbn. lia.
  - cbn in Hi. change (<[S i := t']> (t0 :: ts)) with (t0 :: <[i := t']> ts).
    change (pending t0 + pendingAll (<[i := t']> ts)
            = pending t0 + pendingAll ts - pending t + pending t').
    rewrite (IH i t t' Hi). lia.
Qed.

Lemma pendingAll_created {A : Type} (l : list A) :
  pendingAll (map (fun _ => Created) l) = 0.
Proof. induction l as [|a l IH]; [reflexivity|]. cbn in *. exact IH. Qed.

Lemma pendingAll_nonneg (ts : list Task) : 0 ≤ pendingAll ts.
Proof.
  induction ts as [|t ts IH]; [reflexivity|].
  change (0 ≤ pending t + pendingAll ts). pose proof (pending_nonneg t). lia.
Qed.

(** While no task has failed, the counter is within the chunks left and
    covers the chunks of the series stored or held by a task. *)
Definition countsAgree (s : Shared) : Prop :=
  groupErr s = None →
  0 ≤ numChunks s ≤ leftChunksLimit
  ∧ chunksOf (concat (seriesSets s)) + pendingAll (tasks s) ≤ numChunks s.

Lemma countsAgree_moves (i : nat) (t t' : Task) (s : Shared) :
  tasks s !! i = Some t →
  pending t' ≤ pending t →
  countsAgree s → countsAgree (continue i t' s).
Proof.
  intros Hi Hle Hs Hg. cbn [continue groupErr numChunks seriesSets tasks] in *.
  destruct (Hs Hg) as [Hn Hsum]. split; [exact Hn|].
  rewrite (pendingAll_insert _ i t t' Hi). lia.
Qed.

Lemma countsAgree_fails (i : nat) (e : TaskError E) (s : Shared) :
  countsAgree (finish i (Some e) s).
Proof. intros Hg. destruct (finish_error_groupErr i e s Hg). Qed.

Lemma countsAgree_step (s : Shared) (st : Step) :
  0 < maxChunksLimit →
  0 ≤ leftChunksLimit < 2 ^ 31 →
  smallFrame leftChunksLimit st = true →
  countsAgree s → countsAgree (step s st).
Proof.
  intros Hmax Hleft Hsmall Hs.
  destruct st as [e|i marshal open|i|i r v]; cbn [step]; [exact Hs| | |];
    destruct (tasks s !! i) as [[|l|l|]|] eqn:Hi; try exact Hs.
  - destruct marshal; [apply countsAgree_fails|]. destruct open.
    + apply (countsAgree_moves i Created); [exact Hi | cbn; lia | exact Hs].
    + apply (countsAgree_moves i Created); [exact Hi | cbn; lia | exact Hs].
  - destruct (ctxErr s); [apply countsAgree_fails|].
    apply (countsAgree_moves i (AtLoopHead l)); [exact Hi | cbn; lia | exact Hs].
  - destruct r as [|err|[sr|w|[err|hints]]]; cbn [handleFrame].
    + intros Hg. cbn [store groupErr numChunks seriesSets tasks] in *.
      destruct (Hs Hg) as [Hn Hsum]. split; [exact Hn|].
      rewrite (pendingAll_insert _ i (Receiving l) (Returned None) Hi).
      rewrite concat_app, chunksOf_app. cbn [concat pending].
      rewrite app_nil_r. cbn [pending] in *. lia.
    + apply (countsAgree_moves i (Receiving l));
        [exact Hi | apply (pending_nonneg (Receiving l)) | exact Hs].
    + unfold handleSeries. cbn [smallFrame] in Hsmall. apply Z.ltb_lt in Hsmall.
      destruct (addSeries v); [apply countsAgree_fails|].
      cbn [countChunksAndBytes fold_left fst snd].
      destruct (Z.ltb_spec 0 maxChunksLimit) as [_|]; [|lia].
      rewrite Z.add_0_l. cbn [andb].
      set (c := Z.of_nat (length (Chunks sr))) in *.
      destruct (groupErr s) eqn:Hg.
      { destruct (_ <? _); [apply countsAgree_fails|].
        destruct (addChunkBytes v); [apply countsAgree_fails|].
        destruct (addChunks v); [apply countsAgree_fails|].
        intros Hg'. cbn in Hg'. discriminate. }
      destruct (Hs Hg) as [Hn Hsum].
      rewrite (wrap32_in_range c) by lia.
      rewrite (wrap32_in_range (numChunks s + c)) by lia.
      rewrite (wrap32_in_range leftChunksLimit) by lia.
      destruct (Z.ltb_spec leftChunksLimit (numChunks s + c)); [apply countsAgree_fails|].
      destruct (addChunkBytes v); [apply countsAgree_fails|].
      destruct (addChunks v); [apply countsAgree_fails|].
      intros _. cbn [continue groupErr numChunks seriesSets tasks].
      split; [lia|].
      rewrite (pendingAll_insert _ i (Receiving l) _ Hi). cbn [pending mySeries].
      rewrite chunksOf_app, chunksOf_one. fold c. lia.
    + destruct (String.eqb w "");
        (apply (countsAgree_moves i (Receiving l)); [exact Hi | cbn; lia | exact Hs]).
    + apply countsAgree_fails.
    + destruct (convertBlockHintsToULIDs hints); [apply countsAgree_fails|].
      apply (countsAgree_moves i (Receiving l)); [exact Hi | cbn; lia | exact Hs].
Qed.

Lemma countsAgree_run (schedule : list Step) :
  0 < maxChunksLimit →
  0 ≤ leftChunksLimit < 2 ^ 31 →
  smallFrames leftChunksLimit schedule = true →
  ∀ s, countsAgree s → countsAgree (run s schedule).
Proof.
  intros Hmax Hleft. unfold run, smallFrames.
  induction schedule as [|st schedule IH]; intros Hsmall s Hs; [exact Hs|].
  cbn [forallb] in Hsmall. apply andb_true_iff in Hsmall as [Hst Hsmall].
  cbn [fold_left]. apply IH; [exact Hsmall|].
  apply countsAgree_step; assumption.
Qed.

Lemma smallFrames_le (bound bound' : Z) (schedule : list Step) :
  bound' ≤ bound →
  smallFrames bound schedule = true → smallFrames bound' schedule = true.
Proof.
  intros Hle. unfold smallFrames. rewrite !forallb_forall.
  intros Hall st Hin. specialize (Hall st Hin).
  destruct st as [e|i marshal open|i|i [|err|[sr|w|h]] v]; try reflexivity.
  cbn [smallFrame] in *. apply Z.ltb_lt in Hall. apply Z.ltb_lt. lia.
Qed.

Lemma fetchSeriesFromStores_counts (schedule : list Step)
    (sets : list (list Series)) (queried : list ULID) (warns : list string) (n : Z) :
  0 < maxChunksLimit →
  0 ≤ leftChunksLimit < 2 ^ 31 →
  smallFrames leftChunksLimit schedule = true →
  fetchSeriesFromStores schedule = Ret (inr (sets, queried, warns, n)) →
  chunksOf (concat sets) ≤ n ≤ leftChunksLimit.
Proof.
  intros Hmax Hleft Hsmall.
  assert (Hstart : countsAgree start).
  { intros _. cbn [start numChunks seriesSets tasks concat].
    split; [lia|]. change (chunksOf []) with 0.
    rewrite pendingAll_created. lia. }
  pose proof (countsAgree_run schedule Hmax Hleft Hsmall start Hstart) as Hend.
  unfold fetchSeriesFromStores. cbn zeta.
  destruct (forallb isReturned _); [|discriminate].
  destruct (groupErr (run start schedule)) eqn:Hg; [discriminate|].
  intros [= <- _ _ <-]. destruct (Hend Hg) as [Hn Hsum].
  pose proof (pendingAll_nonneg (tasks (run start schedule))). lia.
Qed.

(** X19: with the limit on chunks switched on, the chunks left within [int32]
    and no frame large enough to wrap the counter around, an attempt that
    succeeds has counted at least the chunks of the series it returns and at
    most the chunks left: the series returned never have more chunks than
    were left. *)
Theorem fetchSeriesFromStores_chunks_within_limit (schedule : list Step)
    (sets : list (list Series)) (queried : list ULID) (warns : list string) (n : Z) :
  0 < maxChunksLimit →
  0 ≤ leftChunksLimit < 2 ^ 31 →
  smallFrames leftChunksLimit schedule = true →
  fetchSeriesFromStores schedule = Ret (inr (sets, queried, warns, n)) →
  (countChunksAndBytes (concat sets)).1 ≤ n ≤ leftChunksLimit.
Proof. exact (fetchSeriesFromStores_counts schedule sets queried warns n). Qed.

Lemma upper_step (s : Shared) (st : Step) :
  0 < maxChunksLimit →
  - 2 ^ 31 ≤ leftChunksLimit < 2 ^ 31 →
  (groupErr s = None → numChunks s ≤ leftChunksLimit) →
  groupErr (step s st) = None → numChunks (step s st) ≤ leftChunksLimit.
Proof.
  intros Hmax Hleft Hs Hg'.
  pose proof (groupErr_step_None s st Hg') as Hg. specialize (Hs Hg).
  revert Hg'.
  destruct st as [e|i marshal open|i|i r v]; cbn [step]; [auto| | |];
    destruct (tasks s !! i) as [[|l|l|]|]; auto.
  - destruct marshal; [|destruct open]; rewrite ?numChunks_finish; auto.
  - destruct (ctxErr s); rewrite ?numChunks_finish; auto.
  - destruct r as [|err|[sr|w|[err|hints]]]; cbn [handleFrame store numChunks];
      rewrite ?numChunks_finish; auto.
    + unfold handleSeries.
      destruct (addSeries v); [rewrite numChunks_finish; auto|].
      cbn [countChunksAndBytes fold_left fst snd].
      destruct (Z.ltb_spec 0 maxChunksLimit) as [_|]; [|lia].
      cbn [andb]. rewrite (wrap32_in_range leftChunksLimit) by lia.
      destruct (Z.ltb_spec leftChunksLimit (wrap32 (numChunks s + wrap32 (0 + Z.of_nat (length (Chunks sr))))));
        [intros Hg'; destruct (finish_error_groupErr _ _ _ Hg')|].
      destruct (addChunkBytes v); [|destruct (addChunks v)];
        rewrite ?numChunks_finish; cbn [continue numChunks]; auto.
    + destruct (String.eqb w ""); auto.
    + destruct (convertBlockHintsToULIDs hints); rewrite ?numChunks_finish; auto.
Qed.

(** X20: with the limit on chunks switched on and the chunks left a
    non-negative [int32], the number of chunks an attempt returns when it
    succeeds is never above the chunks left, whatever the frames and however
    the tasks are interleaved. *)
Theorem fetchSeriesFromStores_count_at_most_left (schedule : list Step)
    (sets : list (list Series)) (queried : list ULID) (warns : list string) (n : Z) :
  0 < maxChunksLimit →
  0 ≤ leftChunksLimit < 2 ^ 31 →
  fetchSeriesFromStores schedule = Ret (inr (sets, queried, warns, n)) →
  n ≤ leftChunksLimit.
Proof.
  intros Hmax Hleft.
  assert (Hrun : ∀ s, (groupErr s = None → numChunks s ≤ leftChunksLimit) →
            groupErr (run s schedule) = None → numChunks (run s schedule) ≤ leftChunksLimit).
  { unfold run. induction schedule as [|st schedule IH]; intros s Hs; [exact Hs|].
    cbn [fold_left]. apply IH. apply upper_step; [exact Hmax | lia | exact Hs]. }
  unfold fetchSeriesFromStores. cbn zeta.
  destruct (forallb isReturned _); [|discriminate].
  destruct (groupErr (run start schedule)) eqn:Hg; [discriminate|].
  intros [= _ _ _ <-]. apply Hrun; [|exact Hg]. intros _. cbn. lia.
Qed.
(** X21: once a task has returned an error, the attempt cannot succeed and
    returns no other error: whatever the tasks do afterwards, an execution
    that ends returns the first error returned. *)
Theorem fetchSeriesFromStores_error_is_first (pre post : list Step) (first : TaskError E)
    (result : TaskError E + list (list Series) * list ULID * list string * Z) :
  groupErr (run start pre) = Some first →
  fetchSeriesFromStores (pre ++ post) = Ret result →
  result = inl first.
Proof.
  intros Hg. unfold fetchSeriesFromStores. cbn zeta.
  rewrite run_app, (groupErr_run post first _ Hg).
  destruct (forallb isReturned _); [|discriminate].
  intros [= <-]. reflexivity.
Qed.

(** **** The queried blocks an attempt returns *)



End Attempt.

End Fetch.

(** *** [selectSorted] *)

Section Select.

(** The state of everything outside the request, the errors of the
    collaborators, the store-gateway clients and the deletion marks. *)
Context {World E Client Marks : Type}.

Variable RemoteAddress : Client → string.
Variable Canceled : E.
Variable Now : World → Z.
Variable TimeToMillis : Z → Z.
Variable GetBlocks : World → Z → Z → World * (E + list Block * Marks).
Variable GetClientsFor :
  World → list ULID → gmap ULID (list string) → World * (E + list (Client * list ULID)).
Variable Check : World → list Block → Marks → list ULID → World * list ULID.
Variable ParseShardIDLabelValue : string → option (N * N).
Variable queryStoreAfter : Z.

(** [q.limits.MaxChunksPerQuery(q.userID)], the matchers as
    [util.LabelMatchersToString] prints them, and what
    [sharding.ShardFromMatchers] makes of them. *)
Variable MaxChunksPerQuery : Z.
Variable matchers : string.
Variable ShardFromMatchers : E + option (N * N).

(** What the store-gateways send during an attempt and how the tasks of the
    attempt are interleaved. *)
Variable streams : World → list (Client * list ULID) → Z → Z → World * list (@Step E).

(** The variables [queryFunc] captures and updates. *)
Record Selected : Type := mkSelected {
  resSeriesSets : list (list Series);
  resWarnings : list string;
  leftChunksLimit : Z
}.

(** The collaborators as the coordinator sees them. *)
Definition liftError {A : Type} (r : E + A) : TaskError E + A :=
  match r with
  | inl err => inl (External err)
  | inr a => inr a
  end.

Definition selNow (w : World * Selected) : Z := Now w.1.

Definition selGetBlocks (w : World * Selected) (minT maxT : Z)
    : World * Selected * (TaskError E + list Block * Marks) :=
  let '(s, r) := GetBlocks w.1 minT maxT in ((s, w.2), liftError r).

Definition selGetClientsFor (w : World * Selected) (blockIDs : list ULID)
    (exclude : gmap ULID (list string))
    : World * Selected * (TaskError E + list (Client * list ULID)) :=
  let '(s, r) := GetClientsFor w.1 blockIDs exclude in ((s, w.2), liftError r).

Definition selCheck (w : World * Selected) (known : list Block) (marks : Marks)
    (queried : list ULID) : World * Selected * list ULID :=
  let '(s, missing) := Check w.1 known marks queried in ((s, w.2), missing).

(** The function [selectSorted] hands to [queryWithConsistencyCheck]. *)
Definition queryFunc (w : World * Selected) (clients : list (Client * list ULID))
    (minT maxT : Z) : World * Selected * outcome (TaskError E + list ULID) :=
  let maxChunksLimit := MaxChunksPerQuery in
  let '(s, schedule) := streams w.1 clients minT maxT in
  match fetchSeriesFromStores RemoteAddress Canceled clients matchers maxChunksLimit
          (leftChunksLimit w.2) schedule with
  | Ret (inl err) => ((s, w.2), Ret (inl err))
  | Ret (inr (seriesSets, queriedBlocks, warnings, numChunks)) =>
      ((s,
        mkSelected (resSeriesSets w.2 ++ seriesSets) (resWarnings w.2 ++ warnings)
          (if 0 <? maxChunksLimit
           then Querier.wrap64 (leftChunksLimit w.2 - numChunks)
           else leftChunksLimit w.2)),
       Ret (inr queriedBlocks))
  | Panic => ((s, w.2), Panic)
  | NoFuel => ((s, w.2), NoFuel)
  end.

(** What [selectSorted] returns: a series set that only carries an error, or
    the series sets to merge with the warnings. *)
Inductive SeriesSet : Type :=
| ErrSeriesSet (err : Querier.QueryError (TaskError E))
| MergeSeriesSet (sets : list (list Series)) (warnings : list string).

(** [selectSorted], with what the coordinator did and the state it left. *)
Definition selectSorted (Start End : Z) (s : World)
    : option (Querier.Run (World * Selected) (TaskError E) Client) * outcome SeriesSet :=
  let minT := Start in
  let maxT := End in
  let maxChunksLimit := MaxChunksPerQuery in
  let leftChunksLimit := maxChunksLimit in
  match ShardFromMatchers with
  | inl err => (None, Ret (ErrSeriesSet (Querier.Upstream (External err))))
  | inr shard =>
      let r :=
        Querier.queryWithConsistencyCheck RemoteAddress selNow TimeToMillis
          selGetBlocks selGetClientsFor selCheck ParseShardIDLabelValue
          queryStoreAfter queryFunc minT maxT shard
          (s, mkSelected [] [] leftChunksLimit) in
      (Some r,
       match Querier.runResult r with
       | Ret (Some err) => Ret (ErrSeriesSet err)
       | Ret None =>
           Ret (MergeSeriesSet (resSeriesSets (Querier.runWorld r).2)
                  (resWarnings (Querier.runWorld r).2))
       | Panic => Panic
       | NoFuel => NoFuel
       end)
  end.

(** *** The chunks left for the next attempt *)

(** After an attempt that returns, the chunks left are those left before less
    the chunks the attempt counted, unless the limit is switched off; an
    attempt that fails leaves the captured variables as they are. *)
Lemma queryFunc_chunks_left (w : World * Selected) (cl : list (Client * list ULID))
    (minT maxT : Z) :
  match fetchSeriesFromStores RemoteAddress Canceled cl matchers MaxChunksPerQuery
          (leftChunksLimit w.2) (streams w.1 cl minT maxT).2 with
  | Ret (inr (sets, queried, warns, n)) =>
      (queryFunc w cl minT maxT).2 = Ret (inr queried)
      ∧ leftChunksLimit (queryFunc w cl minT maxT).1.2
        = (if 0 <? MaxChunksPerQuery
           then Querier.wrap64 (leftChunksLimit w.2 - n)
           else leftChunksLimit w.2)
  | Ret (inl err) =>
      (queryFunc w cl minT maxT).2 = Ret (inl err)
      ∧ (queryFunc w cl minT maxT).1.2 = w.2
  | Panic => (queryFunc w cl minT maxT).2 = Panic
  | NoFuel => (queryFunc w cl minT maxT).2 = NoFuel
  end.
Proof.
  unfold queryFunc. cbn zeta.
  destruct (streams w.1 cl minT maxT) as [s schedule]. cbn [snd].
  destruct (fetchSeriesFromStores _ _ _ _ _ _ _) as [[err|[[[sets q] warns] n]]| |];
    cbn; auto.
Qed.

(** *** Failed streams on the Series path *)



(** *** The limit on chunks over a whole request *)

(** While a request runs, the chunks left are not negative and, with the
    chunks of the series gathered so far, make up no more than the limit. *)
Definition withinLimit (w : World * Selected) : Prop :=
  0 ≤ leftChunksLimit w.2
  ∧ chunksOf (concat (resSeriesSets w.2)) + leftChunksLimit w.2 ≤ MaxChunksPerQuery.

Lemma withinLimit_queryFunc (w : World * Selected) (cl : list (Client * list ULID))
    (minT maxT : Z) :
  0 < MaxChunksPerQuery < 2 ^ 31 →
  (∀ s cl minT maxT, smallFrames MaxChunksPerQuery (streams s cl minT maxT).2 = true) →
  withinLimit w → withinLimit (queryFunc w cl minT maxT).1.
Proof.
  intros Hmax Hsmall [Hleft Hsum]. unfold queryFunc. cbn zeta.
  specialize (Hsmall w.1 cl minT maxT).
  destruct (streams w.1 cl minT maxT) as [s schedule]. cbn [snd] in Hsmall.
  pose proof (chunksOf_nonneg (concat (resSeriesSets w.2))) as Hres.
  pose proof (fetchSeriesFromStores_counts RemoteAddress Canceled cl matchers
                MaxChunksPerQuery (leftChunksLimit w.2) schedule) as Hcounts.
  destruct (fetchSeriesFromStores _ _ _ _ _ _ _) as [[err|[[[sets q] warns] n]]| |];
    cbn [fst]; try (split; assumption).
  destruct (Hcounts sets q warns n) as [Hsets Hn]; [lia | lia | | reflexivity |].
  { apply (smallFrames_le MaxChunksPerQuery); [lia | exact Hsmall]. }
  unfold withinLimit. cbn [snd leftChunksLimit resSeriesSets].
  destruct (Z.ltb_spec 0 MaxChunksPerQuery); [|lia].
  pose proof (chunksOf_nonneg (concat sets)).
  rewrite Querier.wrap64_in_range
    by (unfold Querier.in_int64, Querier.min_int64, Querier.max_int64; lia).
  rewrite concat_app, chunksOf_app. lia.
Qed.

(** X22: with a limit on chunks that is positive and fits [int32], and no
    frame large enough to wrap the counter around, the series sets a request
    returns for merging have no more chunks than the limit, whatever the
    store-gateways sent, however often blocks were fetched again and however
    the tasks were interleaved. *)
Theorem selectSorted_chunks_within_limit (Start End : Z) (s : World)
    (r : option (Querier.Run (World * Selected) (TaskError E) Client))
    (sets : list (list Series)) (warns : list string) :
  0 < MaxChunksPerQuery < 2 ^ 31 →
  (∀ s cl minT maxT, smallFrames MaxChunksPerQuery (streams s cl minT maxT).2 = true) →
  selectSorted Start End s = (r, Ret (MergeSeriesSet sets warns)) →
  (countChunksAndBytes (concat sets)).1 ≤ MaxChunksPerQuery.
Proof.
  intros Hmax Hsmall. unfold selectSorted. cbn zeta.
  destruct ShardFromMatchers as [err|shard]; [discriminate|].
  set (run := Querier.queryWithConsistencyCheck _ _ _ _ _ _ _ _ _ _ _ _ _).
  assert (Hend : withinLimit (Querier.runWorld run)).
  { apply (Querier.queryWithConsistencyCheck_preserves RemoteAddress selNow TimeToMillis
             selGetBlocks selGetClientsFor selCheck ParseShardIDLabelValue
             queryStoreAfter queryFunc withinLimit).
    - intros w minT maxT Hw. unfold selGetBlocks.
      destruct (GetBlocks w.1 minT maxT). exact Hw.
    - intros w ids excl Hw. unfold selGetClientsFor.
      destruct (GetClientsFor w.1 ids excl). exact Hw.
    - intros w known marks queried Hw. unfold selCheck.
      destruct (Check w.1 known marks queried). exact Hw.
    - intros w cl minT maxT. apply withinLimit_queryFunc; assumption.
    - split; cbn; lia. }
  destruct (Querier.runResult run) as [[err|]| |]; try discriminate.
  intros [= _ <- _]. destruct Hend as [Hleft Hsum].
  fold (chunksOf (concat (resSeriesSets (Querier.runWorld run).2))). lia.
Qed.
End Select.

(** *** Worked instances

    One block on one store-gateway, which sends one series with one chunk,
    then its hints, then the end of the stream. *)

Definition demoSeries : Series := mkSeries [("job", "node")] [120].

Definition noVerdict : Verdicts := mkVerdicts None None None.

Definition demoSchedule : list (@Step string) :=
  [ StepOpen 0 None None;
    StepCheck 0; StepRecv 0 (RecvFrame (FrameSeries demoSeries)) noVerdict;
    StepCheck 0; StepRecv 0 (RecvFrame (FrameHints (inr [inr 1%N]))) noVerdict;
    StepCheck 0; StepRecv 0 RecvEOF noVerdict ].

Definition demoStreams (w : unit) (clients : list (string * list ULID)) (minT maxT : Z)
    : unit * list (@Step string) :=
  (w, demoSchedule).

Definition demoFinder (w : unit) (minT maxT : Z) : unit * (string + list Block * unit) :=
  (w, inr ([ShardFilter.sampleBlock 1 ""], tt)).

Definition demoSelector (w : unit) (blockIDs : list ULID)
    (exclude : gmap ULID (list string)) : unit * (string + list (string * list ULID)) :=
  (w, inr [("gw-1", blockIDs)]).

Definition demoSelect (MaxChunksPerQuery : Z)
    : option (Querier.Run (unit * Selected) (TaskError string) string)
      * outcome (@SeriesSet string) :=
  selectSorted (fun addr : string => addr) "context canceled"
    Querier.demoNow Querier.demoTimeToMillis demoFinder demoSelector Querier.demoCheck
    ShardFilter.sampleParse 0 MaxChunksPerQuery "job=node" (inr None) demoStreams
    0 100 tt.

(** With a limit of a thousand chunks the request succeeds. *)
Example demoSelect_within_limit :
  (demoSelect 1000).2 = Ret (MergeSeriesSet [[demoSeries]] []).
Proof. vm_compute. reflexivity. Qed.

(** C3 fails on the code for limits that do not fit 32 bits: with a limit of
    [2^32] chunks the request fails with the limit error on its first series,
    which has one chunk, because the limit is compared as an [int32]. *)
Theorem max_chunks_limit_compared_as_int32 :
  (countChunksAndBytes [demoSeries]).1 = 1
  ∧ wrap32 4294967296 = 0
  ∧ (demoSelect 4294967296).2
    = Ret (ErrSeriesSet
             (Querier.Upstream
                (LimitError (MaxChunksPerQueryLimit "job=node" 4294967296)))).
Proof. vm_compute. repeat split; reflexivity. Qed.

(** Two store-gateways: the first sends a series and its hints and then
    fails; the second sends its hints and ends its stream. *)
Definition twoClients : list (string * list ULID) :=
  [("gw-1", [1%N]); ("gw-2", [2%N])].

Definition beforeFailure : list (@Step string) :=
  [ StepOpen 0 None None; StepOpen 1 None None;
    StepCheck 0; StepRecv 0 (RecvFrame (FrameSeries demoSeries)) noVerdict;
    StepCheck 0; StepRecv 0 (RecvFrame (FrameHints (inr [inr 1%N]))) noVerdict;
    StepCheck 1; StepRecv 1 (RecvFrame (FrameHints (inr [inr 2%N]))) noVerdict;
    StepCheck 0 ].

Definition afterFailure : list (@Step string) :=
  [ StepCheck 1; StepRecv 1 RecvEOF noVerdict ].



(** The execution of the two store-gateways, whole. *)
Definition wholeSchedule : list (@Step string) :=
  beforeFailure ++ StepRecv 0 (RecvError "unavailable") noVerdict :: afterFailure.

Lemma fetchSeriesFromStores_one_set_per_task_witness :
  (length [@nil Series] ≤ length twoClients)%nat.
Proof.
  apply (fetchSeriesFromStores_one_set_per_task (fun addr : string => addr)
           "context canceled" twoClients "job=node" 1000 1000 wholeSchedule
           [[]] [2%N] [] 1).
  vm_compute. reflexivity.
Defined.

Lemma fetchSeriesFromStores_limit_disabled_witness :
  ∃ sets queried warns,
    fetchSeriesFromStores (fun addr : string => addr) "context canceled" twoClients
      "job=node" 0 0 wholeSchedule = Ret (inr (sets, queried, warns, 0)).
Proof.
  destruct (fetchSeriesFromStores_limit_disabled (fun addr : string => addr)
              "context canceled" twoClients "job=node" 0 0 wholeSchedule) as [_ Hzero];
    [lia|].
  destruct (fetchSeriesFromStores (fun addr : string => addr) "context canceled" twoClients
              "job=node" 0 0 wholeSchedule) as [[err|[[[sets queried] warns] n]]| |] eqn:Hret;
    try (vm_compute in Hret; discriminate).
  rewrite (Hzero sets queried warns n eq_refl). eauto.
Defined.

Lemma fetchSeriesFromStores_chunks_within_limit_witness :
  (countChunksAndBytes (concat [@nil Series])).1 ≤ 1 ≤ 1000.
Proof.
  apply (fetchSeriesFromStores_chunks_within_limit (fun addr : string => addr)
           "context canceled" twoClients "job=node" 1000 1000 wholeSchedule
           [[]] [2%N] [] 1).
  - lia.
  - lia.
  - reflexivity.
  - vm_compute. reflexivity.
Defined.

Lemma fetchSeriesFromStores_count_at_most_left_witness : 1 ≤ 1000.
Proof.
  apply (fetchSeriesFromStores_count_at_most_left (fun addr : string => addr)
           "context canceled" twoClients "job=node" 1000 1000 wholeSchedule
           [[]] [2%N] [] 1).
  - lia.
  - lia.
  - vm_compute. reflexivity.
Defined.

Lemma selectSorted_chunks_within_limit_witness :
  (countChunksAndBytes (concat [[demoSeries]])).1 ≤ 1000.
Proof.
  apply (selectSorted_chunks_within_limit (fun addr : string => addr) "context canceled"
           Querier.demoNow Querier.demoTimeToMillis demoFinder demoSelector
           Querier.demoCheck ShardFilter.sampleParse 0 1000 "job=node" (inr None)
           demoStreams 0 100 tt (demoSelect 1000).1 [[demoSeries]] []).
  - lia.
  - intros s cl minT maxT. reflexivity.
  - apply injective_projections; [reflexivity | vm_compute; reflexivity].
Defined.

Lemma fetchSeriesFromStores_error_is_first_witness :
  fetchSeriesFromStores (fun addr : string => addr) "context canceled" twoClients
    "job=node" 1000 1000
    ([StepOpen 0 (Some "too large") None] ++ [StepOpen 1 None None; StepCheck 1])
  = Ret (inl (Wrapf (Wrapf (External "too large") "failed to marshal series request hints")
                "failed to create series request")).
Proof.
  destruct (fetchSeriesFromStores (fun addr : string => addr) "context canceled" twoClients
              "job=node" 1000 1000
              ([StepOpen 0 (Some "too large") None] ++ [StepOpen 1 None None; StepCheck 1]))
    as [result| |] eqn:Hret; try (vm_compute in Hret; discriminate).
  f_equal.
  apply (fetchSeriesFromStores_error_is_first (fun addr : string => addr)
           "context canceled" twoClients "job=node" 1000 1000
           [StepOpen 0 (Some "too large") None] [StepOpen 1 None None; StepCheck 1]);
    [vm_compute; reflexivity | exact Hret].
Defined.

(** *** A failed stream, over a whole request

    One block.  The first store-gateway sends a series with one chunk and then
    fails; the second sends the series, its hints and the end of the
    stream. *)









End SeriesPath.

(** ** Fetching label names and label values *)

Module LabelsPath.

(** [sort.Strings]: the strings in increasing order, compared byte by byte. *)
Fixpoint insertString (s : string) (l : list string) : list string :=
  match l with
  | [] => [s]
  | x :: rest => if String.leb s x then s :: l else x :: insertString s rest
  end.

Definition sortStrings (l : list string) : list string :=
  fold_right insertString [] l.

(** The two fetches: they differ in the messages of their errors, and the
    values are sorted before they are stored. *)
Inductive Kind : Type := Names | Values.

Definition kindName (kind : Kind) : string :=
  match kind with
  | Names => "label names"
  | Values => "label values"
  end.

Section Fetch.

Context {E Client : Type}.

Variable RemoteAddress : Client → string.

(** [storepb.LabelNamesResponse] and [storepb.LabelValuesResponse]: the names
    or values, the warnings, and the hints, given when they are there by
    what unmarshalling them yields. *)
Record Response : Type := mkResponse {
  Strings : list string;
  Warnings : list string;
  Hints : option (E + list (E + ULID))
}.

(** How a task ends: with an error, without error and without storing
    anything, or storing a set of strings, warnings and queried blocks. *)
Inductive TaskResult : Type :=
| TaskFails (err : SeriesPath.TaskError E)
| TaskSkips
| TaskStores (strings : list string) (warnings : list string) (queried : list ULID).

(** The function a task runs, given what marshalling the hints of its
    request and what the call of the store-gateway return. *)
Definition labelTask (kind : Kind) (c : Client) (marshal : option E) (call : E + Response)
    : TaskResult :=
  match marshal with
  | Some err =>
      TaskFails
        (SeriesPath.Wrapf
           (SeriesPath.Wrapf (SeriesPath.External err)
              ("failed to marshal " ++ kindName kind ++ " request hints"))
           ("failed to create " ++ kindName kind ++ " request"))
  | None =>
      match call with
      | inl err => TaskSkips
      | inr resp =>
          let stores (myQueriedBlocks : list ULID) :=
            TaskStores
              (match kind with Names => Strings resp | Values => sortStrings (Strings resp) end)
              (Warnings resp) myQueriedBlocks in
          match Hints resp with
          | None => stores []
          | Some (inl err) =>
              TaskFails
                (SeriesPath.Wrapf (SeriesPath.External err)
                   ("failed to unmarshal " ++ kindName kind ++ " hints from "
                    ++ RemoteAddress c))
          | Some (inr hints) =>
              match SeriesPath.convertBlockHintsToULIDs hints with
              | inl err =>
                  TaskFails
                    (SeriesPath.Wrapf (SeriesPath.External err)
                       "failed to parse queried block IDs from received hints")
              | inr ids => stores ids
              end
          end
      end
  end.

(** The tasks meet only at the error group and under the mutex, at their
    end: an execution is given by the order in which the tasks end, each with
    what marshalling and the call returned to it. *)
Record Completion : Type := mkCompletion {
  task : nat;
  marshal : option E;
  call : E + Response
}.

Record Shared : Type := mkShared {
  sets : list (list string);
  warnings : list string;
  queriedBlocks : list ULID;
  groupErr : option (SeriesPath.TaskError E);
  returned : gset nat
}.

Section Attempt.

Variable kind : Kind.
Variable clients : list (Client * list ULID).

(** What the end of a task does; the end of a task that is not there, or has
    ended before, does nothing. *)
Definition outcomeOf (c : Completion) : option TaskResult :=
  (fun entry : Client * list ULID => labelTask kind entry.1 (marshal c) (call c))
    <$> clients !! task c.

Definition complete (s : Shared) (c : Completion) : Shared :=
  if decide (task c ∈ returned s) then s
  else
    match outcomeOf c with
    | None => s
    | Some (TaskFails err) =>
        mkShared (sets s) (warnings s) (queriedBlocks s)
          (match groupErr s with Some first => Some first | None => Some err end)
          ({[task c]} ∪ returned s)
    | Some TaskSkips =>
        mkShared (sets s) (warnings s) (queriedBlocks s) (groupErr s)
          ({[task c]} ∪ returned s)
    | Some (TaskStores strings myWarnings myQueriedBlocks) =>
        mkShared (sets s ++ [strings]) (warnings s ++ myWarnings)
          (queriedBlocks s ++ myQueriedBlocks) (groupErr s)
          ({[task c]} ∪ returned s)
    end.

Definition run (s : Shared) (schedule : list Completion) : Shared :=
  fold_left complete schedule s.

Definition start : Shared := mkShared [] [] [] None ∅.

(** What the fetch returns once every task has ended: the first error of the
    group, or the sets, the warnings and the queried blocks. *)
Definition fetchLabelsFromStore (schedule : list Completion)
    : outcome (SeriesPath.TaskError E + list (list string) * list string * list ULID) :=
  let s := run start schedule in
  if forallb (fun i => bool_decide (i ∈ returned s)) (seq 0 (length clients)) then
    match groupErr s with
    | Some err => Ret (inl err)
    | None => Ret (inr (sets s, warnings s, queriedBlocks s))
    end
  else NoFuel.

End Attempt.

(** [fetchLabelNamesFromStore] and [fetchLabelValuesFromStore]. *)
Definition fetchLabelNamesFromStore := fetchLabelsFromStore Names.
Definition fetchLabelValuesFromStore := fetchLabelsFromStore Values.

Section Proofs.

Variable kind : Kind.
Variable clients : list (Client * list ULID).

(** What the ends of tasks store, and whether one fails, read off a
    schedule. *)
Definition storedBy (c : Completion) : option (list string * list string * list ULID) :=
  match outcomeOf kind clients c with
  | Some (TaskStores strings myWarnings myQueriedBlocks) =>
      Some (strings, myWarnings, myQueriedBlocks)
  | _ => None
  end.

Definition failure (c : Completion) : option (SeriesPath.TaskError E) :=
  match outcomeOf kind clients c with
  | Some (TaskFails err) => Some err
  | _ => None
  end.

Definition inRange (c : Completion) : bool :=
  bool_decide (task c < length clients)%nat.

Lemma outcomeOf_inRange (c : Completion) :
  inRange c = false → outcomeOf kind clients c = None.
Proof.
  unfold inRange, outcomeOf. intros Hc. apply bool_decide_eq_false in Hc.
  rewrite lookup_ge_None_2 by lia. reflexivity.
Qed.

Lemma inRange_outcomeOf (c : Completion) :
  inRange c = true → is_Some (outcomeOf kind clients c).
Proof.
  unfold inRange, outcomeOf. intros Hc. apply bool_decide_eq_true in Hc.
  destruct (lookup_lt_is_Some_2 clients (task c) Hc) as [entry ->]. eexists. reflexivity.
Qed.

(** A schedule in which no task ends twice, run from a state in which none of
    its tasks has ended. *)
Lemma complete_fresh (s : Shared) (c : Completion) :
  task c ∉ returned s →
  complete kind clients s c
  = match outcomeOf kind clients c with
    | None => s
    | Some (TaskFails err) =>
        mkShared (sets s) (warnings s) (queriedBlocks s)
          (match groupErr s with Some first => Some first | None => Some err end)
          ({[task c]} ∪ returned s)
    | Some TaskSkips =>
        mkShared (sets s) (warnings s) (queriedBlocks s) (groupErr s)
          ({[task c]} ∪ returned s)
    | Some (TaskStores strings myWarnings myQueriedBlocks) =>
        mkShared (sets s ++ [strings]) (warnings s ++ myWarnings)
          (queriedBlocks s ++ myQueriedBlocks) (groupErr s)
          ({[task c]} ∪ returned s)
    end.
Proof. intros Hc. unfold complete. destruct (decide _); [contradiction | reflexivity]. Qed.

Lemma returned_complete (s : Shared) (c : Completion) (i : nat) :
  i ∈ returned (complete kind clients s c)
  ↔ i ∈ returned s ∨ (inRange c = true ∧ task c = i).
Proof.
  unfold complete. destruct (decide (task c ∈ returned s)) as [Hc|Hc].
  { split; [auto|]. intros [Hi|[_ <-]]; assumption. }
  destruct (inRange c) eqn:Hin.
  - destruct (inRange_outcomeOf c Hin) as [[err| |strings ws qs] ->];
      cbn [returned]; rewrite elem_of_union, elem_of_singleton;
      (split; [intros [->|Hi]; auto | intros [Hi|[_ <-]]; auto]).
  - rewrite (outcomeOf_inRange c Hin).
    split; [auto|]. intros [Hi|[? _]]; [exact Hi | discriminate].
Qed.

(** A schedule in which no task ends twice, run from a state in which none of
    its tasks has ended. *)
Lemma run_once (schedule : list Completion) :
  NoDup (map task schedule) →
  ∀ s, (∀ c, In c schedule → task c ∉ returned s) →
    sets (run kind clients s schedule) = sets s ++ (omap storedBy schedule).*1.*1
    ∧ warnings (run kind clients s schedule)
      = warnings s ++ concat (omap storedBy schedule).*1.*2
    ∧ queriedBlocks (run kind clients s schedule)
      = queriedBlocks s ++ concat (omap storedBy schedule).*2
    ∧ groupErr (run kind clients s schedule)
      = match groupErr s with
        | Some first => Some first
        | None => head (omap failure schedule)
        end
    ∧ ∀ i, i ∈ returned (run kind clients s schedule)
           ↔ i ∈ returned s ∨ ∃ c, In c schedule ∧ inRange c = true ∧ task c = i.
Proof.
  unfold run. induction schedule as [|c schedule IH]; intros Hnd s Hfresh.
  { cbn. rewrite !app_nil_r. repeat split; try reflexivity.
    - destruct (groupErr s); reflexivity.
    - auto.
    - intros [Hi|(c & [] & _)]. exact Hi. }
  cbn [map] in Hnd. apply NoDup_cons in Hnd as [Hc Hnd].
  assert (Hnext : ∀ c', In c' schedule → task c' ∉ returned (complete kind clients s c)).
  { intros c' Hin. rewrite returned_complete. intros [Hc'|[_ Heq]].
    - exact (Hfresh c' (or_intror Hin) Hc').
    - apply Hc. rewrite Heq. apply list_elem_of_In, in_map, Hin. }
  destruct (IH Hnd _ Hnext) as (Hsets & Hwarn & Hq & Herr & Hret).
  cbn [fold_left]. rewrite Hsets, Hwarn, Hq, Herr. clear Hsets Hwarn Hq Herr IH.
  pose proof (Hfresh c (or_introl eq_refl)) as Hfc.
  assert (Hlast : ∀ i, i ∈ returned (fold_left (complete kind clients) schedule
                                         (complete kind clients s c))
            ↔ i ∈ returned s ∨ ∃ c', In c' (c :: schedule) ∧ inRange c' = true ∧ task c' = i).
  { intros i. rewrite Hret, returned_complete. split.
    - intros [[Hi|[Hin Heq]]|(c' & Hin & Hr & Heq)]; [auto| |].
      + right. exists c. split; [left; reflexivity | auto].
      + right. exists c'. split; [right; exact Hin | auto].
    - intros [Hi|(c' & [<-|Hin] & Hr & Heq)]; [auto|auto|].
      right. exists c'. auto. }
  rewrite (complete_fresh s c Hfc) in Hlast |- *. clear Hret Hnext.
  change (omap storedBy (c :: schedule))
    with (match storedBy c with
          | Some y => y :: omap storedBy schedule
          | None => omap storedBy schedule
          end).
  change (omap failure (c :: schedule))
    with (match failure c with
          | Some y => y :: omap failure schedule
          | None => omap failure schedule
          end).
  assert (Hst : storedBy c
                = match outcomeOf kind clients c with
                  | Some (TaskStores strings ws qs) => Some (strings, ws, qs)
                  | _ => None
                  end) by reflexivity.
  assert (Hfl : failure c
                = match outcomeOf kind clients c with
                  | Some (TaskFails err) => Some err
                  | _ => None
                  end) by reflexivity.
  rewrite Hst, Hfl. clear Hst Hfl.
  destruct (outcomeOf kind clients c) as [[err| |strings ws qs]|];
    cbn [sets warnings queriedBlocks groupErr fmap list_fmap concat fst snd head];
    rewrite <- ?app_assoc;
    (split; [reflexivity|]); (split; [reflexivity|]); (split; [reflexivity|]);
    (split; [destruct (groupErr s); reflexivity | exact Hlast]).
Qed.

(** The tasks of a schedule that are tasks of the attempt are all its
    tasks. *)
Definition covers (schedule : list Completion) : bool :=
  forallb (fun i => existsb (fun c => Nat.eqb (task c) i) schedule) (seq 0 (length clients)).

Lemma fetchLabelsFromStore_once (schedule : list Completion) :
  NoDup (map task schedule) →
  fetchLabelsFromStore kind clients schedule
  = if covers schedule then
      match head (omap failure schedule) with
      | Some err => Ret (inl err)
      | None =>
          Ret (inr ((omap storedBy schedule).*1.*1,
                    concat (omap storedBy schedule).*1.*2,
                    concat (omap storedBy schedule).*2))
      end
    else NoFuel.
Proof.
  intros Hnd. unfold fetchLabelsFromStore. cbn zeta.
  destruct (run_once schedule Hnd start) as (Hsets & Hwarn & Hq & Herr & Hret).
  { intros c _. cbn. apply not_elem_of_empty. }
  rewrite Hsets, Hwarn, Hq, Herr. cbn [start sets warnings queriedBlocks groupErr app].
  replace (forallb (fun i => bool_decide (i ∈ returned (run kind clients start schedule)))
             (seq 0 (length clients)))
    with (covers schedule); [reflexivity|].
  unfold covers. apply eq_true_iff_eq. rewrite !forallb_forall.
  apply forall_proper. intros i. apply forall_proper. intros Hi. apply in_seq in Hi.
  rewrite bool_decide_eq_true, Hret, existsb_exists. cbn [start returned].
  split.
  - intros (c & Hin & Heq). apply Nat.eqb_eq in Heq. right. exists c.
    split; [exact Hin|]. split; [|exact Heq]. unfold inRange. apply bool_decide_eq_true. lia.
  - intros [Hempty|(c & Hin & _ & Heq)]; [destruct (not_elem_of_empty _ Hempty)|].
    exists c. split; [exact Hin|]. apply Nat.eqb_eq, Heq.
Qed.

(** X23: in an execution in which every task ends once, the fetch fails exactly
    when a task fails to marshal the hints of its request or to read the
    hints of its answer, with the error of the first such task to end;
    otherwise it returns the strings, warnings and queried blocks of the
    tasks whose call succeeded, in the order in which they ended.  A call
    that fails is no error of the fetch and adds nothing to what it
    returns. *)
Theorem fetchLabelsFromStore_returns (schedule : list Completion) :
  NoDup (map task schedule) →
  covers schedule = true →
  (∀ err, fetchLabelsFromStore kind clients schedule = Ret (inl err)
          ↔ head (omap failure schedule) = Some err)
  ∧ (∀ strings warns queried,
       fetchLabelsFromStore kind clients schedule = Ret (inr (strings, warns, queried))
       ↔ omap failure schedule = []
         ∧ strings = (omap storedBy schedule).*1.*1
         ∧ warns = concat (omap storedBy schedule).*1.*2
         ∧ queried = concat (omap storedBy schedule).*2)
  ∧ (∀ c err, In c schedule → marshal c = None → call c = inl err →
       storedBy c = None ∧ failure c = None).
Proof.
  intros Hnd Hcov. rewrite (fetchLabelsFromStore_once schedule Hnd), Hcov.
  split; [|split].
  - intros err. destruct (head (omap failure schedule)); split; congruence.
  - intros strings warns queried.
    destruct (omap failure schedule) as [|e l]; cbn [head]; split.
    + intros [= <- <- <-]. auto.
    + intros (_ & -> & -> & ->). reflexivity.
    + discriminate.
    + intros [Hnil _]. discriminate.
  - intros c err _ Hm Hcall. unfold storedBy, failure, outcomeOf.
    destruct (clients !! task c) as [entry|]; [|auto]. cbn.
    unfold labelTask. rewrite Hm, Hcall. auto.
Qed.

Lemma concat_Permutation {A : Type} (l k : list (list A)) :
  l ≡ₚ k → concat l ≡ₚ concat k.
Proof.
  induction 1 as [|x l k _ IH|x y l|l k m _ IH1 _ IH2]; cbn [concat].
  - reflexivity.
  - apply Permutation_app_head, IH.
  - rewrite !app_assoc. apply Permutation_app_tail, Permutation_app_comm.
  - etransitivity; eassumption.
Qed.

(** X24: up to their order, what the fetch returns does not depend on the order
    in which the tasks end, nor does whether it fails: two executions of the
    same tasks with the same answers both fail, or both return the same sets
    of strings, warnings and queried blocks in some order. *)
Theorem fetchLabelsFromStore_any_order (schedule schedule' : list Completion) :
  NoDup (map task schedule) →
  schedule ≡ₚ schedule' →
  match fetchLabelsFromStore kind clients schedule,
        fetchLabelsFromStore kind clients schedule' with
  | Ret (inr (strings, warns, queried)), Ret (inr (strings', warns', queried')) =>
      strings ≡ₚ strings' ∧ warns ≡ₚ warns' ∧ queried ≡ₚ queried'
  | Ret (inl _), Ret (inl _) => True
  | NoFuel, NoFuel => True
  | _, _ => False
  end.
Proof.
  intros Hnd Hperm.
  assert (Hnd' : NoDup (map task schedule')).
  { revert Hnd. apply NoDup_Permutation_proper, fmap_Permutation. symmetry. exact Hperm. }
  rewrite (fetchLabelsFromStore_once schedule Hnd), (fetchLabelsFromStore_once schedule' Hnd').
  assert (Hcov : covers schedule = covers schedule').
  { unfold covers. apply eq_true_iff_eq. rewrite !forallb_forall.
    apply forall_proper. intros i. apply forall_proper. intros _.
    rewrite !existsb_exists. split; intros (c & Hin & Heq); exists c; split;
      try exact Heq; apply list_elem_of_In; apply list_elem_of_In in Hin.
    - rewrite <- Hperm. exact Hin.
    - rewrite Hperm. exact Hin. }
  rewrite <- Hcov. destruct (covers schedule); [|exact I].
  pose proof (omap_Permutation failure _ _ Hperm) as Hfail.
  pose proof (omap_Permutation storedBy _ _ Hperm) as Hstored.
  destruct (omap failure schedule) as [|e l] eqn:Hl.
  - apply Permutation_nil_l in Hfail. rewrite <- Hfail. cbn [head].
    split; [|split].
    + apply fmap_Permutation, fmap_Permutation, Hstored.
    + apply concat_Permutation, fmap_Permutation, fmap_Permutation, Hstored.
    + apply concat_Permutation, fmap_Permutation, Hstored.
  - destruct (omap failure schedule') as [|e' l']; [|exact I].
    apply Permutation_nil_r in Hfail. discriminate.
Qed.

End Proofs.

(** *** Sorted values *)

Fixpoint isSorted (l : list string) : bool :=
  match l with
  | x :: (y :: _) as rest => String.leb x y && isSorted rest
  | _ => true
  end.

Lemma insertString_sorted (s : string) (l : list string) :
  isSorted l = true → isSorted (insertString s l) = true.
Proof.
  induction l as [|x l IH]; [reflexivity|]. intros Hl. cbn [insertString].
  destruct (String.leb s x) eqn:Hsx.
  - cbn [isSorted]. rewrite Hsx. exact Hl.
  - assert (Hxs : String.leb x s = true)
      by (destruct (String.leb_total s x); congruence).
    destruct l as [|y l]; [cbn; rewrite Hxs; reflexivity|].
    cbn [isSorted] in Hl. apply andb_true_iff in Hl as [Hxy Hl].
    specialize (IH Hl). cbn [insertString] in *.
    destruct (String.leb s y); cbn [isSorted] in *;
      rewrite ?Hxs, ?Hxy; cbn [andb]; exact IH.
Qed.

Lemma insertString_Permutation (s : string) (l : list string) :
  insertString s l ≡ₚ s :: l.
Proof.
  induction l as [|x l IH]; [reflexivity|]. cbn [insertString].
  destruct (String.leb s x); [reflexivity|].
  rewrite IH. apply Permutation_swap.
Qed.

Lemma sortStrings_sorted (l : list string) :
  isSorted (sortStrings l) = true ∧ sortStrings l ≡ₚ l.
Proof.
  induction l as [|s l [IHs IHp]]; [split; reflexivity|].
  cbn [sortStrings fold_right]. fold (sortStrings l). split.
  - apply insertString_sorted, IHs.
  - rewrite insertString_Permutation, IHp. reflexivity.
Qed.

Section Sorted.

Variable clients : list (Client * list ULID).

Definition sortedAnswer (schedule : list Completion) (strings : list string) : Prop :=
  isSorted strings = true
  ∧ ∃ c resp, In c schedule ∧ call c = inr resp ∧ strings ≡ₚ Strings resp.

Lemma complete_sorted (schedule : list Completion) (s : Shared) (c : Completion) :
  In c schedule →
  Forall (sortedAnswer schedule) (sets s) →
  Forall (sortedAnswer schedule) (sets (complete Values clients s c)).
Proof.
  intros Hin Hs. unfold complete.
  destruct (decide (task c ∈ returned s)); [exact Hs|].
  destruct (outcomeOf Values clients c) as [[err| |strings ws qs]|] eqn:Hout;
    cbn [sets]; try exact Hs.
  apply Forall_app. split; [exact Hs|]. apply Forall_singleton.
  unfold outcomeOf in Hout. destruct (clients !! task c) as [entry|]; [|discriminate].
  cbn in Hout. injection Hout as Hout. unfold labelTask in Hout.
  destruct (marshal c); [discriminate|].
  destruct (call c) as [err|resp] eqn:Hcall; [discriminate|].
  assert (Hsorted : sortedAnswer schedule (sortStrings (Strings resp))).
  { destruct (sortStrings_sorted (Strings resp)) as [Hsrt Hperm].
    split; [exact Hsrt|]. exists c, resp. auto. }
  cbn zeta in Hout.
  destruct (Hints resp) as [[err|hints]|]; try discriminate.
  - destruct (SeriesPath.convertBlockHintsToULIDs hints); [discriminate|].
    injection Hout as <- _ _. exact Hsorted.
  - injection Hout as <- _ _. exact Hsorted.
Qed.

(** X25: every set of values that [fetchLabelValuesFromStore] returns is
    sorted, and holds the values of the answer of one of the tasks, each as
    often as the answer has it. *)
Theorem fetchLabelValuesFromStore_sorted (schedule : list Completion)
    (strings : list (list string)) (warns : list string) (queried : list ULID) :
  fetchLabelValuesFromStore clients schedule = Ret (inr (strings, warns, queried)) →
  Forall (sortedAnswer schedule) strings.
Proof.
  unfold fetchLabelValuesFromStore, fetchLabelsFromStore. cbn zeta.
  destruct (forallb _ _); [|discriminate].
  destruct (groupErr _); [discriminate|]. intros [= <- _ _].
  assert (Hrun : ∀ done s,
    (∀ c, In c done → In c schedule) →
    Forall (sortedAnswer schedule) (sets s) →
    Forall (sortedAnswer schedule) (sets (run Values clients s done))).
  { unfold run. induction done as [|c done IH]; intros s Hsub Hs; [exact Hs|].
    cbn [fold_left]. apply IH; [intros c' Hc'; apply Hsub; right; exact Hc'|].
    apply complete_sorted; [apply Hsub; left; reflexivity | exact Hs]. }
  apply Hrun; [auto | constructor].
Qed.

End Sorted.

End Fetch.

(** *** Worked instances

    Two store-gateways: the call of the first fails, the second answers with
    its values out of order and with hints for one block. *)

Definition demoClients : list (string * list ULID) :=
  [("gw-1", [1%N]); ("gw-2", [2%N])].

Definition demoAnswer : @Response string :=
  mkResponse ["zone"; "job"; "pod"] ["partial"] (Some (inr [inr 2%N])).

Definition demoSchedule : list (@Completion string) :=
  [ mkCompletion 1 None (inr demoAnswer); mkCompletion 0 None (inl "unavailable") ].

Lemma fetchLabelsFromStore_returns_witness :
  fetchLabelsFromStore (fun addr : string => addr) Values demoClients demoSchedule
  = Ret (inr ([["job"; "pod"; "zone"]], ["partial"], [2%N])).
Proof.
  apply (fetchLabelsFromStore_returns (fun addr : string => addr) Values demoClients
           demoSchedule).
  - cbn. apply NoDup_cons_2; [|apply NoDup_singleton].
    intros Hin. apply list_elem_of_In in Hin. destruct Hin as [Heq|[]]. discriminate.
  - reflexivity.
  - repeat split; reflexivity.
Defined.

Lemma fetchLabelsFromStore_any_order_witness :
  match fetchLabelsFromStore (fun addr : string => addr) Names demoClients demoSchedule,
        fetchLabelsFromStore (fun addr : string => addr) Names demoClients
          (rev demoSchedule) with
  | Ret (inr (strings, warns, queried)), Ret (inr (strings', warns', queried')) =>
      strings ≡ₚ strings' ∧ warns ≡ₚ warns' ∧ queried ≡ₚ queried'
  | Ret (inl _), Ret (inl _) => True
  | NoFuel, NoFuel => True
  | _, _ => False
  end.
Proof.
  apply (fetchLabelsFromStore_any_order (fun addr : string => addr) Names demoClients
           demoSchedule (rev demoSchedule)).
  - cbn. apply NoDup_cons_2; [|apply NoDup_singleton].
    intros Hin. apply list_elem_of_In in Hin. destruct Hin as [Heq|[]]. discriminate.
  - cbn. apply Permutation_swap.
Defined.

Lemma fetchLabelValuesFromStore_sorted_witness :
  Forall (sortedAnswer demoSchedule) [["job"; "pod"; "zone"]].
Proof.
  apply (fetchLabelValuesFromStore_sorted (fun addr : string => addr) demoClients
           demoSchedule [["job"; "pod"; "zone"]] ["partial"] [2%N]).
  vm_compute. reflexivity.
Defined.

End LabelsPath.
